(** * Huffman coder: min-heap, tree builder, code traversal, stream codec

    A shallow embedding of [treenode.c] and [probability.c].

    - A C [double] weight is a value of a type [W] with the two operations
      the code applies to it, [<] ([w_lt]) and [+] ([w_add]): the class
      [Weight]. The development is parametric in it and is run on IEEE
      binary64 ([PrimFloat]) in the examples.
    - [int] and [unsigned] values are integers of [Z]; the conversions
      between them and the unsigned wrap-around are written out. A [char]
      is taken as signed; on the symbols 0..127 the signed and the unsigned
      reading agree.
    - A C array is a list read and written through bounds-checked
      accessors; a cell of storage that was never written is [None]. The
      nodes form a tree without sharing, so a pointer to a node is the
      node.
    - A run of C code either returns, or has undefined behaviour, or leaves
      through [exit]: the three constructors of [outcome].
    - A recursion or loop of the C code that is not structural runs on a
      number of steps computed from its arguments; the lemmas on
      well-formed heaps show that number to be enough.
    - A file is the list of its bytes; the files open and [malloc]
      returns storage. Of the two streams [printArray] writes to, the file
      is modelled. *)

From Stdlib Require Import ZArith Lia Floats String Ascii DecimalString.
From stdpp Require Import base list.

Local Open Scope Z_scope.

(** ** Outcomes *)

Inductive fault : Type :=
| OutOfBounds (index : Z)   (* an array access outside the storage *)
| Uninitialised             (* a read of storage never written *)
| IntOverflow               (* signed arithmetic out of the range of int *)
| FuelExhausted.            (* a loop of the model ran out of steps *)

Inductive outcome (A : Type) : Type :=
| Done (a : A)
| Undefined (f : fault)
| Exited (status : Z).

Arguments Done {A} a.
Arguments Undefined {A} f.
Arguments Exited {A} status.

Definition bind {A B : Type} (m : outcome A) (k : A -> outcome B) : outcome B :=
  match m with
  | Done a => k a
  | Undefined f => Undefined f
  | Exited s => Exited s
  end.

Notation "x <- m ;; k" := (bind m (fun x => k))
  (at level 100, m at next level, right associativity, only parsing).

(** ** Machine integers *)

Definition ASCII_SIZE : Z := 128.
Definition INT_MIN : Z := - 2 ^ 31.
Definition INT_MAX : Z := 2 ^ 31 - 1.
Definition EXIT_FAILURE : Z := 1.

(** Conversion to [unsigned] (and unsigned arithmetic): reduction modulo 2^32. *)
Definition to_unsigned (z : Z) : Z := z mod 2 ^ 32.

(** Conversion of an unsigned value to [int]. *)
Definition to_int (z : Z) : Z :=
  let r := z mod 2 ^ 32 in if r <? 2 ^ 31 then r else r - 2 ^ 32.

(** Conversion to [char] (signed, eight bits) and to [unsigned char]. *)
Definition to_char (z : Z) : Z :=
  let r := z mod 256 in if r <? 128 then r else r - 256.
Definition to_uchar (z : Z) : Z := z mod 256.

(** The result of a signed [int] operation. *)
Definition int_arith (z : Z) : outcome Z :=
  if (INT_MIN <=? z) && (z <=? INT_MAX) then Done z else Undefined IntOverflow.

(** ** Arrays *)

(** Read of cell [i] of storage that may hold unwritten cells. *)
Definition rd {A : Type} (a : list (option A)) (i : Z) : outcome A :=
  if (0 <=? i) && (i <? Z.of_nat (length a)) then
    match a !! Z.to_nat i with
    | Some (Some x) => Done x
    | _ => Undefined Uninitialised
    end
  else Undefined (OutOfBounds i).

(** Write of cell [i]. *)
Definition wr {A : Type} (a : list (option A)) (i : Z) (x : A)
  : outcome (list (option A)) :=
  if (0 <=? i) && (i <? Z.of_nat (length a)) then Done (<[Z.to_nat i := Some x]> a)
  else Undefined (OutOfBounds i).

(** Read of cell [i] of an array passed in by the caller. *)
Definition rd_in {A : Type} (a : list A) (i : Z) : outcome A :=
  if (0 <=? i) && (i <? Z.of_nat (length a)) then
    match a !! Z.to_nat i with
    | Some x => Done x
    | None => Undefined (OutOfBounds i)
    end
  else Undefined (OutOfBounds i).

(** Text written to a stream: the byte values of a string literal. *)
Definition bytes_of (s : string) : list Z :=
  map (fun c => Z.of_N (N_of_ascii c)) (list_ascii_of_string s).

(** [fprintf(output, "%d", v)]. *)
Definition fprintf_d (v : Z) : list Z :=
  bytes_of (NilZero.string_of_int (Z.to_int v)).

Definition NEWLINE : Z := 10.

(** The weights: C's [double], its [<] and its [+]. *)
Class Weight (W : Type) : Type := { w_lt : W -> W -> bool; w_add : W -> W -> W }.

Section Huffman.

Context {W : Type} {weight : Weight W}.

(** ** treenode.h: the structures *)

Unset Elimination Schemes.
Inductive MinHNode : Type :=
  mkNode { item : Z; freq : W; left : option MinHNode; right : option MinHNode }.
Set Elimination Schemes.

Record MinHeap : Type :=
  mkHeap { size : Z; capacity : Z; array : list (option MinHNode) }.

(** ** treenode.c *)

Definition newNode (item : Z) (freq : W) : MinHNode :=
  {| item := item; freq := freq; left := None; right := None |}.

Definition createMinH (capacity : Z) : MinHeap :=
  {| size := 0; capacity := capacity;
     array := replicate (Z.to_nat capacity) None |}.

(** Exchange of the pointers held in cells [i] and [j]. *)
Definition swapMinHNode (a : list (option MinHNode)) (i j : Z)
  : outcome (list (option MinHNode)) :=
  t <- rd a i ;;
  b <- rd a j ;;
  a1 <- wr a i b ;;
  wr a1 j t.

Fixpoint minHeapify_rec (fuel : nat) (h : MinHeap) (idx : Z) : outcome MinHeap :=
  match fuel with
  | O => Undefined FuelExhausted
  | S fuel' =>
      l <- int_arith (2 * idx + 1) ;;
      r <- int_arith (2 * idx + 2) ;;
      smallest <-
        (if to_unsigned l <? size h then
           x <- rd (array h) l ;;
           y <- rd (array h) idx ;;
           Done (if w_lt (freq x) (freq y) then l else idx)
         else Done idx) ;;
      smallest <-
        (if to_unsigned r <? size h then
           x <- rd (array h) r ;;
           y <- rd (array h) smallest ;;
           Done (if w_lt (freq x) (freq y) then r else smallest)
         else Done smallest) ;;
      if smallest =? idx then Done h
      else
        a' <- swapMinHNode (array h) smallest idx ;;
        minHeapify_rec fuel'
          {| size := size h; capacity := capacity h; array := a' |} smallest
  end.

(** Each recursive call is at a child position below [size], so
    [size - idx] calls (and one more) are enough. *)
Definition minHeapify (h : MinHeap) (idx : Z) : outcome MinHeap :=
  minHeapify_rec (S (Z.to_nat (size h - idx))) h idx.

Definition checkSizeOne (h : MinHeap) : bool := size h =? 1.

Definition extractMin (h : MinHeap) : outcome (MinHNode * MinHeap) :=
  temp <- rd (array h) 0 ;;
  last <- rd (array h) (to_unsigned (size h - 1)) ;;
  a1 <- wr (array h) 0 last ;;
  h' <- minHeapify
          {| size := to_unsigned (size h - 1); capacity := capacity h; array := a1 |} 0 ;;
  Done (temp, h').

(** The [while] loop of [insertMinHeap]: the hole climbs from [i]. *)
Fixpoint insert_loop (fuel : nat) (a : list (option MinHNode)) (node : MinHNode) (i : Z)
  : outcome (list (option MinHNode) * Z) :=
  match fuel with
  | O => Undefined FuelExhausted
  | S fuel' =>
      if i =? 0 then Done (a, i)
      else
        p <- rd a (Z.quot (i - 1) 2) ;;
        if w_lt (freq node) (freq p) then
          a' <- wr a i p ;;
          insert_loop fuel' a' node (Z.quot (i - 1) 2)
        else Done (a, i)
  end.

Definition insertMinHeap (h : MinHeap) (node : MinHNode) : outcome MinHeap :=
  let s := to_unsigned (size h + 1) in
  let i := to_int (s - 1) in
  hole <- insert_loop (S (Z.to_nat i)) (array h) node i ;;
  a' <- wr (fst hole) (snd hole) node ;;
  Done {| size := s; capacity := capacity h; array := a' |}.

(** The [for] loop of [buildMinHeap], [i] running down to 0. *)
Fixpoint buildMinHeap_loop (fuel : nat) (h : MinHeap) (i : Z) : outcome MinHeap :=
  match fuel with
  | O => if 0 <=? i then Undefined FuelExhausted else Done h
  | S fuel' =>
      if 0 <=? i then
        h' <- minHeapify h i ;;
        buildMinHeap_loop fuel' h' (i - 1)
      else Done h
  end.

Definition buildMinHeap (h : MinHeap) : outcome MinHeap :=
  let n := to_int (size h - 1) in
  m <- int_arith (n - 1) ;;
  buildMinHeap_loop (Z.to_nat (Z.quot m 2 + 1)) h (Z.quot m 2).

Definition isLeaf (root : MinHNode) : bool :=
  match left root, right root with
  | None, None => true
  | _, _ => false
  end.

(** The [for] loop of [createAndBuildMinHeap]: [n] more cells from [i] on. *)
Fixpoint fill_loop (n : nat) (a : list (option MinHNode))
    (items : list Z) (freqs : list W) (i : Z) : outcome (list (option MinHNode)) :=
  match n with
  | O => Done a
  | S n' =>
      c <- rd_in items i ;;
      f <- rd_in freqs i ;;
      a' <- wr a i (newNode c f) ;;
      fill_loop n' a' items freqs (i + 1)
  end.

Definition createAndBuildMinHeap (items : list Z) (freqs : list W) (n : Z)
  : outcome MinHeap :=
  let h := createMinH (to_unsigned n) in
  a <- fill_loop (Z.to_nat n) (array h) items freqs 0 ;;
  buildMinHeap {| size := to_unsigned n; capacity := capacity h; array := a |}.

(** The [while] loop of [buildHuffmanTree]. *)
Fixpoint build_loop (fuel : nat) (h : MinHeap) : outcome MinHeap :=
  match fuel with
  | O => if checkSizeOne h then Done h else Undefined FuelExhausted
  | S fuel' =>
      if checkSizeOne h then Done h
      else
        l <- extractMin h ;;
        r <- extractMin (snd l) ;;
        let top :=
          {| item := 36 (* the character $ *);
             freq := w_add (freq (fst l)) (freq (fst r));
             left := Some (fst l); right := Some (fst r) |} in
        h3 <- insertMinHeap (snd r) top ;;
        build_loop fuel' h3
  end.

Definition buildHuffmanTree (items : list Z) (freqs : list W) (n : Z)
  : outcome MinHNode :=
  h <- createAndBuildMinHeap items freqs n ;;
  h' <- build_loop (S (Z.to_nat (size h))) h ;;
  root <- extractMin h' ;;
  Done (fst root).

(** [printArray]: the text written to [output] (the copy that goes to the
    standard output when [printNewline] is set is left out). *)
Fixpoint printArray_loop (k : nat) (arr : list (option Z)) (i : Z) : outcome (list Z) :=
  match k with
  | O => Done []
  | S k' =>
      v <- rd arr i ;;
      rest <- printArray_loop k' arr (i + 1) ;;
      Done (fprintf_d v ++ rest)
  end.

Definition printArray (arr : list (option Z)) (n : Z) (printNewline : Z)
  : outcome (list Z) :=
  digits <- printArray_loop (Z.to_nat n) arr 0 ;;
  Done (digits ++ if printNewline =? 0 then [] else [NEWLINE]).

(** [printHCodeForCharacter]: the array [arr] after the call and the text
    written to [output]. *)
Fixpoint printHCodeForCharacter (root : MinHNode) (target : Z)
    (arr : list (option Z)) (top : Z) (printNewline : Z)
  : outcome (list (option Z) * list Z) :=
  match root with
  | mkNode it _ lft rgt =>
      r1 <- match lft with
            | Some l =>
                arr' <- wr arr top 0 ;;
                t1 <- int_arith (top + 1) ;;
                printHCodeForCharacter l target arr' t1 printNewline
            | None => Done (arr, [])
            end ;;
      r2 <- match rgt with
            | Some r =>
                arr' <- wr (fst r1) top 1 ;;
                t1 <- int_arith (top + 1) ;;
                printHCodeForCharacter r target arr' t1 printNewline
            | None => Done (fst r1, [])
            end ;;
      out <- (if isLeaf root && (it =? target)
              then printArray (fst r2) top printNewline
              else Done []) ;;
      Done (fst r2, snd r1 ++ snd r2 ++ out)
  end.

(** The probability file as the stream of numbers [fscanf] converts from
    it; the stream ends where the file ends or stops being a number. *)
Fixpoint readProbabilities_loop (n : nat) (probfile : list W) : outcome (list W) :=
  match n with
  | O => Done []
  | S n' =>
      match probfile with
      | [] => Exited EXIT_FAILURE
      | p :: rest =>
          ps <- readProbabilities_loop n' rest ;;
          Done (p :: ps)
      end
  end.

Definition readProbabilitiesFromFile (probfile : list W) : outcome (list W) :=
  readProbabilities_loop (Z.to_nat ASCII_SIZE) probfile.

(** [ascii_characters[i] = (char)i] for [i] below [ASCII_SIZE]. *)
Definition ascii_characters : list Z :=
  map (fun i => to_char (Z.of_nat i)) (seq 0 (Z.to_nat ASCII_SIZE)).

(** A fresh [int arr[ASCII_SIZE]]. *)
Definition fresh_arr : list (option Z) := replicate (Z.to_nat ASCII_SIZE) None.

Fixpoint listing_loop (n : nat) (root : MinHNode) (chars : list Z) (i : Z)
  : outcome (list Z) :=
  match n with
  | O => Done []
  | S n' =>
      c <- rd_in chars i ;;
      line <- (if (32 <=? c) && (c <=? 126)
               then r <- printHCodeForCharacter root c fresh_arr 0 1 ;; Done (snd r)
               else Done (bytes_of "No code" ++ [NEWLINE])) ;;
      rest <- listing_loop n' root chars (i + 1) ;;
      Done (line ++ rest)
  end.

(** The contents of [outputFile] after the call. *)
Definition generateAndPrintHuffmanCodes (probfile : list W) : outcome (list Z) :=
  probabilities <- readProbabilitiesFromFile probfile ;;
  root <- buildHuffmanTree ascii_characters probabilities ASCII_SIZE ;;
  listing_loop (Z.to_nat ASCII_SIZE) root ascii_characters 0.

Fixpoint encode_loop (root : MinHNode) (input : list Z) : outcome (list Z) :=
  match input with
  | [] => Done []
  | ch :: rest =>
      r <- printHCodeForCharacter root (to_char ch) fresh_arr 0 0 ;;
      out <- encode_loop root rest ;;
      Done (snd r ++ out)
  end.

(** The contents of [encodedFile] after the call, [dataFile] holding the
    bytes [data]. *)
Definition encodeFile (data : list Z) (probfile : list W) : outcome (list Z) :=
  probabilities <- readProbabilitiesFromFile probfile ;;
  root <- buildHuffmanTree ascii_characters probabilities ASCII_SIZE ;;
  encode_loop root data.

(** The first [if]/[else if] of the decode loop: the move for one character. *)
Definition decode_move (currentNode : MinHNode) (bit : Z) : MinHNode :=
  match (if bit =? 48 then left currentNode else None) with
  | Some l => l
  | None =>
      match (if bit =? 49 then right currentNode else None) with
      | Some r => r
      | None => currentNode
      end
  end.

(** One turn of the decode loop: the next current node and the bytes written. *)
Definition decode_step (root currentNode : MinHNode) (bit : Z) : MinHNode * list Z :=
  let currentNode := decode_move currentNode bit in
  if isLeaf currentNode then (root, [to_uchar (item currentNode)])
  else (currentNode, []).

Fixpoint decode_loop (root currentNode : MinHNode) (input : list Z) : list Z :=
  match input with
  | [] => []
  | bit :: rest =>
      let s := decode_step root currentNode bit in
      snd s ++ decode_loop root (fst s) rest
  end.

(** The contents of [decodedFile] after the call, [encodedFile] holding the
    bytes [encoded]. *)
Definition decodeFile (encoded : list Z) (probfile : list W) : outcome (list Z) :=
  probabilities <- readProbabilitiesFromFile probfile ;;
  root <- buildHuffmanTree ascii_characters probabilities ASCII_SIZE ;;
  Done (decode_loop root root encoded).

End Huffman.

Arguments MinHNode W : clear implicits.
Arguments MinHeap W : clear implicits.

(** ** probability.c *)

Record ProbabilityData : Type := { frequencies : list (option Z) }.

Fixpoint initializeProb_loop (n : nat) (fr : list (option Z)) (i : Z)
  : outcome (list (option Z)) :=
  match n with
  | O => Done fr
  | S n' =>
      fr' <- wr fr i 0 ;;
      initializeProb_loop n' fr' (i + 1)
  end.

Definition initializeProb (data : ProbabilityData) : outcome ProbabilityData :=
  fr <- initializeProb_loop (Z.to_nat ASCII_SIZE) (frequencies data) 0 ;;
  Done {| frequencies := fr |}.

(** The loop of [getFreq] over the bytes [f] still to be read from the
    file; [feof] holds once they are used up. *)
Fixpoint getFreq_loop (f : list Z) (fr : list (option Z)) (n : Z)
  : outcome (Z * list (option Z)) :=
  match f with
  | [] => Done (n, fr)
  | r :: rest =>
      v <- rd fr r ;;
      fr' <- wr fr r (to_unsigned (v + 1)) ;;
      n' <- int_arith (n + 1) ;;
      getFreq_loop rest fr' n'
  end.

Definition getFreq (f : list Z) (data : ProbabilityData)
  : outcome (Z * ProbabilityData) :=
  d <- initializeProb data ;;
  r <- getFreq_loop f (frequencies d) 0 ;;
  Done (to_unsigned (fst r), {| frequencies := snd r |}).

(** ** Vocabulary of the properties *)

(** The node a cell of storage holds, if it holds one. *)
Definition cell {A : Type} (a : list (option A)) (i : Z) : option A :=
  if 0 <=? i then mjoin (a !! Z.to_nat i) else None.

(** [<=] on weights, and the weights on which [<] and [<=] behave as an
    order ([double]: all but NaN). *)
Class WeightOrder {W : Type} (weight : Weight W)
    (w_le : W -> W -> bool) (ok : W -> Prop) : Prop := {
  lt_le : forall x y, ok x -> ok y -> w_lt x y = true -> w_le x y = true;
  nlt_le : forall x y, ok x -> ok y -> w_lt x y = false -> w_le y x = true;
  le_trans : forall x y z,
    ok x -> ok y -> ok z -> w_le x y = true -> w_le y z = true -> w_le x z = true
}.

Section Vocabulary.

Context {W : Type} {weight : Weight W}.

(** The heap [h] is well formed and its [size] live cells hold the nodes [ns]. *)
Definition heap_cells (h : MinHeap W) (ns : list (MinHNode W)) : Prop :=
  size h = Z.of_nat (length ns) /\
  capacity h = Z.of_nat (length (array h)) /\
  capacity h < 2 ^ 30 /\
  exists rest, array h = (Some <$> ns) ++ rest.

(** The node in cell [i] weighs no more than the node in cell [j]. *)
Definition le_at (w_le : W -> W -> bool) (a : list (option (MinHNode W))) (i j : Z) : Prop :=
  forall x y, cell a i = Some x -> cell a j = Some y -> w_le (freq x) (freq y) = true.

(** Position [i] is in order with its children among the first [s] cells. *)
Definition ord_at (w_le : W -> W -> bool) (a : list (option (MinHNode W))) (s i : Z) : Prop :=
  (2 * i + 1 < s -> le_at w_le a i (2 * i + 1)) /\
  (2 * i + 2 < s -> le_at w_le a i (2 * i + 2)).

(** Every position from [k] on is in order with its children. *)
Definition heap_from (w_le : W -> W -> bool) (a : list (option (MinHNode W))) (s k : Z) : Prop :=
  forall i, k <= i -> ord_at w_le a s i.

(** The min-heap ordering of the live cells: every position that has
    children holds a node that weighs no more than either child. *)
Definition heap_ordered (w_le : W -> W -> bool) (h : MinHeap W) : Prop :=
  heap_from w_le (array h) (size h) 0.

(** The weights of the first [s] cells are ordered ones. *)
Definition cells_ok (ok : W -> Prop) (a : list (option (MinHNode W))) (s : Z) : Prop :=
  forall i x, 0 <= i < s -> cell a i = Some x -> ok (freq x).

(** What [minHeapify] at [i] relies on: positions from [k] on other than
    [i] are in order with their children, and the parent of [i] with the
    children of [i]. *)
Definition sift_down_pre (w_le : W -> W -> bool) (a : list (option (MinHNode W)))
    (s i k : Z) : Prop :=
  (forall j, k <= j -> j <> i -> ord_at w_le a s j) /\
  (forall p c, k <= p -> 2 * p + 1 = i \/ 2 * p + 2 = i ->
               c = 2 * i + 1 \/ c = 2 * i + 2 -> c < s -> le_at w_le a p c).

(** What the loop of [insertMinHeap] keeps, [a] holding the new node in
    the hole [i]: every child other than [i] is in order with its parent,
    and the parent of [i] with the children of [i]. *)
Definition sift_up_pre (w_le : W -> W -> bool) (a : list (option (MinHNode W)))
    (s i : Z) : Prop :=
  (forall p c, 0 <= p -> c = 2 * p + 1 \/ c = 2 * p + 2 -> c < s -> c <> i ->
               le_at w_le a p c) /\
  (forall p c, 0 <= p -> 2 * p + 1 = i \/ 2 * p + 2 = i ->
               c = 2 * i + 1 \/ c = 2 * i + 2 -> c < s -> le_at w_le a p c).

(** A sequence of heap operations. *)
Inductive heap_op : Type :=
| Insert (node : MinHNode W)
| ExtractMin.

Fixpoint run_ops (ops : list heap_op) (h : MinHeap W) : outcome (MinHeap W) :=
  match ops with
  | [] => Done h
  | Insert node :: rest => h' <- insertMinHeap h node ;; run_ops rest h'
  | ExtractMin :: rest => r <- extractMin h ;; run_ops rest (snd r)
  end.

Definition op_ok (ok : W -> Prop) (op : heap_op) : Prop :=
  match op with
  | Insert node => ok (freq node)
  | ExtractMin => True
  end.

(** The operations find room and nodes: no [insertMinHeap] on a full heap,
    no [extractMin] on an empty one, [size] and [capacity] being those of
    the heap they start from. *)
Fixpoint ops_fit (ops : list heap_op) (size capacity : Z) : Prop :=
  match ops with
  | [] => True
  | Insert _ :: rest => size < capacity /\ ops_fit rest (size + 1) capacity
  | ExtractMin :: rest => 1 <= size /\ ops_fit rest (size - 1) capacity
  end.

(** The heaps the program starts from: the empty heap of [createMinH] and
    the heap [createAndBuildMinHeap] builds from [n] symbols and weights. *)
Inductive heap_start (ok : W -> Prop) : MinHeap W -> Prop :=
| start_empty (c : Z) :
    0 <= c < 2 ^ 30 -> heap_start ok (createMinH c)
| start_built (items : list Z) (freqs : list W) (n : Z) (h : MinHeap W) :
    0 <= n < 2 ^ 30 ->
    n <= Z.of_nat (length items) -> n <= Z.of_nat (length freqs) ->
    Forall ok (take (Z.to_nat n) freqs) ->
    createAndBuildMinHeap items freqs n = Done h ->
    heap_start ok h.

(** Every node of the tree has two children or none. *)
Fixpoint full (t : MinHNode W) : Prop :=
  match t with
  | mkNode _ _ (Some l) (Some r) => full l /\ full r
  | mkNode _ _ None None => True
  | _ => False
  end.

(** The leaves of a tree, left to right: symbol and weight. *)
Fixpoint leaves (t : MinHNode W) : list (Z * W) :=
  match t with
  | mkNode c f None None => [(c, f)]
  | mkNode _ _ l r =>
      match l with Some l' => leaves l' | None => [] end ++
      match r with Some r' => leaves r' | None => [] end
  end.

(** Every node with two children weighs the sum of the two. *)
Fixpoint sums (t : MinHNode W) : Prop :=
  match t with
  | mkNode _ f (Some l) (Some r) => f = w_add (freq l) (freq r) /\ sums l /\ sums r
  | mkNode _ _ (Some l) None => sums l
  | mkNode _ _ None (Some r) => sums r
  | mkNode _ _ None None => True
  end.

(** The leaf weights added up along the tree. *)
Fixpoint bottom_up (t : MinHNode W) : W :=
  match t with
  | mkNode _ _ (Some l) (Some r) => w_add (bottom_up l) (bottom_up r)
  | mkNode _ _ (Some l) None => bottom_up l
  | mkNode _ _ None (Some r) => bottom_up r
  | mkNode _ f None None => f
  end.

(** The longest way down from the root. *)
Fixpoint height (t : MinHNode W) : Z :=
  match t with
  | mkNode _ _ l r =>
      Z.max (match l with Some l' => 1 + height l' | None => 0 end)
            (match r with Some r' => 1 + height r' | None => 0 end)
  end.

(** The node a bit path leads to from [t]: 0 goes left, 1 goes right. *)
Fixpoint walk (t : MinHNode W) (path : list Z) : option (MinHNode W) :=
  match path with
  | [] => Some t
  | b :: rest =>
      match (if b =? 0 then left t else if b =? 1 then right t else None) with
      | Some c => walk c rest
      | None => None
      end
  end.

(** The current node of the decode loop once it has read [input], having
    started at [currentNode]. *)
Fixpoint decode_state (root currentNode : MinHNode W) (input : list Z) : MinHNode W :=
  match input with
  | [] => currentNode
  | bit :: rest => decode_state root (fst (decode_step root currentNode bit)) rest
  end.

(** [path] is a bit path of symbol [c]: it leads from [t] to a leaf holding [c]. *)
Definition path_of (t : MinHNode W) (c : Z) (path : list Z) : Prop :=
  exists lf, walk t path = Some lf /\ isLeaf lf = true /\ item lf = c.

(** The bit paths from [t] to the leaves that hold [target], in the order
    [printHCodeForCharacter] meets them. *)
Fixpoint paths_to (t : MinHNode W) (target : Z) : list (list Z) :=
  match t with
  | mkNode c _ l r =>
      match l with Some l' => map (cons 0) (paths_to l' target) | None => [] end ++
      match r with Some r' => map (cons 1) (paths_to r' target) | None => [] end ++
      (if isLeaf t && (c =? target) then [[]] else [])
  end.

(** A bit path as written by [printArray], with or without the newline. *)
Definition path_text (printNewline : Z) (path : list Z) : list Z :=
  flat_map fprintf_d path ++ if printNewline =? 0 then [] else [NEWLINE].

(** The symbols the code listing shows a code for: 32..126. *)
Definition printable (c : Z) : bool := (32 <=? c) && (c <=? 126).

(** The line of the code listing for symbol [c]. *)
Definition listing_line (t : MinHNode W) (c : Z) : list Z :=
  if printable c then concat (map (path_text 1) (paths_to t c))
  else bytes_of "No code" ++ [NEWLINE].

End Vocabulary.

Arguments heap_op W : clear implicits.

(** ** The weights of the examples: IEEE binary64 *)

#[export] Instance float_weight : Weight float :=
  {| w_lt := PrimFloat.ltb; w_add := PrimFloat.add |}.

(** Weights added without rounding: integers, with their [<] and [+]. *)
Definition exact_weight : Weight Z := {| w_lt := Z.ltb; w_add := Z.add |}.

(** Three symbols whose weights, added in the order of the tree, do not
    give what they give added in the order of the input. *)
Definition uneven_items : list Z := [97; 98; 99].
Definition uneven_freqs : list float :=
  [0x1.999999999999ap-4%float (* 0.1 *); 1%float; 0x1.6666666666666p-1%float (* 0.7 *)].

(** The probability file of the sample text aaab. *)
Definition aaab_table : list float :=
  replicate 97 0%float ++ [0.75%float; 0.25%float] ++ replicate 29 0%float.

(** A data file: every symbol 0..127 once, then the sample text, then a
    run of one byte. *)
Definition sample_input : list Z :=
  map Z.of_nat (seq 0 128) ++ [97; 97; 97; 98] ++ replicate 5 120.

(** A small alphabet with its weights, and a run of heap operations. *)
Definition sample_items : list Z := [97; 98; 99; 100; 101].
Definition sample_freqs : list float :=
  [0.5%float; 0.125%float; 0.25%float; 0.0625%float; 0.0625%float].
Definition sample_ops : list (heap_op float) :=
  [ExtractMin; Insert (newNode 120 0.375%float); ExtractMin; ExtractMin;
   Insert (newNode 121 1%float)].

(** The heap [createAndBuildMinHeap] builds from the sample alphabet, and
    its live nodes. *)
Definition sample_heap : MinHeap float :=
  Eval vm_compute in
    match createAndBuildMinHeap sample_items sample_freqs 5 with
    | Done h => h
    | _ => createMinH 0
    end.
Definition sample_nodes : list (MinHNode float) :=
  Eval vm_compute in omap id (array sample_heap).

(** The tree of the sample alphabet. *)
Definition sample_tree : MinHNode float :=
  Eval vm_compute in
    match buildHuffmanTree sample_items sample_freqs 5 with
    | Done t => t
    | _ => newNode 0 0%float
    end.

(** A one-leaf tree, and the heap left when its node has been extracted. *)
Definition leaf_a : MinHNode float := newNode 97 1%float.
Definition drained_heap : MinHeap float :=
  {| size := 0; capacity := 1; array := [Some leaf_a] |}.

(** Frequency storage before [initializeProb] has run. *)
Definition fresh_data : ProbabilityData := {| frequencies := replicate 128 None |}.

(** The binary64 weights that [<] and [<=] order: all but NaN, the values
    equal to themselves. *)
Definition float_ok (x : float) : Prop := PrimFloat.eqb x x = true.

(** A key of a binary64 value that is not NaN, whose lexicographic order
    is the order of the values. *)
Definition sf_key (f : spec_float) : Z * (Z * Z) :=
  match f with
  | S754_zero _ => (0, (0, 0))
  | S754_infinity s => (if s then -2 else 2, (0, 0))
  | S754_nan => (3, (0, 0))
  | S754_finite s m e => if s then (-1, (- e, - Zpos m)) else (1, (e, Zpos m))
  end.

Definition lex_compare (a b : Z * (Z * Z)) : comparison :=
  match fst a ?= fst b with
  | Eq => match fst (snd a) ?= fst (snd b) with
          | Eq => snd (snd a) ?= snd (snd b)
          | r => r
          end
  | r => r
  end.

(** ** treenode.c: the listing in tree order *)

Section TreeListing.

Context {W : Type} {weight : Weight W}.

(** [printHCodes]: the array [arr] after the call and the text written to
    [output]. *)
Fixpoint printHCodes (root : MinHNode W) (arr : list (option Z)) (top : Z)
  : outcome (list (option Z) * list Z) :=
  match root with
  | mkNode it _ lft rgt =>
      r1 <- match lft with
            | Some l =>
                arr' <- wr arr top 0 ;;
                t1 <- int_arith (top + 1) ;;
                printHCodes l arr' t1
            | None => Done (arr, [])
            end ;;
      r2 <- match rgt with
            | Some r =>
                arr' <- wr (fst r1) top 1 ;;
                t1 <- int_arith (top + 1) ;;
                printHCodes r arr' t1
            | None => Done (fst r1, [])
            end ;;
      out <- (if isLeaf root then
                if (32 <=? it) && (it <=? 126) then printArray (fst r2) top 1
                else Done (bytes_of "No code" ++ [NEWLINE])
              else Done []) ;;
      Done (fst r2, snd r1 ++ snd r2 ++ out)
  end.

(** The text [HuffmanCodes] writes to [output]. *)
Definition HuffmanCodes (items : list Z) (freqs : list W) (n : Z) : outcome (list Z) :=
  root <- buildHuffmanTree items freqs n ;;
  r <- printHCodes root fresh_arr 0 ;;
  Done (snd r).

(** The leaves of a tree left to right, each with its symbol and its bit
    path, in the order [printHCodes] meets them. *)
Fixpoint leaf_codes (t : MinHNode W) : list (Z * list Z) :=
  match t with
  | mkNode c _ l r =>
      match l with
      | Some l' => map (fun cp => (fst cp, 0 :: snd cp)) (leaf_codes l')
      | None => []
      end ++
      match r with
      | Some r' => map (fun cp => (fst cp, 1 :: snd cp)) (leaf_codes r')
      | None => []
      end ++
      (if isLeaf t then [(c, [])] else [])
  end.

(** The line [printHCodes] writes for a leaf. *)
Definition code_line (cp : Z * list Z) : list Z :=
  if printable (fst cp) then path_text 1 (snd cp)
  else bytes_of "No code" ++ [NEWLINE].

(** The walk over the tree that [printHCodes] and [printHCodeForCharacter]
    share, [act] standing for what either does at a node once its children
    are done. *)
Fixpoint traverse (act : MinHNode W -> list (option Z) -> Z -> outcome (list Z))
    (root : MinHNode W) (arr : list (option Z)) (top : Z)
  : outcome (list (option Z) * list Z) :=
  match root with
  | mkNode it fq lft rgt =>
      r1 <- match lft with
            | Some l =>
                arr' <- wr arr top 0 ;;
                t1 <- int_arith (top + 1) ;;
                traverse act l arr' t1
            | None => Done (arr, [])
            end ;;
      r2 <- match rgt with
            | Some r =>
                arr' <- wr (fst r1) top 1 ;;
                t1 <- int_arith (top + 1) ;;
                traverse act r arr' t1
            | None => Done (fst r1, [])
            end ;;
      out <- act (mkNode it fq lft rgt) (fst r2) top ;;
      Done (fst r2, snd r1 ++ snd r2 ++ out)
  end.

(** The text of a walk in which the node [n], reached by the bit path
    [acc], contributes [text n acc]. *)
Fixpoint visit (text : MinHNode W -> list Z -> list Z) (t : MinHNode W) (acc : list Z)
  : list Z :=
  match t with
  | mkNode it fq l r =>
      match l with Some l' => visit text l' (acc ++ [0]) | None => [] end ++
      match r with Some r' => visit text r' (acc ++ [1]) | None => [] end ++
      text (mkNode it fq l r) acc
  end.

(** What [printHCodeForCharacter] and [printHCodes] do at a node. *)
Definition act_character (target printNewline : Z)
    (root : MinHNode W) (arr : list (option Z)) (top : Z) : outcome (list Z) :=
  if isLeaf root && (item root =? target) then printArray arr top printNewline
  else Done [].

Definition act_codes (root : MinHNode W) (arr : list (option Z)) (top : Z)
  : outcome (list Z) :=
  if isLeaf root then
    if (32 <=? item root) && (item root <=? 126) then printArray arr top 1
    else Done (bytes_of "No code" ++ [NEWLINE])
  else Done [].

(** The code of a symbol: what [encodeFile] writes for it. *)
Definition code_of (t : MinHNode W) (c : Z) : list Z :=
  concat (map (path_text 0) (paths_to t c)).

(** [extractMin] called [n] times: the nodes in the order they come out. *)
Fixpoint extract_all (n : nat) (h : MinHeap W) : outcome (list (MinHNode W)) :=
  match n with
  | O => Done []
  | S n' =>
      r <- extractMin h ;;
      rest <- extract_all n' (snd r) ;;
      Done (fst r :: rest)
  end.

(** The nodes are in nondecreasing order of weight. *)
Definition ascending (w_le : W -> W -> bool) (ns : list (MinHNode W)) : Prop :=
  forall i j x y, (i <= j)%nat -> ns !! i = Some x -> ns !! j = Some y ->
                  w_le (freq x) (freq y) = true.

End TreeListing.

(** The characters 0 and 1. *)
Definition is_bit (c : Z) : bool := (c =? 48) || (c =? 49).

(** The heap of the sample alphabet after one [extractMin]: four nodes in
    storage for five. *)
Definition roomy_heap : MinHeap float :=
  Eval vm_compute in
    match extractMin sample_heap with
    | Done r => snd r
    | _ => createMinH 0
    end.
Definition roomy_nodes : list (MinHNode float) :=
  Eval vm_compute in omap id (take 4 (array roomy_heap)).

(** ** probability.c: the probability table *)

(** Conversion of an [int] or [unsigned] value to [double]. *)
Definition double_of (z : Z) : float :=
  if z <? 0 then PrimFloat.opp (PrimFloat.of_uint63 (Uint63.of_Z (- z)))
  else PrimFloat.of_uint63 (Uint63.of_Z z).

(** The [for] loop of [calculateProbabilities]: the values written to
    [output], one to a line. *)
Fixpoint probabilities_loop (n : nat) (fr : list (option Z)) (totalCharacters i : Z)
  : outcome (list float) :=
  match n with
  | O => Done []
  | S n' =>
      v <- rd fr i ;;
      rest <- probabilities_loop n' fr totalCharacters (i + 1) ;;
      Done (PrimFloat.div (double_of v) (double_of totalCharacters) :: rest)
  end.

(** [calculateProbabilities] on the file [input]: the numbers written to
    [output] in the order written (the decimal text of a number is not
    modelled). The local [data] is storage never written. *)
Definition calculateProbabilities (input : list Z) : outcome (list float) :=
  r <- getFreq input {| frequencies := replicate (Z.to_nat ASCII_SIZE) None |} ;;
  let totalCharacters := to_int (fst r) in
  if totalCharacters =? 0 then Exited EXIT_FAILURE
  else probabilities_loop (Z.to_nat ASCII_SIZE) (frequencies (snd r)) totalCharacters 0.

(** The number of times the byte [c] occurs in [f]. *)
Definition occurrences (f : list Z) (c : Z) : Z :=
  Z.of_nat (length (List.filter (Z.eqb c) f)).

(** ** An alphabet whose tree is deeper than the code array *)

(** 130 symbols, the weight of each twice the weight of the one before. *)
Definition deep_items : list Z := map (fun i => to_char (Z.of_nat i)) (seq 0 130).
Definition deep_freqs : list float :=
  map (fun i => Z.ldexp 1%float (Z.of_nat i)) (seq 0 130).
Definition deep_tree : MinHNode float :=
  Eval vm_compute in
    match buildHuffmanTree deep_items deep_freqs 130 with
    | Done t => t
    | _ => newNode 0 0%float
    end.

(** * Proofs *)

(** ** Outcomes, integers and arrays *)

Lemma bind_Done {B C : Type} (m : outcome B) (k : B -> outcome C) c :
  bind m k = Done c -> exists b, m = Done b /\ k b = Done c.
Proof. destruct m; simpl; intros; try discriminate. eauto. Qed.

Lemma to_unsigned_small z : 0 <= z < 2 ^ 32 -> to_unsigned z = z.
Proof. intros. unfold to_unsigned. apply Z.mod_small. lia. Qed.

Lemma to_int_small z : 0 <= z < 2 ^ 31 -> to_int z = z.
Proof.
  intros. unfold to_int. rewrite Z.mod_small by lia.
  destruct (Z.ltb_spec z (2 ^ 31)); lia.
Qed.

Lemma to_char_small z : 0 <= z < 128 -> to_char z = z.
Proof.
  intros. unfold to_char. rewrite Z.mod_small by lia.
  destruct (Z.ltb_spec z 128); lia.
Qed.

Lemma to_char_range z : -128 <= to_char z < 128.
Proof.
  unfold to_char. pose proof (Z.mod_pos_bound z 256 ltac:(lia)).
  destruct (Z.ltb_spec (z mod 256) 128); lia.
Qed.

Lemma int_arith_Done z : INT_MIN <= z <= INT_MAX -> int_arith z = Done z.
Proof.
  intros. unfold int_arith.
  destruct (Z.leb_spec INT_MIN z), (Z.leb_spec z INT_MAX); simpl; auto; lia.
Qed.

Lemma int_arith_inv z z' : int_arith z = Done z' -> z' = z /\ INT_MIN <= z <= INT_MAX.
Proof.
  unfold int_arith.
  destruct (Z.leb_spec INT_MIN z), (Z.leb_spec z INT_MAX); simpl; intros E;
    inversion E; subst; lia.
Qed.

Section Arrays.

Context {A : Type}.
Implicit Types (a : list (option A)) (i j : Z) (x y : A).

Lemma rd_Done a i x : rd a i = Done x <-> cell a i = Some x.
Proof.
  unfold rd, cell. destruct (Z.leb_spec 0 i); simpl.
  - destruct (Z.ltb_spec i (Z.of_nat (length a))).
    + destruct (a !! Z.to_nat i) as [[y|]|]; simpl; split; intros; congruence.
    + rewrite lookup_ge_None_2 by lia. simpl. split; intros; discriminate.
  - split; intros; discriminate.
Qed.

Lemma cell_bounds a i x : cell a i = Some x -> 0 <= i < Z.of_nat (length a).
Proof.
  unfold cell. destruct (Z.leb_spec 0 i); [|discriminate].
  destruct (a !! Z.to_nat i) as [c|] eqn:E; [|discriminate].
  apply lookup_lt_Some in E. lia.
Qed.

Lemma wr_Done a i x a' :
  wr a i x = Done a' <->
  0 <= i < Z.of_nat (length a) /\ a' = <[Z.to_nat i := Some x]> a.
Proof.
  unfold wr. destruct (Z.leb_spec 0 i), (Z.ltb_spec i (Z.of_nat (length a)));
    simpl; split; intros E; try discriminate; try lia.
  - split; [lia | congruence].
  - destruct E as [_ ->]. reflexivity.
Qed.

Lemma wr_in_bounds a i x :
  0 <= i < Z.of_nat (length a) -> wr a i x = Done (<[Z.to_nat i := Some x]> a).
Proof. intros. apply wr_Done. auto. Qed.

Lemma cell_insert a i j x :
  0 <= i < Z.of_nat (length a) ->
  cell (<[Z.to_nat i := Some x]> a) j = if j =? i then Some x else cell a j.
Proof.
  intros Hi. unfold cell. destruct (Z.eqb_spec j i) as [->|Hne].
  - destruct (Z.leb_spec 0 i); [|lia].
    rewrite list_lookup_insert_eq by lia. reflexivity.
  - destruct (Z.leb_spec 0 j); [|reflexivity].
    rewrite list_lookup_insert_ne by lia. reflexivity.
Qed.

(** A cell in the initialised front part of the storage. *)
Lemma cell_front (ns : list A) (rest : list (option A)) i :
  0 <= i < Z.of_nat (length ns) ->
  cell ((Some <$> ns) ++ rest) i = ns !! Z.to_nat i.
Proof.
  intros Hi. unfold cell. destruct (Z.leb_spec 0 i); [|lia].
  rewrite lookup_app_l by (rewrite length_fmap; lia).
  rewrite list_lookup_fmap. destruct (ns !! Z.to_nat i); reflexivity.
Qed.

Lemma insert_front (ns : list A) (rest : list (option A)) (n : nat) x :
  (n < length ns)%nat ->
  <[n := Some x]> ((Some <$> ns) ++ rest) = (Some <$> <[n := x]> ns) ++ rest.
Proof.
  intros Hn. rewrite insert_app_l by (rewrite length_fmap; lia).
  rewrite list_fmap_insert. reflexivity.
Qed.

(** Overwriting a cell permutes nothing else; exchanging two cells is a
    permutation. *)
Lemma insert_Permutation (l : list A) (n : nat) x y :
  l !! n = Some x -> <[n := y]> l ≡ₚ y :: delete n l.
Proof.
  revert n. induction l as [|z l IH]; intros [|n] E; simpl in *; try discriminate.
  - reflexivity.
  - rewrite (IH n E). apply perm_swap.
Qed.

Lemma swap_Permutation (l : list A) (n m : nat) x y :
  l !! n = Some x -> l !! m = Some y -> <[m := x]> (<[n := y]> l) ≡ₚ l.
Proof.
  revert n m. induction l as [|z l IH]; intros [|n] [|m] En Em;
    simpl in *; try discriminate.
  - inversion En; subst z. reflexivity.
  - inversion En; subst z. rewrite (insert_Permutation l m y x Em).
    rewrite (delete_Permutation l m y Em) at 2. apply perm_swap.
  - inversion Em; subst z. rewrite (insert_Permutation l n x y En).
    rewrite (delete_Permutation l n x En) at 2. apply perm_swap.
  - constructor. apply IH; assumption.
Qed.

End Arrays.

(** ** The heap operations on a well-formed heap: they return, and the
    live cells are permuted *)

Section HeapCells.

Context {W : Type} {weight : Weight W}.
Implicit Types (h : MinHeap W) (ns : list (MinHNode W)) (a : list (option (MinHNode W))).

Lemma heap_cells_cell h ns i :
  heap_cells h ns -> 0 <= i < size h ->
  exists x, cell (array h) i = Some x /\ ns !! Z.to_nat i = Some x.
Proof.
  intros (Hs & Hc & Hb & rest & Ha) Hi. rewrite Ha, cell_front by lia.
  destruct (lookup_lt_is_Some_2 ns (Z.to_nat i)) as [x Hx]; [lia|]. eauto.
Qed.

Lemma heap_cells_size h ns : heap_cells h ns -> 0 <= size h <= capacity h /\ capacity h < 2 ^ 30.
Proof.
  intros (Hs & Hc & Hb & rest & Ha).
  assert (length (array h) = (length ns + length rest)%nat)
    by (rewrite Ha, length_app, length_fmap; reflexivity).
  lia.
Qed.

Lemma swapMinHNode_Done a i j x y :
  cell a i = Some x -> cell a j = Some y ->
  swapMinHNode a i j = Done (<[Z.to_nat j := Some x]> (<[Z.to_nat i := Some y]> a)).
Proof.
  intros Hi Hj. unfold swapMinHNode.
  rewrite (proj2 (rd_Done a i x) Hi), (proj2 (rd_Done a j y) Hj). cbn [bind].
  rewrite wr_in_bounds by (eapply cell_bounds; eauto). cbn [bind].
  apply wr_in_bounds. rewrite length_insert. eapply cell_bounds; eauto.
Qed.

Lemma heap_cells_swap h ns i j x y :
  heap_cells h ns -> 0 <= i < size h -> 0 <= j < size h ->
  cell (array h) i = Some x -> cell (array h) j = Some y ->
  exists ns',
    heap_cells {| size := size h; capacity := capacity h;
                  array := <[Z.to_nat j := Some x]> (<[Z.to_nat i := Some y]> (array h)) |} ns'
    /\ ns' ≡ₚ ns.
Proof.
  intros (Hs & Hc & Hb & rest & Ha) Hi Hj Hx Hy.
  rewrite Ha in Hx, Hy. rewrite cell_front in Hx, Hy by lia.
  exists (<[Z.to_nat j := x]> (<[Z.to_nat i := y]> ns)). split.
  - unfold heap_cells; cbn [size capacity array].
    rewrite !length_insert. repeat split; try assumption.
    exists rest. rewrite Ha.
    rewrite insert_front by lia. rewrite insert_front by (rewrite length_insert; lia).
    reflexivity.
  - eapply swap_Permutation; eassumption.
Qed.

Lemma minHeapify_rec_cells fuel h idx ns :
  heap_cells h ns -> 0 <= idx <= size h -> 2 * idx + 2 <= INT_MAX ->
  (Z.to_nat (size h - idx) < fuel)%nat ->
  exists h' ns',
    minHeapify_rec fuel h idx = Done h' /\ heap_cells h' ns' /\ ns' ≡ₚ ns /\
    capacity h' = capacity h.
Proof.
  revert h idx ns. induction fuel as [|fuel IH]; intros h idx ns Hh Hidx Hmax Hfuel; [lia|].
  pose proof (heap_cells_size h ns Hh) as Hsz.
  assert (Hstep : forall sm x y, idx < sm < size h ->
            cell (array h) sm = Some x -> cell (array h) idx = Some y ->
            exists h' ns',
              (if sm =? idx then Done h
               else a' <- swapMinHNode (array h) sm idx ;;
                    minHeapify_rec fuel
                      {| size := size h; capacity := capacity h; array := a' |} sm)
              = Done h' /\ heap_cells h' ns' /\ ns' ≡ₚ ns /\ capacity h' = capacity h).
  { intros sm x y Hsm Hx Hy.
    destruct (Z.eqb_spec sm idx); [lia|].
    rewrite (swapMinHNode_Done _ _ _ _ _ Hx Hy). cbn [bind].
    destruct (heap_cells_swap h ns sm idx x y Hh ltac:(lia) ltac:(lia) Hx Hy)
      as (ns1 & Hh1 & Hp1).
    destruct (IH _ sm ns1 Hh1) as (h' & ns' & E & Hh' & Hp' & Hc');
      [simpl; lia | unfold INT_MAX in *; simpl; lia | simpl; lia |].
    exists h', ns'. split; [exact E|]. split; [exact Hh'|].
    split; [etransitivity; eauto | exact Hc']. }
  assert (Hstay : exists h' ns',
            (if idx =? idx then Done h
             else a' <- swapMinHNode (array h) idx idx ;;
                  minHeapify_rec fuel
                    {| size := size h; capacity := capacity h; array := a' |} idx)
            = Done h' /\ heap_cells h' ns' /\ ns' ≡ₚ ns /\ capacity h' = capacity h).
  { rewrite Z.eqb_refl. exists h, ns. split; [reflexivity|]. split; [exact Hh|].
    split; reflexivity. }
  cbn [minHeapify_rec].
  rewrite int_arith_Done by (unfold INT_MIN, INT_MAX in *; lia). cbn [bind].
  rewrite int_arith_Done by (unfold INT_MIN, INT_MAX in *; lia). cbn [bind].
  rewrite !to_unsigned_small by lia.
  destruct (Z.ltb_spec (2 * idx + 1) (size h)) as [Hl|Hl].
  - destruct (heap_cells_cell h ns (2 * idx + 1) Hh ltac:(lia)) as (xl & Hxl & _).
    destruct (heap_cells_cell h ns idx Hh ltac:(lia)) as (xi & Hxi & _).
    rewrite (proj2 (rd_Done _ _ _) Hxl), (proj2 (rd_Done _ _ _) Hxi). cbn [bind].
    destruct (Z.ltb_spec (2 * idx + 2) (size h)) as [Hr|Hr].
    + destruct (heap_cells_cell h ns (2 * idx + 2) Hh ltac:(lia)) as (xr & Hxr & _).
      rewrite (proj2 (rd_Done _ _ _) Hxr).
      destruct (w_lt (freq xl) (freq xi)); cbn [bind].
      * rewrite (proj2 (rd_Done _ _ _) Hxl). cbn [bind].
        destruct (w_lt (freq xr) (freq xl)); eapply Hstep; eauto; lia.
      * rewrite (proj2 (rd_Done _ _ _) Hxi). cbn [bind].
        destruct (w_lt (freq xr) (freq xi)); [eapply Hstep; eauto; lia | apply Hstay].
    + destruct (w_lt (freq xl) (freq xi)); cbn [bind];
        [eapply Hstep; eauto; lia | apply Hstay].
  - cbn [bind].
    destruct (Z.ltb_spec (2 * idx + 2) (size h)) as [Hr|Hr]; [lia|].
    cbn [bind]. apply Hstay.
Qed.

Lemma minHeapify_cells h idx ns :
  heap_cells h ns -> 0 <= idx <= size h -> 2 * idx + 2 <= INT_MAX ->
  exists h' ns',
    minHeapify h idx = Done h' /\ heap_cells h' ns' /\ ns' ≡ₚ ns /\
    capacity h' = capacity h.
Proof. intros. apply minHeapify_rec_cells; auto; lia. Qed.

Lemma take_last_Permutation ns (x lst : MinHNode W) :
  ns !! 0%nat = Some x -> ns !! (length ns - 1)%nat = Some lst ->
  x :: take (length ns - 1) (<[0%nat := lst]> ns) ≡ₚ ns.
Proof.
  destruct ns as [|x' tl]; [discriminate|]. intros E0 El. inversion E0; subst x'.
  destruct tl as [|y tl']; [reflexivity|].
  cbn [length] in *. replace (S (S (length tl')) - 1)%nat with (S (length tl')) in * by lia.
  cbn [list_insert insert take]. constructor.
  change (lst :: take (length tl') (y :: tl') ≡ₚ y :: tl').
  cbn [lookup list_lookup] in El.
  rewrite <- (take_ge (y :: tl') (S (length tl'))) at 2 by (simpl; lia).
  rewrite (take_S_r _ _ _ El). apply Permutation_cons_append.
Qed.

Lemma extractMin_cells h ns :
  heap_cells h ns -> 1 <= size h ->
  exists x h' ns',
    extractMin h = Done (x, h') /\ cell (array h) 0 = Some x /\
    heap_cells h' ns' /\ ns ≡ₚ x :: ns' /\ capacity h' = capacity h.
Proof.
  intros Hh Hs. pose proof (heap_cells_size h ns Hh) as Hsz.
  destruct (heap_cells_cell h ns 0 Hh ltac:(lia)) as (x & Hx & Hx').
  destruct (heap_cells_cell h ns (size h - 1) Hh ltac:(lia)) as (lst & Hl & Hl').
  destruct Hh as (Hlen & Hc & Hb & rest & Ha).
  unfold extractMin. rewrite to_unsigned_small by lia.
  rewrite (proj2 (rd_Done _ _ _) Hx), (proj2 (rd_Done _ _ _) Hl). cbn [bind].
  rewrite wr_in_bounds by lia. cbn [bind].
  set (ns1 := take (length ns - 1) (<[0%nat := lst]> ns)).
  assert (Hp : x :: ns1 ≡ₚ ns).
  { apply take_last_Permutation; [exact Hx'|].
    replace (length ns - 1)%nat with (Z.to_nat (size h - 1)) by lia. exact Hl'. }
  assert (Hh1 : heap_cells {| size := size h - 1; capacity := capacity h;
                              array := <[Z.to_nat 0 := Some lst]> (array h) |} ns1).
  { unfold heap_cells; cbn [size capacity array]. rewrite length_insert.
    assert (length ns1 = (length ns - 1)%nat)
      by (unfold ns1; rewrite length_take, length_insert; lia).
    split; [lia|]. split; [assumption|]. split; [assumption|].
    exists ((Some <$> drop (length ns - 1) (<[0%nat := lst]> ns)) ++ rest).
    rewrite Ha. change (Z.to_nat 0) with 0%nat. rewrite insert_front by lia.
    unfold ns1. rewrite app_assoc, <- fmap_app, take_drop. reflexivity. }
  destruct (minHeapify_cells _ 0 ns1 Hh1) as (h' & ns' & E & Hh' & Hp' & Hc');
    [simpl; lia | unfold INT_MAX; lia |].
  rewrite E. cbn [bind]. exists x, h', ns'.
  split; [reflexivity|]. split; [exact Hx|]. split; [exact Hh'|].
  split; [|exact Hc']. rewrite Hp'. symmetry. exact Hp.
Qed.

Lemma insert_loop_cells fuel a node i ms rest :
  <[Z.to_nat i := Some node]> a = (Some <$> ms) ++ rest ->
  0 <= i < Z.of_nat (length ms) -> (Z.to_nat i < fuel)%nat ->
  exists a' i' ms',
    insert_loop fuel a node i = Done (a', i') /\ 0 <= i' <= i /\
    <[Z.to_nat i' := Some node]> a' = (Some <$> ms') ++ rest /\
    ms' ≡ₚ ms /\ length a' = length a.
Proof.
  revert a i ms. induction fuel as [|fuel IH]; intros a i ms Ha Hi Hfuel; [lia|].
  cbn [insert_loop]. destruct (Z.eqb_spec i 0) as [->|Hne].
  { exists a, 0, ms. repeat split; auto; lia. }
  assert (Hlen : length a = (length ms + length rest)%nat).
  { rewrite <- (length_insert a (Z.to_nat i) (Some node)), Ha, length_app, length_fmap.
    reflexivity. }
  assert (Hq : 0 <= Z.quot (i - 1) 2 < i).
  { rewrite Z.quot_div_nonneg by lia. split; [apply Z.div_pos; lia|].
    apply Z.div_lt_upper_bound; lia. }
  set (par := Z.quot (i - 1) 2) in *.
  assert (Hnode : ms !! Z.to_nat i = Some node).
  { rewrite <- (cell_front ms rest i) by lia. rewrite <- Ha.
    rewrite cell_insert by lia. rewrite Z.eqb_refl. reflexivity. }
  destruct (lookup_lt_is_Some_2 ms (Z.to_nat par)) as [p Hp]; [lia|].
  assert (Hcell : cell a par = Some p).
  { rewrite <- Hp, <- (cell_front ms rest par) by lia. rewrite <- Ha.
    rewrite cell_insert by lia. destruct (Z.eqb_spec par i); [lia|reflexivity]. }
  rewrite (proj2 (rd_Done _ _ _) Hcell). cbn [bind].
  destruct (w_lt (freq node) (freq p)).
  - rewrite wr_in_bounds by lia. cbn [bind].
    destruct (IH (<[Z.to_nat i := Some p]> a) par
                 (<[Z.to_nat par := node]> (<[Z.to_nat i := p]> ms)))
      as (a' & i' & ms' & E & Hi' & Ha' & Hp' & Hl'); [| rewrite !length_insert; lia | lia |].
    + rewrite <- (list_insert_insert_eq a (Z.to_nat i) (Some p) (Some node)), Ha.
      rewrite insert_front by lia. rewrite insert_front by (rewrite length_insert; lia).
      reflexivity.
    + exists a', i', ms'. split; [exact E|]. split; [lia|]. split; [exact Ha'|].
      split; [|rewrite Hl', length_insert; reflexivity].
      rewrite Hp'. eapply swap_Permutation; eassumption.
  - exists a, i, ms. repeat split; auto; lia.
Qed.

Lemma insertMinHeap_cells h ns node :
  heap_cells h ns -> size h < capacity h ->
  exists h' ns',
    insertMinHeap h node = Done h' /\ heap_cells h' ns' /\ ns' ≡ₚ node :: ns /\
    capacity h' = capacity h.
Proof.
  intros Hh Hs. pose proof (heap_cells_size h ns Hh) as Hsz.
  destruct Hh as (Hlen & Hc & Hb & rest & Ha).
  assert (Hla : length (array h) = (length ns + length rest)%nat)
    by (rewrite Ha, length_app, length_fmap; reflexivity).
  destruct rest as [|c rest']; [simpl in Hla; lia|].
  unfold insertMinHeap. rewrite to_unsigned_small by lia.
  replace (size h + 1 - 1) with (size h) by lia. rewrite to_int_small by lia.
  destruct (insert_loop_cells (S (Z.to_nat (size h))) (array h) node (size h)
              (ns ++ [node]) rest')
    as (a' & i' & ms' & E & Hi' & Ha' & Hp' & Hl'); [| rewrite length_app; simpl; lia | lia |].
  { rewrite Ha. replace (Z.to_nat (size h)) with (length (Some <$> ns) + 0)%nat
      by (rewrite length_fmap; lia).
    rewrite insert_app_r. cbn [list_insert insert].
    rewrite fmap_app, <- app_assoc. reflexivity. }
  rewrite E. cbn [bind fst snd]. rewrite wr_in_bounds by (simpl in Hla; lia). cbn [bind].
  exists {| size := size h + 1; capacity := capacity h;
            array := <[Z.to_nat i' := Some node]> a' |}, ms'.
  split; [reflexivity|]. split; [|split; [|reflexivity]].
  - unfold heap_cells; cbn [size capacity array].
    rewrite length_insert, Hl'. rewrite (Permutation_length Hp'), length_app. simpl.
    split; [lia|]. split; [assumption|]. split; [assumption|]. eauto.
  - rewrite Hp'. symmetry. apply Permutation_cons_append.
Qed.

Lemma buildMinHeap_loop_cells fuel h i ns :
  heap_cells h ns -> -1 <= i <= size h -> 2 * i + 2 <= INT_MAX ->
  (Z.to_nat (i + 1) <= fuel)%nat ->
  exists h' ns',
    buildMinHeap_loop fuel h i = Done h' /\ heap_cells h' ns' /\ ns' ≡ₚ ns /\
    capacity h' = capacity h.
Proof.
  revert h i ns. induction fuel as [|fuel IH]; intros h i ns Hh Hi Hmax Hfuel;
    cbn [buildMinHeap_loop]; destruct (Z.leb_spec 0 i) as [Hpos|Hneg]; try lia;
    try (exists h, ns; split; [reflexivity|]; split; [exact Hh|];
         split; reflexivity).
  destruct (minHeapify_cells h i ns Hh ltac:(lia) Hmax) as (h1 & ns1 & E & Hh1 & Hp1 & Hc1).
  rewrite E. cbn [bind].
  assert (size h1 = size h).
  { destruct Hh1 as (-> & _), Hh as (-> & _). rewrite (Permutation_length Hp1). reflexivity. }
  destruct (IH h1 (i - 1) ns1 Hh1) as (h' & ns' & E' & Hh' & Hp' & Hc'); try lia.
  exists h', ns'. split; [exact E'|]. split; [exact Hh'|].
  split; [etransitivity; eauto | congruence].
Qed.

Lemma buildMinHeap_cells h ns :
  heap_cells h ns ->
  exists h' ns',
    buildMinHeap h = Done h' /\ heap_cells h' ns' /\ ns' ≡ₚ ns /\
    capacity h' = capacity h.
Proof.
  intros Hh. pose proof (heap_cells_size h ns Hh) as Hsz. unfold buildMinHeap.
  assert (Hn : to_int (size h - 1) = size h - 1).
  { destruct (Z.eq_dec (size h) 0) as [->|]; [reflexivity|]. apply to_int_small. lia. }
  rewrite Hn. rewrite int_arith_Done by (unfold INT_MIN, INT_MAX; lia). cbn [bind].
  assert (Hq : -1 <= Z.quot (size h - 1 - 1) 2 <= size h /\
               2 * Z.quot (size h - 1 - 1) 2 + 2 <= INT_MAX).
  { unfold INT_MAX.
    destruct (Z.eq_dec (size h) 0) as [E|];
      [rewrite E; change (Z.quot (0 - 1 - 1) 2) with (-1); lia|].
    destruct (Z.eq_dec (size h) 1) as [E|];
      [rewrite E; change (Z.quot (1 - 1 - 1) 2) with 0; lia|].
    rewrite Z.quot_div_nonneg by lia.
    assert (0 <= (size h - 1 - 1) / 2) by (apply Z.div_pos; lia).
    assert ((size h - 1 - 1) / 2 < size h) by (apply Z.div_lt_upper_bound; lia).
    lia. }
  apply buildMinHeap_loop_cells; auto; lia.
Qed.

Lemma fill_loop_cells k (items : list Z) (freqs : list W) ns :
  (length ns + k <= length items)%nat -> (length ns + k <= length freqs)%nat ->
  fill_loop k ((Some <$> ns) ++ replicate k None) items freqs (Z.of_nat (length ns))
  = Done (Some <$> (ns ++ zip_with newNode (take k (drop (length ns) items))
                                           (take k (drop (length ns) freqs)))).
Proof.
  revert ns. induction k as [|k IH]; intros ns Hi Hf; cbn [fill_loop replicate].
  - simpl. rewrite !app_nil_r. reflexivity.
  - destruct (lookup_lt_is_Some_2 items (length ns)) as [c Hc]; [lia|].
    destruct (lookup_lt_is_Some_2 freqs (length ns)) as [f Hf']; [lia|].
    assert (Hrd : forall (A : Type) (l : list A) x, l !! length ns = Some x ->
              rd_in l (Z.of_nat (length ns)) = Done x).
    { intros A l x Hx. unfold rd_in. pose proof (lookup_lt_Some _ _ _ Hx).
      destruct (Z.leb_spec 0 (Z.of_nat (length ns))); [|lia].
      destruct (Z.ltb_spec (Z.of_nat (length ns)) (Z.of_nat (length l))); [|lia].
      simpl. rewrite Nat2Z.id, Hx. reflexivity. }
    rewrite (Hrd _ _ _ Hc), (Hrd _ _ _ Hf'). cbn [bind].
    rewrite wr_in_bounds
      by (rewrite length_app, length_fmap; cbn [length]; lia). cbn [bind].
    rewrite Nat2Z.id.
    replace (length ns) with (length (Some <$> ns) + 0)%nat at 1
      by (rewrite length_fmap; lia).
    rewrite insert_app_r. cbn [list_insert insert].
    specialize (IH (ns ++ [newNode c f])).
    rewrite length_app in IH. cbn [length] in IH.
    replace (Z.of_nat (length ns) + 1) with (Z.of_nat (length ns + 1)) by lia.
    rewrite fmap_app, <- app_assoc in IH. cbn [fmap list_fmap app] in IH.
    cbn [app]. rewrite IH by lia. f_equal. rewrite <- app_assoc. f_equal. f_equal.
    rewrite (drop_S _ _ _ Hc), (drop_S _ _ _ Hf'). cbn [take zip_with app].
    replace (length ns + 1)%nat with (S (length ns)) by lia. reflexivity.
Qed.

Lemma createAndBuildMinHeap_cells (items : list Z) (freqs : list W) n :
  0 <= n < 2 ^ 30 -> n <= Z.of_nat (length items) -> n <= Z.of_nat (length freqs) ->
  exists h ns,
    createAndBuildMinHeap items freqs n = Done h /\ heap_cells h ns /\
    ns ≡ₚ zip_with newNode (take (Z.to_nat n) items) (take (Z.to_nat n) freqs) /\
    capacity h = n.
Proof.
  intros Hn Hi Hf. unfold createAndBuildMinHeap, createMinH. cbn [array capacity].
  rewrite to_unsigned_small by lia.
  pose proof (fill_loop_cells (Z.to_nat n) items freqs [] ltac:(simpl; lia) ltac:(simpl; lia))
    as E.
  cbn [fmap list_fmap app length drop] in E. change (Z.of_nat 0) with 0 in E.
  rewrite E. cbn [bind].
  set (ns := zip_with newNode (take (Z.to_nat n) items) (take (Z.to_nat n) freqs)).
  assert (Hlen : length ns = Z.to_nat n).
  { unfold ns. rewrite length_zip_with, !length_take. lia. }
  destruct (buildMinHeap_cells {| size := n; capacity := n; array := Some <$> ns |} ns)
    as (h' & ns' & E' & Hh' & Hp' & Hc').
  { unfold heap_cells; cbn [size capacity array]. rewrite length_fmap.
    split; [lia|]. split; [lia|]. split; [lia|].
    exists []. rewrite app_nil_r. reflexivity. }
  exists h', ns'. split; [exact E'|]. split; [exact Hh'|]. split; [exact Hp'|exact Hc'].
Qed.

End HeapCells.

(** ** The tree builder *)

Section Builder.

Context {W : Type} {weight : Weight W}.
Implicit Types (t : MinHNode W) (h : MinHeap W) (ns : list (MinHNode W)).

Lemma tree_ind (P : MinHNode W -> Prop) :
  (forall c f l r,
      (forall l', l = Some l' -> P l') -> (forall r', r = Some r' -> P r') ->
      P (mkNode c f l r)) ->
  forall t, P t.
Proof.
  intros step. fix IH 1. intros [c f l r]. apply step.
  - destruct l as [l0|]; intros l' E; [|discriminate].
    pose proof (IH l0) as H. inversion E; subst. exact H.
  - destruct r as [r0|]; intros r' E; [|discriminate].
    pose proof (IH r0) as H. inversion E; subst. exact H.
Qed.

Lemma heap_cells_length h ns : heap_cells h ns -> size h = Z.of_nat (length ns).
Proof. intros (E & _). exact E. Qed.

Lemma build_loop_spec fuel h ns :
  heap_cells h ns -> 1 <= size h -> (Z.to_nat (size h) <= S fuel)%nat ->
  Forall (fun t => full t /\ sums t) ns ->
  exists h' t,
    build_loop fuel h = Done h' /\ heap_cells h' [t] /\
    full t /\ sums t /\ leaves t ≡ₚ flat_map leaves ns.
Proof.
  revert h ns.
  assert (Hone : forall h ns, heap_cells h ns -> size h = 1 ->
            Forall (fun t => full t /\ sums t) ns ->
            exists h' t, Done h = Done h' /\ heap_cells h' [t] /\
              full t /\ sums t /\ leaves t ≡ₚ flat_map leaves ns).
  { intros h ns Hh Hs Hok. pose proof (heap_cells_length h ns Hh) as Hl.
    destruct ns as [|t [|? ?]]; simpl in Hl; try lia.
    inversion Hok as [|? ? [Hf Hsum] _]; subst.
    exists h, t. simpl. rewrite app_nil_r. auto. }
  induction fuel as [|fuel IH]; intros h ns Hh Hs Hfuel Hok;
    cbn [build_loop]; unfold checkSizeOne;
    destruct (Z.eqb_spec (size h) 1) as [E1|E1]; try (eapply Hone; eauto; fail);
    [lia|].
  pose proof (heap_cells_size h ns Hh) as Hsz.
  pose proof (heap_cells_length h ns Hh) as Hl.
  destruct (extractMin_cells h ns Hh ltac:(lia)) as (l & h1 & ns1 & El & _ & Hh1 & Hp1 & Hc1).
  pose proof (heap_cells_length h1 ns1 Hh1) as Hl1.
  pose proof (Permutation_length Hp1) as Hpl1. simpl in Hpl1.
  destruct (extractMin_cells h1 ns1 Hh1 ltac:(lia)) as (r & h2 & ns2 & Er & _ & Hh2 & Hp2 & Hc2).
  pose proof (heap_cells_length h2 ns2 Hh2) as Hl2.
  pose proof (Permutation_length Hp2) as Hpl2. simpl in Hpl2.
  set (top := {| item := 36; freq := w_add (freq l) (freq r);
                 left := Some l; right := Some r |}).
  destruct (insertMinHeap_cells h2 ns2 top Hh2 ltac:(lia)) as (h3 & ns3 & Ei & Hh3 & Hp3 & Hc3).
  pose proof (heap_cells_length h3 ns3 Hh3) as Hl3.
  pose proof (Permutation_length Hp3) as Hpl3. simpl in Hpl3.
  rewrite El. cbn [bind fst snd]. rewrite Er. cbn [bind fst snd].
  fold top. rewrite Ei. cbn [bind].
  assert (Hok1 : Forall (fun t => full t /\ sums t) (l :: r :: ns2)).
  { rewrite <- Hp2, <- Hp1. exact Hok. }
  inversion Hok1 as [|? ? [Hfl Hsl] Hok2]; subst.
  inversion Hok2 as [|? ? [Hfr Hsr] Hok3]; subst.
  destruct (IH h3 ns3 Hh3 ltac:(lia) ltac:(lia)) as (h' & t & E & Hh' & Hf & Hsum & Hlv).
  { rewrite Hp3. constructor; [|exact Hok3]. simpl. auto. }
  exists h', t. split; [exact E|]. split; [exact Hh'|]. split; [exact Hf|].
  split; [exact Hsum|]. rewrite Hlv.
  rewrite (Permutation_flat_map leaves Hp3), (Permutation_flat_map leaves Hp1).
  cbn [flat_map]. rewrite (Permutation_flat_map leaves Hp2). cbn [flat_map].
  destruct l as [cl fl [ll|] [rl|]], r as [cr fr [lr|] [rr|]]; simpl;
    rewrite <- ?app_assoc; reflexivity.
Qed.

Lemma flat_map_leaves_newNode (items : list Z) (freqs : list W) :
  flat_map leaves (zip_with newNode items freqs) = zip items freqs.
Proof.
  revert freqs. induction items as [|c items IH]; intros [|f freqs]; simpl; auto.
  rewrite IH. reflexivity.
Qed.

Lemma Forall_newNode (items : list Z) (freqs : list W) :
  Forall (fun t => full t /\ sums t) (zip_with newNode items freqs).
Proof.
  revert freqs. induction items as [|c items IH]; intros [|f freqs]; simpl;
    constructor; simpl; auto.
Qed.

Lemma buildHuffmanTree_spec (items : list Z) (freqs : list W) n :
  1 <= n < 2 ^ 30 -> n <= Z.of_nat (length items) -> n <= Z.of_nat (length freqs) ->
  exists t,
    buildHuffmanTree items freqs n = Done t /\ full t /\ sums t /\
    leaves t ≡ₚ zip (take (Z.to_nat n) items) (take (Z.to_nat n) freqs).
Proof.
  intros Hn Hi Hf. unfold buildHuffmanTree.
  destruct (createAndBuildMinHeap_cells items freqs n ltac:(lia) Hi Hf)
    as (h & ns & E & Hh & Hp & Hc).
  rewrite E. cbn [bind].
  pose proof (heap_cells_length h ns Hh) as Hl.
  assert (Hlen : length ns = Z.to_nat n).
  { rewrite (Permutation_length Hp), length_zip_with, !length_take. lia. }
  destruct (build_loop_spec (S (Z.to_nat (size h))) h ns Hh ltac:(lia) ltac:(lia))
    as (h' & t & E' & Hh' & Hfull & Hsum & Hlv).
  { rewrite Hp. apply Forall_newNode. }
  rewrite E'. cbn [bind].
  pose proof (heap_cells_length h' [t] Hh') as Hl'. simpl in Hl'.
  destruct (extractMin_cells h' [t] Hh' ltac:(lia)) as (x & h2 & ns2 & Ex & _ & _ & Hp2 & _).
  rewrite Ex. cbn [bind fst].
  apply Permutation_length_1_inv in Hp2. inversion Hp2; subst x ns2.
  exists t. split; [reflexivity|]. split; [exact Hfull|]. split; [exact Hsum|].
  rewrite Hlv, (Permutation_flat_map leaves Hp), flat_map_leaves_newNode.
  reflexivity.
Qed.

End Builder.

(** ** The code traversal *)

Lemma insert_back {A : Type} (ns : list A) (c : option A) (rest : list (option A)) x :
  <[length ns := Some x]> ((Some <$> ns) ++ c :: rest) = (Some <$> (ns ++ [x])) ++ rest.
Proof.
  replace (length ns) with (length (Some <$> ns) + 0)%nat at 1
    by (rewrite length_fmap; lia).
  rewrite insert_app_r. cbn [list_insert insert].
  rewrite fmap_app, <- app_assoc. reflexivity.
Qed.

Section Traversal.

Context {W : Type} {weight : Weight W}.
Implicit Types (t : MinHNode W) (arr : list (option Z)) (acc path : list Z).

Lemma printArray_loop_spec arr (vs : list Z) i :
  0 <= i ->
  (forall j, (j < length vs)%nat -> cell arr (i + Z.of_nat j) = vs !! j) ->
  printArray_loop (length vs) arr i = Done (flat_map fprintf_d vs).
Proof.
  revert i. induction vs as [|v vs IH]; intros i Hi Hc; [reflexivity|].
  cbn [length printArray_loop flat_map].
  pose proof (Hc 0%nat ltac:(simpl; lia)) as H0. rewrite Z.add_0_r in H0. simpl in H0.
  rewrite (proj2 (rd_Done _ _ _) H0). cbn [bind].
  rewrite IH; [reflexivity | lia |].
  intros j Hj. specialize (Hc (S j) ltac:(simpl; lia)). simpl in Hc.
  rewrite <- Hc. f_equal. lia.
Qed.

Lemma printArray_spec acc (rest : list (option Z)) pn :
  printArray ((Some <$> acc) ++ rest) (Z.of_nat (length acc)) pn
  = Done (path_text pn acc).
Proof.
  unfold printArray. rewrite Nat2Z.id.
  rewrite (printArray_loop_spec _ acc 0); [reflexivity | lia |].
  intros j Hj. replace (0 + Z.of_nat j) with (Z.of_nat j) by lia.
  rewrite cell_front by lia. rewrite Nat2Z.id. reflexivity.
Qed.

Lemma height_nonneg t : 0 <= height t.
Proof.
  induction t as [c f l r IHl IHr] using tree_ind. cbn [height].
  destruct l as [l0|], r as [r0|];
    try specialize (IHl l0 eq_refl); try specialize (IHr r0 eq_refl); lia.
Qed.

(** The text [printHCodeForCharacter] writes: the paths to the leaves that
    hold the target, each after what [arr] held below [top]. The array is
    long enough when it has a cell for every level of the tree. *)
Lemma printHCodeForCharacter_spec t : forall target pn acc rest,
  Z.of_nat (length acc) + height t <= Z.of_nat (length acc + length rest) ->
  Z.of_nat (length acc + length rest) <= INT_MAX ->
  exists rest',
    printHCodeForCharacter t target ((Some <$> acc) ++ rest) (Z.of_nat (length acc)) pn
    = Done ((Some <$> acc) ++ rest',
            concat (map (fun p => path_text pn (acc ++ p)) (paths_to t target))) /\
    length rest' = length rest.
Proof.
  induction t as [c f l r IHl IHr] using tree_ind; intros target pn acc rest Hh Hmax.
  assert (Hchild : forall (child : MinHNode W) (b : Z) rest0,
            (forall target pn acc rest,
                Z.of_nat (length acc) + height child <= Z.of_nat (length acc + length rest) ->
                Z.of_nat (length acc + length rest) <= INT_MAX ->
                exists rest',
                  printHCodeForCharacter child target ((Some <$> acc) ++ rest)
                    (Z.of_nat (length acc)) pn
                  = Done ((Some <$> acc) ++ rest',
                          concat (map (fun p => path_text pn (acc ++ p))
                                      (paths_to child target))) /\
                  length rest' = length rest) ->
            Z.of_nat (length acc) + (1 + height child) <= Z.of_nat (length acc + length rest) ->
            length rest0 = length rest ->
            exists rest',
              (arr' <- wr ((Some <$> acc) ++ rest0) (Z.of_nat (length acc)) b ;;
               t1 <- int_arith (Z.of_nat (length acc) + 1) ;;
               printHCodeForCharacter child target arr' t1 pn)
              = Done ((Some <$> acc) ++ rest',
                      concat (map (fun p => path_text pn (acc ++ p))
                                  (map (cons b) (paths_to child target)))) /\
              length rest' = length rest).
  { intros child b rest0 IH Hc Hl0. pose proof (height_nonneg child).
    destruct rest0 as [|c0 rest1]; [simpl in Hl0; lia|].
    rewrite wr_in_bounds by (rewrite length_app, length_fmap; simpl; lia). cbn [bind].
    rewrite int_arith_Done by (unfold INT_MIN, INT_MAX in *; lia). cbn [bind].
    rewrite Nat2Z.id, insert_back.
    destruct (IH target pn (acc ++ [b]) rest1) as (rest' & E & Hl');
      [rewrite length_app; simpl in *; lia | rewrite length_app; simpl in *; lia |].
    rewrite length_app in E. cbn [length] in E.
    replace (Z.of_nat (length acc) + 1) with (Z.of_nat (length acc + 1)) by lia.
    rewrite E. exists (Some b :: rest'). split; [|simpl in *; lia].
    f_equal. f_equal.
    - rewrite fmap_app, <- app_assoc. reflexivity.
    - rewrite map_map. f_equal. apply map_ext. intros p.
      rewrite <- app_assoc. reflexivity. }
  cbn [printHCodeForCharacter paths_to].
  assert (Hl : exists rest1,
            match l with
            | Some l0 =>
                arr' <- wr ((Some <$> acc) ++ rest) (Z.of_nat (length acc)) 0 ;;
                t1 <- int_arith (Z.of_nat (length acc) + 1) ;;
                printHCodeForCharacter l0 target arr' t1 pn
            | None => Done ((Some <$> acc) ++ rest, [])
            end
            = Done ((Some <$> acc) ++ rest1,
                    concat (map (fun p => path_text pn (acc ++ p))
                       match l with
                       | Some l' => map (cons 0) (paths_to l' target)
                       | None => []
                       end)) /\ length rest1 = length rest).
  { destruct l as [l0|]; [|exists rest; auto].
    apply Hchild; auto. cbn [height] in Hh. lia. }
  destruct Hl as (rest1 & El & Hl1). rewrite El. cbn [bind fst snd].
  assert (Hr : exists rest2,
            match r with
            | Some r0 =>
                arr' <- wr ((Some <$> acc) ++ rest1) (Z.of_nat (length acc)) 1 ;;
                t1 <- int_arith (Z.of_nat (length acc) + 1) ;;
                printHCodeForCharacter r0 target arr' t1 pn
            | None => Done ((Some <$> acc) ++ rest1, [])
            end
            = Done ((Some <$> acc) ++ rest2,
                    concat (map (fun p => path_text pn (acc ++ p))
                       match r with
                       | Some r' => map (cons 1) (paths_to r' target)
                       | None => []
                       end)) /\ length rest2 = length rest).
  { destruct r as [r0|]; [|exists rest1; auto].
    apply Hchild; auto. cbn [height] in Hh. lia. }
  destruct Hr as (rest2 & Er & Hl2). rewrite Er. cbn [bind fst snd].
  exists rest2. split; [|exact Hl2].
  rewrite !map_app, !concat_app.
  destruct (isLeaf _ && (c =? target)).
  - rewrite printArray_spec. cbn [bind]. simpl. rewrite !app_nil_r. reflexivity.
  - cbn [bind]. simpl. reflexivity.
Qed.

End Traversal.

(** ** Bit paths *)

Section Paths.

Context {W : Type} {weight : Weight W}.
Implicit Types (t : MinHNode W) (path : list Z).

Lemma leaves_node c f (l r : option (MinHNode W)) :
  isLeaf (mkNode c f l r) = false ->
  leaves (mkNode c f l r) =
    match l with Some l' => leaves l' | None => [] end ++
    match r with Some r' => leaves r' | None => [] end.
Proof. destruct l, r; intros E; try reflexivity; discriminate. Qed.

Lemma walk_leaf t path lf :
  isLeaf t = true -> walk t path = Some lf -> path = [] /\ lf = t.
Proof.
  destruct t as [c f [l|] [r|]]; simpl; try discriminate. intros _.
  destruct path as [|b path]; simpl; [intros E; inversion E; auto|].
  destruct (b =? 0); [discriminate|]. destruct (b =? 1); discriminate.
Qed.

(** Every path listed by [paths_to] leads to a leaf that holds the target. *)
Lemma paths_to_path_of t : forall c path,
  In path (paths_to t c) -> path_of t c path.
Proof.
  induction t as [c0 f l r IHl IHr] using tree_ind. intros c path.
  cbn [paths_to]. rewrite !in_app_iff. intros [Hin|[Hin|Hin]].
  - destruct l as [l0|]; [|destruct Hin].
    apply in_map_iff in Hin as (p & <- & Hp).
    destruct (IHl l0 eq_refl c p Hp) as (lf & Hw & Hlf).
    exists lf. split; [exact Hw | exact Hlf].
  - destruct r as [r0|]; [|destruct Hin].
    apply in_map_iff in Hin as (p & <- & Hp).
    destruct (IHr r0 eq_refl c p Hp) as (lf & Hw & Hlf).
    exists lf. split; [exact Hw | exact Hlf].
  - destruct (isLeaf _) eqn:Elf; [|destruct Hin].
    destruct (Z.eqb_spec c0 c) as [->|]; [|destruct Hin].
    destruct Hin as [<-|[]]. exists (mkNode c f l r). auto.
Qed.

(** A symbol that no leaf holds has no path. *)
Lemma paths_to_absent t : forall c,
  ~ In c (map fst (leaves t)) -> paths_to t c = [].
Proof.
  induction t as [c0 f l r IHl IHr] using tree_ind. intros c Hc.
  cbn [paths_to]. destruct (isLeaf (mkNode c0 f l r)) eqn:Elf.
  - destruct l, r; simpl in Elf; try discriminate. simpl in *.
    destruct (Z.eqb_spec c0 c); [tauto | reflexivity].
  - rewrite leaves_node, map_app, in_app_iff in Hc by exact Elf.
    destruct l as [l0|], r as [r0|]; simpl;
      rewrite ?(IHl _ eq_refl c), ?(IHr _ eq_refl c) by tauto; reflexivity.
Qed.

(** A symbol that exactly one leaf holds has exactly one path. *)
Lemma paths_to_unique t : forall c,
  NoDup (map fst (leaves t)) -> In c (map fst (leaves t)) ->
  exists path, paths_to t c = [path].
Proof.
  induction t as [c0 f l r IHl IHr] using tree_ind. intros c Hnd Hin.
  cbn [paths_to]. destruct (isLeaf (mkNode c0 f l r)) eqn:Elf.
  - destruct l, r; simpl in Elf; try discriminate. simpl in *.
    destruct Hin as [->|[]]. rewrite Z.eqb_refl. eauto.
  - rewrite leaves_node, map_app in Hnd, Hin by exact Elf.
    apply NoDup_app in Hnd as (Hndl & Hdisj & Hndr).
    apply in_app_iff in Hin. simpl. rewrite app_nil_r.
    destruct Hin as [Hin|Hin].
    + destruct l as [l0|]; [|destruct Hin].
      destruct (IHl l0 eq_refl c Hndl Hin) as (p & ->).
      assert (Hr : match r with
                   | Some r' => map (cons 1) (paths_to r' c)
                   | None => []
                   end = []).
      { destruct r as [r0|]; [|reflexivity]. rewrite paths_to_absent; [reflexivity|].
        intros Hr. apply (Hdisj c); apply list_elem_of_In; assumption. }
      rewrite Hr. simpl. eauto.
    + destruct r as [r0|]; [|destruct Hin].
      destruct (IHr r0 eq_refl c Hndr Hin) as (p & ->).
      assert (Hl : match l with
                   | Some l' => map (cons 0) (paths_to l' c)
                   | None => []
                   end = []).
      { destruct l as [l0|]; [|reflexivity]. rewrite paths_to_absent; [reflexivity|].
        intros Hl. apply (Hdisj c); apply list_elem_of_In; assumption. }
      rewrite Hl. simpl. eauto.
Qed.

(** A tree whose nodes have two children or none is no deeper than its
    number of leaves allows. *)
Lemma height_leaves t : full t -> height t + 1 <= Z.of_nat (length (leaves t)).
Proof.
  induction t as [c f l r IHl IHr] using tree_ind. intros Hf.
  destruct l as [l0|], r as [r0|]; simpl in Hf; try contradiction.
  - destruct Hf as [Hfl Hfr].
    specialize (IHl l0 eq_refl Hfl). specialize (IHr r0 eq_refl Hfr).
    pose proof (height_nonneg l0). pose proof (height_nonneg r0).
    rewrite leaves_node by reflexivity. cbn [height]. rewrite length_app. lia.
  - simpl. lia.
Qed.

Lemma fprintf_d_bit b : b = 0 \/ b = 1 -> fprintf_d b = [48 + b].
Proof. intros [->| ->]; reflexivity. Qed.

(** Decoding the text of a path that leads from a node with children to a
    leaf writes the leaf's symbol and returns to the root. *)
Lemma decode_path (root : MinHNode W) path : forall (cur lf : MinHNode W) rest,
  walk cur path = Some lf -> isLeaf lf = true -> isLeaf cur = false ->
  decode_loop root cur (flat_map fprintf_d path ++ rest)
  = to_uchar (item lf) :: decode_loop root root rest.
Proof.
  induction path as [|b path IH]; intros cur lf rest Hw Hlf Hcur.
  - simpl in Hw. inversion Hw; subst. congruence.
  - cbn [walk] in Hw.
    assert (Hstep : exists child,
              walk child path = Some lf /\ fprintf_d b = [48 + b] /\
              decode_move cur (48 + b) = child).
    { unfold decode_move. destruct (Z.eqb_spec b 0) as [->|Hb0].
      - destruct (left cur) as [child|] eqn:El; [|discriminate].
        exists child. split; [exact Hw|]. split; [reflexivity|].
        change (48 + 0 =? 48) with true. cbv iota. reflexivity.
      - destruct (Z.eqb_spec b 1) as [->|Hb1]; [|discriminate].
        destruct (right cur) as [child|] eqn:Er; [|discriminate].
        exists child. split; [exact Hw|]. split; [reflexivity|].
        change (48 + 1 =? 48) with false. change (48 + 1 =? 49) with true.
        cbv iota. reflexivity. }
    destruct Hstep as (child & Hwc & Hd & Hm).
    cbn [flat_map]. rewrite Hd. cbn [app decode_loop]. unfold decode_step.
    rewrite Hm. destruct (isLeaf child) eqn:Ec.
    + destruct (walk_leaf child path lf Ec Hwc) as [-> ->]. reflexivity.
    + cbn [fst snd app]. apply IH; assumption.
Qed.

End Paths.

(** ** The stream codec over the ASCII alphabet *)

Lemma ascii_characters_eq : ascii_characters = map Z.of_nat (seq 0 128).
Proof. reflexivity. Qed.

Lemma ascii_characters_NoDup : NoDup ascii_characters.
Proof.
  rewrite ascii_characters_eq. change (NoDup (Z.of_nat <$> seq 0 128)).
  apply NoDup_fmap_2; [intros x y; apply Nat2Z.inj | apply NoDup_seq].
Qed.

Lemma ascii_characters_In c : 0 <= c < 128 <-> In c ascii_characters.
Proof.
  rewrite ascii_characters_eq, in_map_iff. split.
  - intros Hc. exists (Z.to_nat c). split; [lia|]. apply in_seq. lia.
  - intros (n & <- & Hn). apply in_seq in Hn. lia.
Qed.

Section Codec.

Context {W : Type} {weight : Weight W}.
Implicit Types (t : MinHNode W) (P : list W) (B : list Z).

Lemma readProbabilities_loop_Done n P :
  (n <= length P)%nat -> readProbabilities_loop n P = Done (take n P).
Proof.
  revert P. induction n as [|n IH]; intros [|p P] Hn; simpl in *; try lia; auto.
  rewrite IH by lia. reflexivity.
Qed.

Lemma readProbabilities_loop_Exited n P :
  (length P < n)%nat -> readProbabilities_loop n P = Exited EXIT_FAILURE.
Proof.
  revert P. induction n as [|n IH]; intros [|p P] Hn; simpl in *; try lia; auto.
  rewrite IH by lia. reflexivity.
Qed.

(** The tree over the 128 ASCII characters. *)
Lemma ascii_tree P :
  (128 <= length P)%nat ->
  exists t,
    buildHuffmanTree ascii_characters P ASCII_SIZE = Done t /\
    full t /\ sums t /\ leaves t ≡ₚ zip ascii_characters (take 128 P) /\
    map fst (leaves t) ≡ₚ ascii_characters /\
    isLeaf t = false /\ height t <= 127.
Proof.
  intros HP.
  destruct (buildHuffmanTree_spec ascii_characters P ASCII_SIZE)
    as (t & E & Hf & Hs & Hl);
    [unfold ASCII_SIZE; lia | rewrite ascii_characters_eq, length_map, length_seq;
     unfold ASCII_SIZE; lia | unfold ASCII_SIZE; lia |].
  change (Z.to_nat ASCII_SIZE) with 128%nat in Hl.
  change (take 128 ascii_characters) with ascii_characters in Hl.
  assert (Hitems : map fst (leaves t) ≡ₚ ascii_characters).
  { rewrite Hl. change (fst <$> zip ascii_characters (take 128 P) ≡ₚ ascii_characters).
    rewrite fst_zip; [reflexivity|].
    rewrite length_take. rewrite ascii_characters_eq, length_map, length_seq. lia. }
  pose proof (Permutation_length Hitems) as Hlen.
  rewrite length_map in Hlen. change (length ascii_characters) with 128%nat in Hlen.
  exists t. repeat split; auto.
  - destruct t as [c f [l|] [r|]]; try reflexivity. simpl in Hlen. discriminate.
  - pose proof (height_leaves t Hf). lia.
Qed.

Lemma encode_loop_spec t B :
  height t <= 128 ->
  encode_loop t B
  = Done (flat_map (fun ch => concat (map (path_text 0) (paths_to t (to_char ch)))) B).
Proof.
  intros Hh. induction B as [|ch B IH]; [reflexivity|].
  cbn [encode_loop flat_map].
  destruct (printHCodeForCharacter_spec t (to_char ch) 0 [] fresh_arr) as (rest' & E & _);
    [simpl; lia | unfold INT_MAX; simpl; lia |].
  change ((Some <$> []) ++ fresh_arr) with fresh_arr in E.
  change (Z.of_nat (length (@nil Z))) with 0 in E.
  rewrite E, IH. cbn [bind snd]. reflexivity.
Qed.

(** Decoding what [encode_loop] writes for bytes whose character is held
    by exactly one leaf. *)
Lemma decode_encoded t B :
  isLeaf t = false -> NoDup (map fst (leaves t)) ->
  (forall ch, In ch B -> In (to_char ch) (map fst (leaves t))) ->
  decode_loop t t
    (flat_map (fun ch => concat (map (path_text 0) (paths_to t (to_char ch)))) B)
  = map (fun ch => to_uchar (to_char ch)) B.
Proof.
  intros Hroot Hnd HB. induction B as [|ch B IH]; [reflexivity|].
  cbn [flat_map map].
  destruct (paths_to_unique t (to_char ch) Hnd (HB ch (or_introl eq_refl))) as (p & Hp).
  destruct (paths_to_path_of t (to_char ch) p) as (lf & Hw & Hlf & Hitem);
    [rewrite Hp; left; reflexivity|].
  rewrite Hp. cbn [map concat]. rewrite app_nil_r.
  unfold path_text at 1. change (0 =? 0) with true. cbv iota. rewrite app_nil_r.
  rewrite (decode_path t p t lf _ Hw Hlf Hroot), Hitem.
  rewrite IH; [reflexivity|]. intros c Hc. apply HB. right. exact Hc.
Qed.

Lemma to_uchar_to_char ch : 0 <= ch < 256 -> to_uchar (to_char ch) = ch.
Proof.
  intros Hc. unfold to_uchar, to_char. rewrite (Z.mod_small ch) by lia.
  destruct (Z.ltb_spec ch 128).
  - apply Z.mod_small. lia.
  - replace (ch - 256) with (ch + (-1) * 256) by lia.
    rewrite Z.mod_add by lia. apply Z.mod_small. lia.
Qed.

End Codec.

(** ** The heap operations keep the heap in order *)

Section HeapOrder.

Context {W : Type} {weight : Weight W} (w_le : W -> W -> bool) (ok : W -> Prop)
        {order : WeightOrder weight w_le ok}.
Implicit Types (h : MinHeap W) (a : list (option (MinHNode W))).

Lemma le_refl_ok x : ok x -> w_le x x = true.
Proof. intros. destruct (w_lt x x) eqn:E; [apply lt_le | apply nlt_le]; auto. Qed.

Lemma swapMinHNode_inv a i j a' :
  swapMinHNode a i j = Done a' ->
  exists x y, cell a i = Some x /\ cell a j = Some y /\
              a' = <[Z.to_nat j := Some x]> (<[Z.to_nat i := Some y]> a).
Proof.
  unfold swapMinHNode. intros H.
  apply bind_Done in H as (x & Hx & H). apply bind_Done in H as (y & Hy & H).
  apply bind_Done in H as (a1 & Ha1 & H). apply rd_Done in Hx, Hy.
  apply wr_Done in Ha1 as [_ ->]. apply wr_Done in H as [_ ->]. eauto.
Qed.

Lemma cell_swap a i j x y c :
  cell a i = Some x -> cell a j = Some y ->
  cell (<[Z.to_nat j := Some x]> (<[Z.to_nat i := Some y]> a)) c
  = if c =? j then Some x else if c =? i then Some y else cell a c.
Proof.
  intros Hi Hj.
  rewrite cell_insert by (rewrite length_insert; eapply cell_bounds; eauto).
  destruct (c =? j); auto. apply cell_insert. eapply cell_bounds; eauto.
Qed.

(** One of the two comparisons of [minHeapify]: the position kept. *)
Lemma pick_step a s c cur res :
  (if c <? s then
     x <- rd a c ;; y <- rd a cur ;;
     Done (if w_lt (freq x) (freq y) then c else cur)
   else Done cur) = Done res ->
  (res = cur /\
   (c < s -> exists x y, cell a c = Some x /\ cell a cur = Some y /\
                         w_lt (freq x) (freq y) = false)) \/
  (res = c /\ c < s /\
   exists x y, cell a c = Some x /\ cell a cur = Some y /\
               w_lt (freq x) (freq y) = true).
Proof.
  destruct (Z.ltb_spec c s) as [Hc|Hc]; intros H.
  - apply bind_Done in H as (x & Hx & H). apply bind_Done in H as (y & Hy & H).
    apply rd_Done in Hx, Hy. destruct (w_lt (freq x) (freq y)) eqn:E;
      inversion H; subst; [right|left]; eauto 10.
  - inversion H; subst. left. split; [reflexivity|lia].
Qed.

Ltac same_cells :=
  repeat match goal with
         | H1 : cell ?a ?p = Some ?u, H2 : cell ?a ?p = Some ?v |- _ =>
             assert (v = u) by congruence; subst v; clear H2
         end.

Ltac ok_cells Hok :=
  repeat match goal with
         | H : cell _ ?p = Some ?u |- _ =>
             lazymatch goal with
             | _ : ok (freq u) |- _ => fail
             | _ => assert (ok (freq u)) by (apply (Hok p u); [lia | exact H])
             end
         end.

(** The position [minHeapify] keeps holds a node that weighs no more than
    the node at [idx] and its children. *)
Lemma pick_min a s idx sm1 sm :
  0 <= idx -> cells_ok ok a s ->
  (sm1 = idx /\
   (2 * idx + 1 < s -> exists x y, cell a (2 * idx + 1) = Some x /\ cell a idx = Some y /\
                                    w_lt (freq x) (freq y) = false)) \/
  (sm1 = 2 * idx + 1 /\ 2 * idx + 1 < s /\
   exists x y, cell a (2 * idx + 1) = Some x /\ cell a idx = Some y /\
               w_lt (freq x) (freq y) = true) ->
  (sm = sm1 /\
   (2 * idx + 2 < s -> exists x y, cell a (2 * idx + 2) = Some x /\ cell a sm1 = Some y /\
                                    w_lt (freq x) (freq y) = false)) \/
  (sm = 2 * idx + 2 /\ 2 * idx + 2 < s /\
   exists x y, cell a (2 * idx + 2) = Some x /\ cell a sm1 = Some y /\
               w_lt (freq x) (freq y) = true) ->
  (sm = idx \/ idx < sm < s /\ (sm = 2 * idx + 1 \/ sm = 2 * idx + 2)) /\
  forall c, c = 2 * idx + 1 \/ c = 2 * idx + 2 \/ c = idx -> c <> sm -> c < s ->
            le_at w_le a sm c.
Proof.
  intros Hidx Hok H1 H2.
  destruct H1 as [[-> H1]|(-> & Hl & xl & xi & Hxl & Hxi & E1)];
    destruct H2 as [[-> H2]|(-> & Hr & xr & xs & Hxr & Hxs & E2)];
    (split; [lia|]); intros c Hc Hne Hcs x y Hx Hy;
    destruct Hc as [->|[->| ->]]; try lia;
    try (destruct H1 as (xl & xi & Hxl & Hxi & E1); [lia|]);
    try (destruct H2 as (xr & xs & Hxr & Hxs & E2); [lia|]);
    same_cells; ok_cells Hok;
    eauto 4 using lt_le, nlt_le, le_trans.
Qed.

Lemma minHeapify_rec_order fuel : forall h idx h' k,
  minHeapify_rec fuel h idx = Done h' ->
  0 <= k <= idx -> cells_ok ok (array h) (size h) ->
  sift_down_pre w_le (array h) (size h) idx k ->
  heap_from w_le (array h') (size h') k /\ size h' = size h.
Proof.
  induction fuel as [|fuel IH]; intros h idx h' k H Hk Hok [Hpre Hbr]; [discriminate|].
  cbn [minHeapify_rec] in H.
  apply bind_Done in H as (l & Hl & H). apply int_arith_inv in Hl as [-> Hlr].
  apply bind_Done in H as (r & Hr & H). apply int_arith_inv in Hr as [-> Hrr].
  apply bind_Done in H as (sm1 & H1 & H). apply bind_Done in H as (sm & H2 & H).
  unfold INT_MIN, INT_MAX in Hlr, Hrr.
  rewrite to_unsigned_small in H1 by lia. rewrite to_unsigned_small in H2 by lia.
  apply pick_step in H1, H2.
  destruct (pick_min (array h) (size h) idx sm1 sm ltac:(lia) Hok H1 H2) as [Hsm Hmin].
  destruct (Z.eqb_spec sm idx) as [->|Hne].
  - inversion H; subst h'. split; [|reflexivity]. intros j Hj.
    destruct (Z.eq_dec j idx) as [->|Hj'].
    + split; intros Hc; apply Hmin; auto; lia.
    + apply Hpre; auto.
  - apply bind_Done in H as (a' & Hsw & H).
    apply swapMinHNode_inv in Hsw as (x & y & Hx & Hy & ->).
    destruct Hsm as [?|[Hrange Hwhich]]; [lia|].
    apply IH with (k := k) in H; cbn [size array] in *; [exact H | lia | |].
    + intros i z Hi Hz. rewrite (cell_swap _ _ _ _ _ _ Hx Hy) in Hz.
      destruct (Z.eqb_spec i idx); [inversion Hz; subst; apply (Hok sm); auto; lia|].
      destruct (Z.eqb_spec i sm); [inversion Hz; subst; apply (Hok idx); auto; lia|].
      apply (Hok i); auto.
    + split.
      * intros j Hj Hjne.
        assert (Hch : forall c, c = 2 * j + 1 \/ c = 2 * j + 2 -> c < size h ->
                  le_at w_le (<[Z.to_nat idx := Some x]> (<[Z.to_nat sm := Some y]> (array h)))
                        j c).
        { intros c Hc Hcs x' y' Hx' Hy'.
          rewrite (cell_swap _ _ _ _ _ _ Hx Hy) in Hx'.
          rewrite (cell_swap _ _ _ _ _ _ Hx Hy) in Hy'.
          destruct (Z.eqb_spec j idx) as [->|Hji].
          - inversion Hx'; subst x'.
            destruct (Z.eqb_spec c idx); [lia|].
            destruct (Z.eqb_spec c sm) as [->|Hcsm].
            + inversion Hy'; subst y'. apply (Hmin idx); auto; lia.
            + apply (Hmin c); auto; lia.
          - destruct (Z.eqb_spec j sm); [lia|].
            destruct (Z.eqb_spec c idx) as [->|Hci].
            + inversion Hy'; subst y'.
              apply (Hbr j sm); auto; lia.
            + destruct (Z.eqb_spec c sm); [lia|].
              destruct (Hpre j Hj Hji) as [Ho1 Ho2].
              destruct Hc as [->| ->]; [apply Ho1 | apply Ho2]; auto. }
        split; intros Hc; apply Hch; auto.
      * intros p c Hp Hpc Hc Hcs x' y' Hx' Hy'.
        rewrite (cell_swap _ _ _ _ _ _ Hx Hy) in Hx'.
          rewrite (cell_swap _ _ _ _ _ _ Hx Hy) in Hy'.
        assert (p = idx) by lia. subst p. rewrite Z.eqb_refl in Hx'.
        inversion Hx'; subst x'.
        destruct (Z.eqb_spec c idx); [lia|]. destruct (Z.eqb_spec c sm); [lia|].
        destruct (Hpre sm ltac:(lia) Hne) as [Ho1 Ho2].
        destruct Hc as [->| ->]; [apply Ho1 | apply Ho2]; auto.
Qed.

Lemma parent_child i :
  0 < i -> 0 <= Z.quot (i - 1) 2 < i /\
           (i = 2 * Z.quot (i - 1) 2 + 1 \/ i = 2 * Z.quot (i - 1) 2 + 2).
Proof.
  intros Hi. pose proof (Z.quot_rem' (i - 1) 2) as Hq.
  pose proof (Z.rem_bound_pos (i - 1) 2 ltac:(lia) ltac:(lia)). lia.
Qed.

Lemma insert_loop_order fuel : forall a node i a' i' s,
  insert_loop fuel a node i = Done (a', i') ->
  0 <= i < s -> i < Z.of_nat (length a) -> ok (freq node) ->
  cells_ok ok (<[Z.to_nat i := Some node]> a) s ->
  sift_up_pre w_le (<[Z.to_nat i := Some node]> a) s i ->
  heap_from w_le (<[Z.to_nat i' := Some node]> a') s 0.
Proof.
  induction fuel as [|fuel IH]; intros a node i a' i' s H Hi Hlen Hnode Hokb [Hpre Hbr];
    [discriminate|].
  cbn [insert_loop] in H. destruct (Z.eqb_spec i 0) as [->|Hne].
  { inversion H; subst a' i'. intros j Hj. split; intros Hc; apply (Hpre j); auto; lia. }
  apply bind_Done in H as (p & Hp & H). apply rd_Done in Hp.
  destruct (parent_child i ltac:(lia)) as [Hpar Hwhich].
  set (par := Z.quot (i - 1) 2) in *.
  set (b := <[Z.to_nat i := Some node]> a) in *.
  assert (Hbi : cell b i = Some node).
  { unfold b. rewrite cell_insert by lia. rewrite Z.eqb_refl. reflexivity. }
  assert (Hbp : cell b par = Some p).
  { unfold b. rewrite cell_insert by lia. destruct (Z.eqb_spec par i); [lia|exact Hp]. }
  assert (Hokp : ok (freq p)) by (apply (Hokb par); auto; lia).
  destruct (w_lt (freq node) (freq p)) eqn:E.
  - apply bind_Done in H as (a1 & Ha1 & H). apply wr_Done in Ha1 as [_ ->].
    set (b1 := <[Z.to_nat par := Some node]> (<[Z.to_nat i := Some p]> a)).
    assert (Hb1 : forall c, cell b1 c =
              if c =? par then Some node else if c =? i then Some p else cell b c).
    { intros c. unfold b1, b. rewrite cell_insert by (rewrite length_insert; lia).
      destruct (c =? par); [reflexivity|]. rewrite !cell_insert by lia.
      destruct (c =? i); reflexivity. }
    apply IH with (s := s) in H; [exact H | lia | rewrite length_insert; lia | exact Hnode | |];
      fold b1.
    + intros c z Hc Hz. rewrite Hb1 in Hz.
      destruct (Z.eqb_spec c par); [inversion Hz; subst; exact Hnode|].
      destruct (Z.eqb_spec c i); [inversion Hz; subst; exact Hokp|].
      apply (Hokb c); auto.
    + split.
      * intros p' c Hp' Hc Hcs Hcne x y Hx Hy. rewrite Hb1 in Hx. rewrite Hb1 in Hy.
        destruct (Z.eqb_spec c par); [lia|].
        destruct (Z.eqb_spec c i) as [->|Hci].
        { inversion Hy; subst y. destruct (Z.eqb_spec p' par); [|lia].
          inversion Hx; subst x. apply lt_le; auto. }
        assert (Hoky : ok (freq y)) by (apply (Hokb c); auto; lia).
        destruct (Z.eqb_spec p' par) as [->|Hpp].
        { inversion Hx; subst x. apply le_trans with (freq p); auto.
          - apply lt_le; auto.
          - apply (Hpre par c); auto; lia. }
        destruct (Z.eqb_spec p' i) as [->|Hpi].
        { inversion Hx; subst x. apply (Hbr par c); auto; lia. }
        apply (Hpre p' c); auto.
      * intros g c Hg Hgp Hc Hcs x y Hx Hy. rewrite Hb1 in Hx. rewrite Hb1 in Hy.
        destruct (Z.eqb_spec g par); [lia|]. destruct (Z.eqb_spec g i); [lia|].
        destruct (Z.eqb_spec c par); [lia|].
        assert (Hxp : w_le (freq x) (freq p) = true) by (apply (Hpre g par); auto; lia).
        destruct (Z.eqb_spec c i) as [->|Hci]; [inversion Hy; subst y; exact Hxp|].
        apply le_trans with (freq p); auto.
        -- apply (Hokb g); auto; lia.
        -- apply (Hokb c); auto; lia.
        -- apply (Hpre par c); auto; lia.
  - inversion H; subst a' i'. fold b. intros j Hj.
    assert (Hch : forall c, c = 2 * j + 1 \/ c = 2 * j + 2 -> c < s -> le_at w_le b j c).
    { intros c Hc Hcs. destruct (Z.eq_dec c i) as [->|Hci]; [|apply (Hpre j c); auto].
      intros x y Hx Hy. assert (j = par) by lia. subst j.
      assert (x = p) by congruence. assert (y = node) by congruence. subst x y.
      apply nlt_le; auto. }
    split; intros Hc; apply Hch; auto.
Qed.

Lemma cells_ok_of_nodes h ns :
  heap_cells h ns -> Forall (fun t => ok (freq t)) ns ->
  cells_ok ok (array h) (size h).
Proof.
  intros Hh Hok i x Hi Hx.
  destruct (heap_cells_cell h ns i Hh Hi) as (x' & Hx' & Hl).
  assert (x' = x) by congruence. subst x'.
  rewrite Forall_lookup in Hok. apply (Hok _ _ Hl).
Qed.

Lemma rd_cases {A : Type} (a : list (option A)) i :
  (exists x, rd a i = Done x) \/ (exists f, rd a i = Undefined f).
Proof.
  unfold rd. destruct ((0 <=? i) && (i <? Z.of_nat (length a))); [|eauto].
  destruct (a !! Z.to_nat i) as [[x|]|]; eauto.
Qed.

(** No emptiness check: on an empty heap [extractMin] runs into undefined
    behaviour, the read of [array[size - 1]] at the latest. *)
Lemma extractMin_empty h ns :
  heap_cells h ns -> size h = 0 -> exists f, extractMin h = Undefined f.
Proof.
  intros Hh Hs. pose proof (heap_cells_size h ns Hh) as Hsz.
  destruct Hh as (_ & Hc & _). unfold extractMin. rewrite Hs.
  destruct (rd_cases (array h) 0) as [[x ->]|[f ->]]; [|eauto]. cbn [bind].
  change (to_unsigned (0 - 1)) with 4294967295. unfold rd at 1.
  destruct (Z.ltb_spec 4294967295 (Z.of_nat (length (array h)))); [lia|].
  simpl. eauto.
Qed.

(** No capacity check: on a full heap [insertMinHeap] writes past the end
    of the array. *)
Lemma insertMinHeap_full h ns node :
  heap_cells h ns -> size h = capacity h ->
  exists f, insertMinHeap h node = Undefined f.
Proof.
  intros Hh Hs. pose proof (heap_cells_size h ns Hh) as Hsz.
  pose proof Hh as (_ & Hc & _).
  assert (Hwr : forall x, wr (array h) (size h) x = Undefined (OutOfBounds (size h))).
  { intros x. unfold wr. destruct (Z.ltb_spec (size h) (Z.of_nat (length (array h))));
      [lia|]. rewrite andb_false_r. reflexivity. }
  unfold insertMinHeap. rewrite to_unsigned_small by lia.
  replace (size h + 1 - 1) with (size h) by lia. rewrite to_int_small by lia.
  cbn [insert_loop]. destruct (Z.eqb_spec (size h) 0) as [E|E].
  - cbn [bind fst snd]. rewrite E in *. rewrite Hwr. simpl. eauto.
  - destruct (rd_cases (array h) (Z.quot (size h - 1) 2)) as [[p ->]|[f ->]];
      cbn [bind]; [|eauto].
    destruct (w_lt (freq node) (freq p)); rewrite ?Hwr; cbn [bind fst snd];
      rewrite ?Hwr; simpl; eauto.
Qed.

Lemma extractMin_order h ns r :
  heap_cells h ns -> Forall (fun t => ok (freq t)) ns -> 1 <= size h ->
  heap_ordered w_le h -> extractMin h = Done r -> heap_ordered w_le (snd r).
Proof.
  intros Hh Hok Hs Hord H. pose proof (heap_cells_size h ns Hh) as Hsz.
  pose proof (cells_ok_of_nodes h ns Hh Hok) as Hcok.
  unfold extractMin in H. rewrite to_unsigned_small in H by lia.
  apply bind_Done in H as (temp & Ht & H). apply bind_Done in H as (lst & Hl & H).
  apply bind_Done in H as (a1 & Ha1 & H). apply bind_Done in H as (h' & Hm & H).
  inversion H; subst r. cbn [snd]. apply rd_Done in Hl.
  apply wr_Done in Ha1 as [Hb ->].
  apply minHeapify_rec_order with (k := 0) in Hm; cbn [size array] in *; [| lia | |].
  - destruct Hm as [Hm Hsize]. exact Hm.
  - intros i x Hi Hx. rewrite cell_insert in Hx by lia.
    destruct (Z.eqb_spec i 0).
    + inversion Hx; subst x. apply (Hcok (size h - 1)); auto; lia.
    + apply (Hcok i); auto; lia.
  - split.
    + intros j Hj Hj0.
      assert (Hch : forall c, c = 2 * j + 1 \/ c = 2 * j + 2 -> c < size h - 1 ->
                le_at w_le (<[Z.to_nat 0 := Some lst]> (array h)) j c).
      { intros c Hc Hcs x y Hx Hy. rewrite cell_insert in Hx by lia.
        rewrite cell_insert in Hy by lia.
        destruct (Z.eqb_spec j 0); [lia|]. destruct (Z.eqb_spec c 0); [lia|].
        destruct (Hord j ltac:(lia)) as [Ho1 Ho2].
        destruct Hc as [->| ->]; [apply Ho1 | apply Ho2]; auto; lia. }
      split; intros Hc; apply Hch; auto.
    + intros p c Hp Hpc. lia.
Qed.

Lemma insertMinHeap_order h ns node h' :
  heap_cells h ns -> Forall (fun t => ok (freq t)) ns -> ok (freq node) ->
  size h < capacity h -> heap_ordered w_le h ->
  insertMinHeap h node = Done h' -> heap_ordered w_le h'.
Proof.
  intros Hh Hok Hnode Hs Hord H. pose proof (heap_cells_size h ns Hh) as Hsz.
  pose proof (cells_ok_of_nodes h ns Hh Hok) as Hcok.
  pose proof Hh as (_ & Hc & _).
  unfold insertMinHeap in H. rewrite to_unsigned_small in H by lia.
  replace (size h + 1 - 1) with (size h) in H by lia. rewrite to_int_small in H by lia.
  apply bind_Done in H as ([a' i'] & Hloop & H). cbn [fst snd] in H.
  apply bind_Done in H as (a'' & Hw & H). apply wr_Done in Hw as [_ ->].
  inversion H; subst h'. unfold heap_ordered; cbn [size array].
  apply (insert_loop_order _ _ _ _ _ _ (size h + 1) Hloop); [lia | lia | exact Hnode | |].
  - intros i x Hi Hx. rewrite cell_insert in Hx by lia.
    destruct (Z.eqb_spec i (size h)); [inversion Hx; subst; exact Hnode|].
    apply (Hcok i); auto; lia.
  - split.
    + intros p c Hp Hpc Hcs Hcne x y Hx Hy. rewrite cell_insert in Hx by lia.
      rewrite cell_insert in Hy by lia.
      destruct (Z.eqb_spec p (size h)); [lia|]. destruct (Z.eqb_spec c (size h)); [lia|].
      destruct (Hord p Hp) as [Ho1 Ho2].
      destruct Hpc as [->| ->]; [apply Ho1 | apply Ho2]; auto; lia.
    + intros p c Hp Hpc Hcc Hcs. lia.
Qed.

Lemma buildMinHeap_loop_order fuel : forall h i ns h',
  heap_cells h ns -> Forall (fun t => ok (freq t)) ns ->
  -1 <= i <= size h -> 2 * i + 2 <= INT_MAX ->
  buildMinHeap_loop fuel h i = Done h' ->
  heap_from w_le (array h) (size h) (i + 1) -> heap_ordered w_le h'.
Proof.
  induction fuel as [|fuel IH]; intros h i ns h' Hh Hok Hi Hmax H Hfrom;
    cbn [buildMinHeap_loop] in H; destruct (Z.leb_spec 0 i) as [Hpos|Hneg];
    try discriminate;
    try (inversion H; subst h'; assert (i = -1) by lia; subst i; exact Hfrom).
  apply bind_Done in H as (h1 & Hm & H).
  destruct (minHeapify_cells h i ns Hh ltac:(lia) Hmax) as (h1' & ns1 & E & Hh1 & Hp1 & Hc1).
  assert (h1' = h1) by congruence. subst h1'.
  apply minHeapify_rec_order with (k := i) in Hm;
    [| lia | apply (cells_ok_of_nodes h ns Hh Hok) |].
  - destruct Hm as [Hm Hsize].
    apply (IH h1 (i - 1) ns1 h' Hh1); [rewrite Hp1; exact Hok | lia | lia | exact H |].
    replace (i - 1 + 1) with i by lia. exact Hm.
  - split.
    + intros j Hj Hne. apply Hfrom. lia.
    + intros p c Hp Hpc. lia.
Qed.

Lemma buildMinHeap_order h ns h' :
  heap_cells h ns -> Forall (fun t => ok (freq t)) ns ->
  buildMinHeap h = Done h' -> heap_ordered w_le h'.
Proof.
  intros Hh Hok H. pose proof (heap_cells_size h ns Hh) as Hsz. unfold buildMinHeap in H.
  assert (Hn : to_int (size h - 1) = size h - 1).
  { destruct (Z.eq_dec (size h) 0) as [->|]; [reflexivity|]. apply to_int_small. lia. }
  rewrite Hn in H. apply bind_Done in H as (m & Hm & H).
  apply int_arith_inv in Hm as [-> _].
  assert (Hq : -1 <= Z.quot (size h - 1 - 1) 2 <= size h /\
               2 * Z.quot (size h - 1 - 1) 2 + 2 <= INT_MAX /\
               size h <= 2 * Z.quot (size h - 1 - 1) 2 + 3).
  { unfold INT_MAX.
    destruct (Z.eq_dec (size h) 0) as [E|];
      [rewrite E; change (Z.quot (0 - 1 - 1) 2) with (-1); lia|].
    destruct (Z.eq_dec (size h) 1) as [E|];
      [rewrite E; change (Z.quot (1 - 1 - 1) 2) with 0; lia|].
    pose proof (parent_child (size h - 1) ltac:(lia)). lia. }
  apply (buildMinHeap_loop_order _ _ _ ns _ Hh Hok) in H; [exact H | lia | lia |].
  intros j Hj. split; intros Hc; lia.
Qed.

Lemma createAndBuildMinHeap_unfold (items : list Z) (freqs : list W) n :
  0 <= n < 2 ^ 30 -> n <= Z.of_nat (length items) -> n <= Z.of_nat (length freqs) ->
  let ns := zip_with newNode (take (Z.to_nat n) items) (take (Z.to_nat n) freqs) in
  let h := {| size := n; capacity := n; array := Some <$> ns |} in
  createAndBuildMinHeap items freqs n = buildMinHeap h /\ heap_cells h ns.
Proof.
  intros Hn Hi Hf ns h. split.
  - unfold createAndBuildMinHeap, createMinH. cbn [array capacity].
    rewrite to_unsigned_small by lia.
    pose proof (fill_loop_cells (Z.to_nat n) items freqs []
                  ltac:(simpl; lia) ltac:(simpl; lia)) as E.
    cbn [fmap list_fmap app length drop] in E. change (Z.of_nat 0) with 0 in E.
    rewrite E. reflexivity.
  - unfold heap_cells, h; cbn [size capacity array]. rewrite length_fmap.
    assert (length ns = Z.to_nat n)
      by (unfold ns; rewrite length_zip_with, !length_take; lia).
    split; [lia|]. split; [lia|]. split; [lia|].
    exists []. rewrite app_nil_r. reflexivity.
Qed.

Lemma Forall_newNode_ok (items : list Z) (freqs : list W) :
  Forall ok freqs -> Forall (fun t => ok (freq t)) (zip_with newNode items freqs).
Proof.
  intros Hok. revert items. induction Hok as [|f freqs Hf _ IH]; intros [|c items];
    simpl; constructor; auto.
Qed.

(** A heap the program starts from is well formed and in order. *)
Lemma heap_start_inv h :
  heap_start ok h ->
  exists ns, heap_cells h ns /\ Forall (fun t => ok (freq t)) ns /\ heap_ordered w_le h.
Proof.
  intros [c Hc | items freqs n h' Hn Hi Hf Hok E].
  - exists []. split; [|split; [constructor|]].
    + unfold heap_cells, createMinH; cbn [size capacity array].
      rewrite length_replicate. split; [reflexivity|]. split; [lia|]. split; [lia|].
      exists (replicate (Z.to_nat c) None). reflexivity.
    + intros i Hi. split; cbn [size createMinH]; lia.
  - destruct (createAndBuildMinHeap_unfold items freqs n Hn Hi Hf) as [Eu Hh0].
    rewrite Eu in E.
    assert (Hok0 : Forall (fun t => ok (freq t))
                     (zip_with newNode (take (Z.to_nat n) items) (take (Z.to_nat n) freqs)))
      by (apply Forall_newNode_ok; exact Hok).
    destruct (buildMinHeap_cells _ _ Hh0) as (h1 & ns1 & E1 & Hh1 & Hp1 & _).
    assert (h1 = h') by congruence. subst h1.
    exists ns1. split; [exact Hh1|]. split; [rewrite Hp1; exact Hok0|].
    exact (buildMinHeap_order _ _ _ Hh0 Hok0 E).
Qed.

(** The operations keep a well-formed heap well formed and in order. *)
Lemma run_ops_inv ops : forall h h' ns,
  heap_cells h ns -> Forall (fun t => ok (freq t)) ns -> heap_ordered w_le h ->
  Forall (op_ok ok) ops -> run_ops ops h = Done h' ->
  exists ns', heap_cells h' ns' /\ Forall (fun t => ok (freq t)) ns' /\
              heap_ordered w_le h'.
Proof.
  induction ops as [|[node|] ops IH]; intros h h' ns Hh Hok Hord Hops H;
    cbn [run_ops] in H.
  - inversion H; subst h'. eauto.
  - inversion Hops as [|? ? Hnode Hops']; subst. simpl in Hnode.
    pose proof (heap_cells_size h ns Hh) as Hsz.
    destruct (Z.eq_dec (size h) (capacity h)) as [Hfull|Hroom].
    { destruct (insertMinHeap_full h ns node Hh Hfull) as [f Ef].
      rewrite Ef in H. discriminate. }
    destruct (insertMinHeap_cells h ns node Hh ltac:(lia)) as (h1 & ns1 & E1 & Hh1 & Hp1 & _).
    rewrite E1 in H. cbn [bind] in H.
    apply (IH h1 h' ns1 Hh1); auto.
    + rewrite Hp1. constructor; auto.
    + apply (insertMinHeap_order h ns node h1 Hh Hok Hnode ltac:(lia) Hord E1).
  - inversion Hops as [|? ? _ Hops']; subst.
    pose proof (heap_cells_size h ns Hh) as Hsz.
    destruct (Z.eq_dec (size h) 0) as [Hempty|Hne].
    { destruct (extractMin_empty h ns Hh Hempty) as [f Ef].
      rewrite Ef in H. discriminate. }
    destruct (extractMin_cells h ns Hh ltac:(lia)) as (x & h1 & ns1 & E1 & _ & Hh1 & Hp1 & _).
    rewrite E1 in H. cbn [bind snd] in H.
    apply (IH h1 h' ns1 Hh1); auto.
    + rewrite Hp1 in Hok. inversion Hok; auto.
    + apply (extractMin_order h ns (x, h1) Hh Hok ltac:(lia) Hord E1).
Qed.

(** In a heap in order, no live node weighs less than the node in cell 0. *)
Lemma heap_root_min h ns x :
  heap_cells h ns -> Forall (fun t => ok (freq t)) ns -> heap_ordered w_le h ->
  cell (array h) 0 = Some x ->
  forall y, In y ns -> w_le (freq x) (freq y) = true.
Proof.
  intros Hh Hok Hord Hx.
  pose proof (cells_ok_of_nodes h ns Hh Hok) as Hcok.
  assert (Hall : forall n i y, 0 <= i <= Z.of_nat n -> i < size h ->
            cell (array h) i = Some y -> w_le (freq x) (freq y) = true).
  { induction n as [|n IH]; intros i y Hi Hs Hy.
    - assert (i = 0) by lia. subst i. assert (y = x) by congruence. subst y.
      apply le_refl_ok. apply (Hcok 0); auto; lia.
    - destruct (Z.eq_dec i 0) as [->|Hi0]; [apply (IH 0 y); auto; lia|].
      destruct (parent_child i ltac:(lia)) as [Hpar Hwhich].
      destruct (heap_cells_cell h ns (Z.quot (i - 1) 2) Hh ltac:(lia)) as (p & Hp & _).
      apply le_trans with (freq p).
      + apply (Hcok 0); auto; lia.
      + apply (Hcok (Z.quot (i - 1) 2)); auto; lia.
      + apply (Hcok i); auto; lia.
      + apply (IH (Z.quot (i - 1) 2) p); auto; lia.
      + destruct (Hord (Z.quot (i - 1) 2) ltac:(lia)) as [Ho1 Ho2].
        destruct Hwhich as [Hw|Hw]; [apply Ho1 | apply Ho2]; auto; try lia;
          rewrite <- Hw; auto. }
  intros y Hy. apply list_elem_of_In, list_elem_of_lookup in Hy as [n Hn].
  pose proof (lookup_lt_Some _ _ _ Hn) as Hlt.
  destruct Hh as (Hs & _ & _ & rest & Ha).
  apply (Hall n (Z.of_nat n) y); [lia | lia |].
  rewrite Ha, cell_front by lia. rewrite Nat2Z.id. exact Hn.
Qed.

End HeapOrder.

(** ** The code listing and the frequency count *)

Section Listing.

Context {W : Type} {weight : Weight W}.
Implicit Types (t : MinHNode W).

Lemma rd_in_Done {A : Type} (l : list A) (i : nat) x :
  l !! i = Some x -> rd_in l (Z.of_nat i) = Done x.
Proof.
  intros Hx. unfold rd_in. pose proof (lookup_lt_Some _ _ _ Hx).
  destruct (Z.leb_spec 0 (Z.of_nat i)); [|lia].
  destruct (Z.ltb_spec (Z.of_nat i) (Z.of_nat (length l))); [|lia].
  simpl. rewrite Nat2Z.id, Hx. reflexivity.
Qed.

Lemma listing_loop_spec t (chars : list Z) k : forall i,
  height t <= 128 -> (i + k <= length chars)%nat ->
  listing_loop k t chars (Z.of_nat i)
  = Done (concat (map (listing_line t) (take k (drop i chars)))).
Proof.
  induction k as [|k IH]; intros i Hh Hlen; [reflexivity|].
  destruct (lookup_lt_is_Some_2 chars i) as [c Hc]; [lia|].
  cbn [listing_loop]. rewrite (rd_in_Done _ _ _ Hc). cbn [bind].
  rewrite (drop_S _ _ _ Hc). cbn [take map concat].
  replace (Z.of_nat i + 1) with (Z.of_nat (S i)) by lia.
  rewrite IH by (auto; lia).
  unfold listing_line at 2. fold (printable c). destruct (printable c).
  - destruct (printHCodeForCharacter_spec t c 1 [] fresh_arr) as (rest' & E & _);
      [simpl; lia | unfold INT_MAX; simpl; lia |].
    change ((Some <$> []) ++ fresh_arr) with fresh_arr in E.
    change (Z.of_nat (length (@nil Z))) with 0 in E.
    rewrite E. reflexivity.
  - reflexivity.
Qed.

End Listing.

Lemma initializeProb_loop_spec k : forall (pre fr : list (option Z)),
  length fr = k ->
  initializeProb_loop k (pre ++ fr) (Z.of_nat (length pre))
  = Done (pre ++ replicate k (Some 0)).
Proof.
  induction k as [|k IH]; intros pre fr Hk.
  - destruct fr; [|discriminate]. reflexivity.
  - destruct fr as [|c fr]; [discriminate|]. cbn [initializeProb_loop replicate].
    rewrite wr_in_bounds by (rewrite length_app; simpl; lia). cbn [bind].
    rewrite Nat2Z.id.
    replace (length pre) with (length pre + 0)%nat at 1 by lia.
    rewrite insert_app_r. cbn [list_insert insert].
    replace (Z.of_nat (length pre) + 1) with (Z.of_nat (length (pre ++ [Some 0])))
      by (rewrite length_app; simpl; lia).
    replace (pre ++ Some 0 :: fr) with ((pre ++ [Some 0]) ++ fr)
      by (rewrite <- app_assoc; reflexivity).
    rewrite IH by (simpl in Hk; lia). rewrite <- app_assoc. reflexivity.
Qed.

Lemma getFreq_loop_spec (f : list Z) : forall (vs : list Z) n,
  length vs = 128%nat -> Forall (fun b => 0 <= b <= 127) f ->
  0 <= n -> n + Z.of_nat (length f) <= INT_MAX ->
  exists vs', getFreq_loop f (Some <$> vs) n = Done (n + Z.of_nat (length f), Some <$> vs')
              /\ length vs' = 128%nat.
Proof.
  induction f as [|r f IH]; intros vs n Hvs Hf Hn Hmax.
  - exists vs. rewrite Z.add_0_r. auto.
  - inversion Hf as [|? ? Hr Hf']; subst. cbn [getFreq_loop length] in *.
    destruct (lookup_lt_is_Some_2 vs (Z.to_nat r)) as [v Hv]; [lia|].
    assert (Hcell : cell (Some <$> vs) r = Some v).
    { rewrite <- (app_nil_r (Some <$> vs)), cell_front by lia. exact Hv. }
    rewrite (proj2 (rd_Done _ _ _) Hcell). cbn [bind].
    rewrite wr_in_bounds by (rewrite length_fmap; lia). cbn [bind].
    rewrite int_arith_Done by (unfold INT_MIN, INT_MAX in *; lia). cbn [bind].
    rewrite <- list_fmap_insert.
    destruct (IH (<[Z.to_nat r := to_unsigned (v + 1)]> vs) (n + 1))
      as (vs' & E & Hl'); [rewrite length_insert; exact Hvs | exact Hf' | lia | lia |].
    exists vs'. rewrite E. split; [|exact Hl']. do 2 f_equal. lia.
Qed.

Lemma getFreq_loop_out_of_range (f : list Z) : forall (vs : list Z) n b rest,
  length vs = 128%nat -> Forall (fun b => 0 <= b <= 127) f ->
  0 <= n -> n + Z.of_nat (length f) <= INT_MAX -> 128 <= b ->
  getFreq_loop (f ++ b :: rest) (Some <$> vs) n = Undefined (OutOfBounds b).
Proof.
  induction f as [|r f IH]; intros vs n b rest Hvs Hf Hn Hmax Hb.
  - cbn [app getFreq_loop]. unfold rd. rewrite length_fmap, Hvs.
    destruct (Z.ltb_spec b (Z.of_nat 128)); [lia|]. rewrite andb_false_r. reflexivity.
  - inversion Hf as [|? ? Hr Hf']; subst. cbn [app getFreq_loop length] in *.
    destruct (lookup_lt_is_Some_2 vs (Z.to_nat r)) as [v Hv]; [lia|].
    assert (Hcell : cell (Some <$> vs) r = Some v).
    { rewrite <- (app_nil_r (Some <$> vs)), cell_front by lia. exact Hv. }
    rewrite (proj2 (rd_Done _ _ _) Hcell). cbn [bind].
    rewrite wr_in_bounds by (rewrite length_fmap; lia). cbn [bind].
    rewrite int_arith_Done by (unfold INT_MIN, INT_MAX in *; lia). cbn [bind].
    rewrite <- list_fmap_insert.
    apply IH; [rewrite length_insert; exact Hvs | exact Hf' | lia | lia | exact Hb].
Qed.

Lemma getFreq_loop_in_range (f : list Z) : forall (vs : list Z) n,
  length vs = 128%nat -> Forall (fun b => 0 <= b <= 127) f ->
  forall i, getFreq_loop f (Some <$> vs) n <> Undefined (OutOfBounds i).
Proof.
  induction f as [|r f IH]; intros vs n Hvs Hf i; [discriminate|].
  inversion Hf as [|? ? Hr Hf']; subst. cbn [getFreq_loop].
  destruct (lookup_lt_is_Some_2 vs (Z.to_nat r)) as [v Hv]; [lia|].
  assert (Hcell : cell (Some <$> vs) r = Some v).
  { rewrite <- (app_nil_r (Some <$> vs)), cell_front by lia. exact Hv. }
  rewrite (proj2 (rd_Done _ _ _) Hcell). cbn [bind].
  rewrite wr_in_bounds by (rewrite length_fmap; lia). cbn [bind].
  rewrite <- list_fmap_insert. unfold int_arith.
  destruct ((INT_MIN <=? n + 1) && (n + 1 <=? INT_MAX)); cbn [bind]; [|discriminate].
  apply IH; [rewrite length_insert; exact Hvs | exact Hf'].
Qed.


(** ** Prefix freedom and the weights of the tree *)

Section Shape.

Context {W : Type} {weight : Weight W}.
Implicit Types (t : MinHNode W) (path : list Z).

(** The bits of a path that leads somewhere are 0 and 1. *)
Lemma walk_bits path : forall t n,
  walk t path = Some n -> Forall (fun b => b = 0 \/ b = 1) path.
Proof.
  induction path as [|b path IH]; intros t n Hw; [constructor|].
  cbn [walk] in Hw. destruct (Z.eqb_spec b 0) as [->|].
  - destruct (left t) as [c|]; [|discriminate]. constructor; eauto.
  - destruct (Z.eqb_spec b 1) as [->|]; [|discriminate].
    destruct (right t) as [c|]; [|discriminate]. constructor; eauto.
Qed.

(** Two paths to leaves that hold different symbols part ways at some bit. *)
Lemma paths_diverge pa : forall t a b pb,
  a <> b -> path_of t a pa -> path_of t b pb ->
  exists q x y ra rb, pa = q ++ x :: ra /\ pb = q ++ y :: rb /\ x <> y.
Proof.
  induction pa as [|x pa IH]; intros t a b pb Hab (la & Hwa & Hla & Hia) (lb & Hwb & Hlb & Hib).
  - simpl in Hwa. inversion Hwa; subst la.
    destruct (walk_leaf t pb lb Hla Hwb) as [-> ->]. congruence.
  - destruct pb as [|y pb].
    { simpl in Hwb. inversion Hwb; subst lb.
      destruct (walk_leaf t (x :: pa) la Hlb Hwa) as [E _]. discriminate. }
    destruct (Z.eq_dec x y) as [->|Hxy].
    + cbn [walk] in Hwa, Hwb.
      destruct (if y =? 0 then left t else if y =? 1 then right t else None) as [c|];
        [|discriminate].
      destruct (IH c a b pb Hab) as (q & x' & y' & ra & rb & -> & -> & Hne).
      * exists la. auto.
      * exists lb. auto.
      * exists (y :: q), x', y', ra, rb. auto.
    + exists [], x, y, pa, pb. auto.
Qed.

(** Every path to a leaf that holds [c] is listed by [paths_to]. *)
Lemma path_of_paths_to path : forall t c, path_of t c path -> In path (paths_to t c).
Proof.
  induction path as [|b path IH]; intros t c (lf & Hw & Hlf & Hi).
  - simpl in Hw. inversion Hw; subst lf. destruct t as [c0 f l r].
    cbn [paths_to]. rewrite Hlf. simpl in Hi. subst c0. rewrite Z.eqb_refl.
    rewrite !in_app_iff. right. right. left. reflexivity.
  - cbn [walk] in Hw. destruct t as [c0 f l r]. cbn [left right] in Hw.
    cbn [paths_to]. rewrite !in_app_iff. destruct (Z.eqb_spec b 0) as [->|].
    + destruct l as [l0|]; [|discriminate]. left. apply in_map. apply IH.
      exists lf. auto.
    + destruct (Z.eqb_spec b 1) as [->|]; [|discriminate].
      destruct r as [r0|]; [|discriminate]. right. left. apply in_map. apply IH.
      exists lf. auto.
Qed.

Lemma flat_map_fprintf_d path :
  Forall (fun b => b = 0 \/ b = 1) path -> flat_map fprintf_d path = map (Z.add 48) path.
Proof.
  induction 1 as [|b path Hb _ IH]; [reflexivity|].
  cbn [flat_map map]. rewrite IH, fprintf_d_bit by exact Hb. reflexivity.
Qed.

(** What [printHCodeForCharacter] writes for two different symbols that
    leaves hold: neither text is a prefix of the other. *)
Lemma codes_diverge t a b :
  a <> b -> paths_to t a <> [] -> paths_to t b <> [] ->
  ~ concat (map (path_text 0) (paths_to t a))
      `prefix_of` concat (map (path_text 0) (paths_to t b)).
Proof.
  intros Hab Ha Hb.
  destruct (paths_to t a) as [|pa pas] eqn:Ea; [congruence|].
  destruct (paths_to t b) as [|pb pbs] eqn:Eb; [congruence|].
  assert (Hpa : path_of t a pa) by (apply paths_to_path_of; rewrite Ea; left; reflexivity).
  assert (Hpb : path_of t b pb) by (apply paths_to_path_of; rewrite Eb; left; reflexivity).
  destruct (paths_diverge pa t a b pb Hab Hpa Hpb) as (q & x & y & ra & rb & -> & -> & Hxy).
  destruct Hpa as (la & Hwa & _), Hpb as (lb & Hwb & _).
  apply walk_bits in Hwa, Hwb.
  cbn [map concat]. unfold path_text. change (0 =? 0) with true. cbv iota.
  rewrite !app_nil_r, !flat_map_fprintf_d by assumption.
  rewrite !map_app. cbn [map]. rewrite <- !app_assoc. cbn [app].
  intros [k Hk]. rewrite <- app_assoc in Hk. apply app_inv_head in Hk.
  cbn [app] in Hk. inversion Hk. lia.
Qed.

Lemma sums_bottom_up t : full t -> sums t -> freq t = bottom_up t.
Proof.
  induction t as [c f l r IHl IHr] using tree_ind. intros Hf Hs.
  destruct l as [l0|], r as [r0|]; simpl in Hf; try contradiction; [|reflexivity].
  destruct Hf as [Hfl Hfr]. simpl in Hs. destruct Hs as (-> & Hsl & Hsr).
  cbn [freq bottom_up]. rewrite (IHl l0 eq_refl Hfl Hsl), (IHr r0 eq_refl Hfr Hsr).
  reflexivity.
Qed.

Lemma bottom_up_fold t :
  (forall x y z : W, w_add x (w_add y z) = w_add (w_add x y) z) ->
  full t ->
  forall z, w_add (bottom_up t) z = fold_right w_add z (map snd (leaves t)).
Proof.
  intros Hassoc. induction t as [c f l r IHl IHr] using tree_ind. intros Hf z.
  destruct l as [l0|], r as [r0|]; simpl in Hf; try contradiction; [|reflexivity].
  destruct Hf as [Hfl Hfr]. rewrite leaves_node by reflexivity.
  cbn [bottom_up]. rewrite map_app, fold_right_app.
  rewrite <- (IHr r0 eq_refl Hfr), <- (IHl l0 eq_refl Hfl). symmetry. apply Hassoc.
Qed.

End Shape.

(** ** Sequences of heap operations *)

Lemma run_ops_Done {W : Type} {weight : Weight W} (ops : list (heap_op W)) :
  forall (h : MinHeap W) ns,
    heap_cells h ns -> ops_fit ops (size h) (capacity h) ->
    exists h', run_ops ops h = Done h'.
Proof.
  induction ops as [|[node|] ops IH]; intros h ns Hh Hfit; cbn [run_ops ops_fit] in *.
  - eauto.
  - destruct Hfit as [Hroom Hfit].
    destruct (insertMinHeap_cells h ns node Hh Hroom) as (h1 & ns1 & E & Hh1 & Hp & Hc).
    rewrite E. cbn [bind]. apply (IH h1 ns1 Hh1).
    pose proof (heap_cells_length h ns Hh). pose proof (heap_cells_length h1 ns1 Hh1).
    apply Permutation_length in Hp. simpl in Hp.
    replace (size h1) with (size h + 1) by lia. rewrite Hc. exact Hfit.
  - destruct Hfit as [Hne Hfit].
    destruct (extractMin_cells h ns Hh Hne) as (x & h1 & ns1 & E & _ & Hh1 & Hp & Hc).
    rewrite E. cbn [bind snd]. apply (IH h1 ns1 Hh1).
    pose proof (heap_cells_length h ns Hh). pose proof (heap_cells_length h1 ns1 Hh1).
    apply Permutation_length in Hp. simpl in Hp.
    replace (size h1) with (size h - 1) by lia. rewrite Hc. exact Hfit.
Qed.


(** ** IEEE binary64: [<] and [<=] order the values other than NaN *)

Lemma SFcompare_key x y :
  x <> S754_nan -> y <> S754_nan ->
  SFcompare x y = Some (lex_compare (sf_key x) (sf_key y)).
Proof.
  intros Hx Hy.
  destruct x as [sx|sx| |sx mx ex], y as [sy|sy| |sy my ey]; try congruence;
    try (destruct sx; reflexivity); try (destruct sy; reflexivity);
    try (destruct sx, sy; reflexivity).
  destruct sx, sy; try reflexivity; unfold SFcompare, sf_key, lex_compare;
    cbn [fst snd]; f_equal;
    rewrite ?(Z.compare_opp ex ey), ?(Z.compare_antisym ex ey);
    destruct (ex ?= ey); reflexivity.
Qed.

Lemma lex_compare_antisym a b : lex_compare b a = CompOpp (lex_compare a b).
Proof.
  unfold lex_compare.
  rewrite (Z.compare_antisym (fst a) (fst b)).
  rewrite (Z.compare_antisym (fst (snd a)) (fst (snd b))).
  rewrite (Z.compare_antisym (snd (snd a)) (snd (snd b))).
  destruct (fst a ?= fst b), (fst (snd a) ?= fst (snd b)),
    (snd (snd a) ?= snd (snd b)); reflexivity.
Qed.

Lemma lex_compare_le a b :
  lex_compare a b <> Gt <->
  fst a < fst b \/
  fst a = fst b /\ (fst (snd a) < fst (snd b) \/
                    fst (snd a) = fst (snd b) /\ snd (snd a) <= snd (snd b)).
Proof.
  unfold lex_compare.
  destruct (Z.compare_spec (fst a) (fst b)),
    (Z.compare_spec (fst (snd a)) (fst (snd b))),
    (Z.compare_spec (snd (snd a)) (snd (snd b)));
    split; intros Hle; try congruence; try lia.
Qed.

Lemma float_ok_not_nan x : float_ok x -> Prim2SF x <> S754_nan.
Proof.
  unfold float_ok. rewrite FloatAxioms.eqb_spec. intros H E. rewrite E in H.
  discriminate.
Qed.

#[export] Instance float_order : WeightOrder float_weight PrimFloat.leb float_ok.
Proof.
  split; cbn [w_lt float_weight].
  - intros x y Hx Hy. rewrite ltb_spec, leb_spec. unfold SFltb, SFleb.
    destruct (SFcompare (Prim2SF x) (Prim2SF y)) as [[]|]; congruence.
  - intros x y Hx Hy. rewrite ltb_spec, leb_spec. unfold SFltb, SFleb.
    apply float_ok_not_nan in Hx, Hy.
    rewrite (SFcompare_key _ _ Hx Hy), (SFcompare_key _ _ Hy Hx).
    rewrite (lex_compare_antisym (sf_key (Prim2SF x)) (sf_key (Prim2SF y))).
    destruct (lex_compare (sf_key (Prim2SF x)) (sf_key (Prim2SF y)));
      cbn [CompOpp]; congruence.
  - intros x y z Hx Hy Hz. rewrite !leb_spec. unfold SFleb.
    apply float_ok_not_nan in Hx, Hy, Hz.
    rewrite (SFcompare_key _ _ Hx Hy), (SFcompare_key _ _ Hy Hz),
      (SFcompare_key _ _ Hx Hz).
    intros Hxy Hyz.
    assert (H1 : lex_compare (sf_key (Prim2SF x)) (sf_key (Prim2SF y)) <> Gt)
      by (destruct (lex_compare _ _); congruence).
    assert (H2 : lex_compare (sf_key (Prim2SF y)) (sf_key (Prim2SF z)) <> Gt)
      by (destruct (lex_compare (sf_key (Prim2SF y)) _); congruence).
    assert (H3 : lex_compare (sf_key (Prim2SF x)) (sf_key (Prim2SF z)) <> Gt).
    { apply lex_compare_le. apply lex_compare_le in H1, H2. lia. }
    destruct (lex_compare (sf_key (Prim2SF x)) (sf_key (Prim2SF z))); congruence.
Qed.

(** ** The sample heap *)

Lemma sample_heap_built :
  createAndBuildMinHeap sample_items sample_freqs 5 = Done sample_heap.
Proof. vm_compute. reflexivity. Qed.

Lemma sample_heap_cells : heap_cells sample_heap sample_nodes.
Proof.
  split; [reflexivity|]. split; [reflexivity|]. split; [reflexivity|].
  exists []. reflexivity.
Defined.

Lemma sample_freqs_ok : Forall float_ok sample_freqs.
Proof. repeat constructor. Defined.

Lemma sample_heap_start : heap_start float_ok sample_heap.
Proof.
  apply (start_built float_ok sample_items sample_freqs 5).
  - lia.
  - simpl. lia.
  - simpl. lia.
  - exact sample_freqs_ok.
  - exact sample_heap_built.
Defined.

(** ** The states of the decode loop *)

Section DecodeStates.

Context {W : Type} {weight : Weight W}.

Lemma decode_state_app (root : MinHNode W) (pre : list Z) : forall cur rest,
  decode_state root cur (pre ++ rest)
  = decode_state root (decode_state root cur pre) rest.
Proof.
  induction pre as [|c pre IH]; intros cur rest; [reflexivity|].
  cbn [app decode_state]. apply IH.
Qed.

Lemma decode_loop_app (root : MinHNode W) (pre : list Z) : forall cur rest,
  decode_loop root cur (pre ++ rest)
  = decode_loop root cur pre ++ decode_loop root (decode_state root cur pre) rest.
Proof.
  induction pre as [|c pre IH]; intros cur rest; [reflexivity|].
  cbn [app decode_loop decode_state]. rewrite IH, app_assoc. reflexivity.
Qed.

(** Where the root has a child, the loop never stands on a leaf: from a
    leaf it has gone back to the root. *)
Lemma decode_state_not_leaf (root : MinHNode W) (pre : list Z) : forall cur,
  isLeaf root = false -> isLeaf cur = false ->
  isLeaf (decode_state root cur pre) = false.
Proof.
  induction pre as [|c pre IH]; intros cur Hroot Hcur; [exact Hcur|].
  cbn [decode_state]. apply IH; [exact Hroot|].
  unfold decode_step. destruct (isLeaf (decode_move cur c)) eqn:Em; cbn [fst]; auto.
Qed.

End DecodeStates.

(** * The claims *)

(** C1. For every byte sequence whose bytes lie in 0..127 and every
    128-entry probability table (whatever its values), [encodeFile] returns
    and [decodeFile], run on what it wrote with the same table, writes
    exactly the original bytes. *)
Theorem encode_decode_roundtrip {W : Type} {weight : Weight W} (P : list W) (B : list Z) :
  length P = 128%nat ->
  Forall (fun b => 0 <= b <= 127) B ->
  exists E, encodeFile B P = Done E /\ decodeFile E P = Done B.
Proof.
  intros HP HB. unfold encodeFile, decodeFile, readProbabilitiesFromFile.
  change (Z.to_nat ASCII_SIZE) with 128%nat.
  rewrite readProbabilities_loop_Done by lia. cbn [bind].
  rewrite take_ge by lia.
  destruct (ascii_tree P ltac:(lia)) as (t & E & Hf & Hs & Hl & Hitems & Hroot & Hh).
  rewrite E. cbn [bind]. rewrite encode_loop_spec by lia.
  eexists. split; [reflexivity|]. f_equal.
  assert (Hnd : NoDup (map fst (leaves t))).
  { rewrite Hitems. apply ascii_characters_NoDup. }
  rewrite decode_encoded; [| exact Hroot | exact Hnd |].
  - induction HB as [|b B Hb HB IH]; [reflexivity|].
    cbn [map]. rewrite IH. rewrite to_uchar_to_char by lia. reflexivity.
  - intros ch Hch. rewrite Forall_forall in HB.
    apply list_elem_of_In in Hch. specialize (HB ch Hch).
    rewrite to_char_small by lia.
    apply list_elem_of_In. rewrite Hitems. apply list_elem_of_In.
    apply ascii_characters_In. lia.
Qed.

(** The round trip on binary64 weights: the table of the text aaab, and a
    data file that holds every symbol 0..127, the text and a run of one byte. *)
Lemma encode_decode_roundtrip_witness :
  exists E, encodeFile sample_input aaab_table = Done E /\
            decodeFile E aaab_table = Done sample_input.
Proof.
  apply (encode_decode_roundtrip aaab_table sample_input).
  - reflexivity.
  - apply (bool_decide_unpack _). vm_compute. reflexivity.
Defined.

(** C2 (as amended). [extractMin] has no emptiness check and reports no
    error: on an empty heap it runs into undefined behaviour. On a
    well-formed heap with [size >= 1] it returns the node of cell 0, moves
    the last live node into cell 0, decrements [size] and restores the
    order from the root with [minHeapify]: when the heap was in order, the
    heap it leaves is in order again, and no live node weighs less than
    the node returned. *)
Theorem extractMin_contract {W : Type} {weight : Weight W}
    (w_le : W -> W -> bool) (ok : W -> Prop) {order : WeightOrder weight w_le ok}
    (h : MinHeap W) (ns : list (MinHNode W)) :
  heap_cells h ns ->
  (size h = 0 -> exists f, extractMin h = Undefined f) /\
  (1 <= size h ->
   exists x lst h',
     cell (array h) 0 = Some x /\ cell (array h) (size h - 1) = Some lst /\
     minHeapify {| size := size h - 1; capacity := capacity h;
                   array := <[0%nat := Some lst]> (array h) |} 0 = Done h' /\
     extractMin h = Done (x, h') /\ size h' = size h - 1 /\
     (Forall (fun t => ok (freq t)) ns -> heap_ordered w_le h ->
      heap_ordered w_le h' /\
      forall y, In y ns -> w_le (freq x) (freq y) = true)).
Proof.
  intros Hh. split; [apply (extractMin_empty h ns Hh)|]. intros Hs.
  pose proof (heap_cells_size h ns Hh) as Hsz.
  destruct (extractMin_cells h ns Hh Hs) as (x & h' & ns' & E & Hx & Hh' & Hp & Hc).
  destruct (heap_cells_cell h ns (size h - 1) Hh ltac:(lia)) as (lst & Hl & _).
  exists x, lst, h'. split; [exact Hx|]. split; [exact Hl|].
  split; [|split; [exact E|split]].
  - unfold extractMin in E. rewrite to_unsigned_small in E by lia.
    rewrite (proj2 (rd_Done _ _ _) Hx), (proj2 (rd_Done _ _ _) Hl) in E.
    cbn [bind] in E. rewrite wr_in_bounds in E by (apply cell_bounds in Hx; lia).
    cbn [bind] in E. apply bind_Done in E as (h1 & E1 & E2).
    inversion E2; subst h1. exact E1.
  - pose proof (heap_cells_length h ns Hh) as Hl1.
    pose proof (heap_cells_length h' ns' Hh') as Hl2.
    apply Permutation_length in Hp. simpl in Hp. lia.
  - intros Hok Hord. split.
    + exact (extractMin_order w_le ok h ns (x, h') Hh Hok Hs Hord E).
    + apply (heap_root_min w_le ok h ns x Hh Hok Hord Hx).
Qed.

(** [extractMin] on the heap of the sample alphabet: it returns, the size
    goes from 5 to 4, the heap left is in order and no node weighs less
    than the one returned. *)
Lemma extractMin_contract_witness :
  heap_cells sample_heap sample_nodes /\
  exists x h',
    extractMin sample_heap = Done (x, h') /\ size h' = 4 /\
    heap_ordered PrimFloat.leb h' /\
    forall y, In y sample_nodes -> PrimFloat.leb (freq x) (freq y) = true.
Proof.
  split; [exact sample_heap_cells|].
  destruct (extractMin_contract PrimFloat.leb float_ok sample_heap sample_nodes
              sample_heap_cells) as [_ H].
  destruct (H ltac:(simpl; lia)) as (x & lst & h' & _ & _ & _ & E & Hs & Hmin).
  exists x, h'. split; [exact E|]. split; [exact Hs|].
  apply Hmin.
  - repeat constructor.
  - destruct (heap_start_inv PrimFloat.leb float_ok sample_heap sample_heap_start)
      as (ns & _ & _ & Hord). exact Hord.
Defined.

(** The claim as stated fails: extracting the node of a one-node heap
    leaves an empty heap, and [extractMin] on it reads [array[4294967295]]:
    undefined behaviour, not an exit with an error. *)
Lemma extractMin_empty_not_reported :
  extractMin (weight := float_weight)
    {| size := 1; capacity := 1; array := [Some leaf_a] |} = Done (leaf_a, drained_heap) /\
  size drained_heap = 0 /\
  extractMin drained_heap = Undefined (OutOfBounds 4294967295) /\
  forall status, extractMin drained_heap <> Exited status.
Proof.
  split; [vm_compute; reflexivity|]. split; [reflexivity|].
  split; [vm_compute; reflexivity|]. intros status. vm_compute. discriminate.
Qed.

(** C3 (as amended). For an alphabet of size 1 the builder yields a single
    leaf and the code of the one symbol has length zero; so [encode_loop]
    writes nothing whatever the input, and decoding what it wrote yields
    the empty sequence. *)
Theorem single_symbol_alphabet {W : Type} {weight : Weight W} (c : Z) (w : W) (B : list Z) :
  buildHuffmanTree [c] [w] 1 = Done (newNode c w) /\
  isLeaf (newNode c w) = true /\
  printHCodeForCharacter (newNode c w) c fresh_arr 0 0 = Done (fresh_arr, []) /\
  encode_loop (newNode c w) B = Done [] /\
  decode_loop (newNode c w) (newNode c w) [] = [].
Proof.
  split; [vm_compute; reflexivity|]. split; [reflexivity|]. split; [|split; [|reflexivity]].
  - cbn [printHCodeForCharacter newNode bind fst snd]. rewrite Z.eqb_refl. reflexivity.
  - induction B as [|b B IH]; [reflexivity|].
    cbn [encode_loop printHCodeForCharacter newNode bind fst snd].
    rewrite IH. destruct (c =? to_char b); reflexivity.
Qed.

(** The claim as stated fails: over the one-symbol alphabet a, the
    one-byte input a is encoded as the empty text, which decodes to
    nothing. *)
Lemma single_symbol_roundtrip_fails :
  buildHuffmanTree [97] [1%float] 1 = Done leaf_a /\
  exists E, encode_loop leaf_a [97] = Done E /\ decode_loop leaf_a leaf_a E <> [97].
Proof.
  split; [vm_compute; reflexivity|]. exists []. split; [vm_compute; reflexivity|].
  vm_compute. discriminate.
Qed.

(** C4. The empty heap of [createMinH] and the heap
    [createAndBuildMinHeap] builds are in min-heap order: every position
    that has children holds a node that weighs no more than either child.
    A sequence of [insertMinHeap] and [extractMin] that never inserts into
    a full heap nor extracts from an empty one returns from such a heap,
    and the heap any sequence returns is well formed and in min-heap
    order. The weights are taken among those that [<] and [<=] order. *)
Theorem heap_order_invariant {W : Type} {weight : Weight W}
    (w_le : W -> W -> bool) (ok : W -> Prop) {order : WeightOrder weight w_le ok}
    (start : MinHeap W) (ops : list (heap_op W)) :
  heap_start ok start -> Forall (op_ok ok) ops ->
  heap_ordered w_le start /\
  (ops_fit ops (size start) (capacity start) -> exists h, run_ops ops start = Done h) /\
  (forall h, run_ops ops start = Done h ->
             heap_ordered w_le h /\ exists ns, heap_cells h ns).
Proof.
  intros Hstart Hops.
  destruct (heap_start_inv w_le ok start Hstart) as (ns0 & Hh0 & Hok0 & Hord0).
  split; [exact Hord0|]. split.
  - apply (run_ops_Done ops start ns0 Hh0).
  - intros h Hrun.
    destruct (run_ops_inv w_le ok ops start h ns0 Hh0 Hok0 Hord0 Hops Hrun)
      as (ns & Hh & _ & Hord).
    split; [exact Hord|]. exists ns. exact Hh.
Qed.

(** The heap of the sample alphabet, and the heap after two extractions,
    an insertion, an extraction and an insertion, are in order. *)
Lemma heap_order_invariant_witness :
  heap_ordered PrimFloat.leb sample_heap /\
  exists h,
    run_ops sample_ops sample_heap = Done h /\
    heap_ordered PrimFloat.leb h /\ exists ns, heap_cells h ns.
Proof.
  destruct (heap_order_invariant PrimFloat.leb float_ok sample_heap sample_ops)
    as (Hstart & Hruns & Hinv).
  - exact sample_heap_start.
  - repeat constructor.
  - split; [exact Hstart|].
    destruct Hruns as [h Hh]; [simpl; lia|].
    exists h. split; [exact Hh|]. apply Hinv. exact Hh.
Defined.

(** C5. In [decodeFile], whatever the decode loop has read and wherever
    it stands in the tree, an input character other than 0 and 1, or one
    that asks for a child that does not exist, is ignored: the current
    node stays what it was, nothing is written, and no error is raised,
    the file decoding as it does without that character. The loop never
    stands on a leaf, the tree of the 128 symbols having a root with
    children. *)
Theorem decode_ignores {W : Type} {weight : Weight W}
    (P : list W) (pre : list Z) (bit : Z) :
  (128 <= length P)%nat ->
  exists t,
    buildHuffmanTree ascii_characters (take 128 P) ASCII_SIZE = Done t /\
    (forall E, decodeFile E P = Done (decode_loop t t E)) /\
    let cur := decode_state t t pre in
    isLeaf cur = false /\
    ((bit <> 48 /\ bit <> 49) \/ (bit = 48 /\ left cur = None) \/
     (bit = 49 /\ right cur = None) ->
     decode_move cur bit = cur /\
     decode_step t cur bit = (cur, []) /\
     decode_state t t (pre ++ [bit]) = cur /\
     forall rest,
       decode_loop t t (pre ++ bit :: rest) = decode_loop t t (pre ++ rest) /\
       decodeFile (pre ++ bit :: rest) P = decodeFile (pre ++ rest) P).
Proof.
  intros HP.
  destruct (ascii_tree (take 128 P)) as (t & E & _ & _ & _ & _ & Hroot & _);
    [rewrite length_take; lia|].
  assert (Hdec : forall E0, decodeFile E0 P = Done (decode_loop t t E0)).
  { intros E0. unfold decodeFile, readProbabilitiesFromFile.
    change (Z.to_nat ASCII_SIZE) with 128%nat.
    rewrite readProbabilities_loop_Done by exact HP. cbn [bind].
    rewrite E. reflexivity. }
  exists t. split; [exact E|]. split; [exact Hdec|]. cbv zeta.
  pose proof (decode_state_not_leaf t pre t Hroot Hroot) as Hcur.
  split; [exact Hcur|]. intros Hbit.
  assert (Hm : decode_move (decode_state t t pre) bit = decode_state t t pre).
  { unfold decode_move. destruct Hbit as [[H0 H1]|[[-> Hl]|[-> Hr]]].
    - destruct (Z.eqb_spec bit 48); [lia|]. destruct (Z.eqb_spec bit 49); [lia|].
      reflexivity.
    - rewrite Hl. reflexivity.
    - rewrite Hr. reflexivity. }
  assert (Hs : decode_step t (decode_state t t pre) bit = (decode_state t t pre, [])).
  { unfold decode_step. rewrite Hm, Hcur. reflexivity. }
  split; [exact Hm|]. split; [exact Hs|]. split.
  - rewrite decode_state_app. cbn [decode_state]. rewrite Hs. reflexivity.
  - intros rest.
    assert (Hl : decode_loop t t (pre ++ bit :: rest) = decode_loop t t (pre ++ rest)).
    { rewrite !decode_loop_app. cbn [decode_loop]. rewrite Hs. reflexivity. }
    split; [exact Hl|]. rewrite !Hdec, Hl. reflexivity.
Qed.

(** An encoded file with the letter x and a newline in it, under the
    table of the sample text: it decodes as the file without them. *)
Lemma decode_ignores_witness :
  decodeFile [49; 120; 48; 49; 10; 49] aaab_table
  = decodeFile [49; 48; 49; 10; 49] aaab_table /\
  decodeFile [49; 48; 49; 10; 49] aaab_table = decodeFile [49; 48; 49; 49] aaab_table.
Proof.
  split.
  - destruct (decode_ignores aaab_table [49] 120) as (t & _ & _ & _ & H);
      [simpl; lia|].
    destruct H as (_ & _ & _ & H); [left; lia|]. exact (proj2 (H [48; 49; 10; 49])).
  - destruct (decode_ignores aaab_table [49; 48; 49] 10) as (t & _ & _ & _ & H);
      [simpl; lia|].
    destruct H as (_ & _ & _ & H); [left; lia|]. exact (proj2 (H [49])).
Defined.

(** C6. In every tree the builder produces, for two different symbols
    that leaves hold, no root-to-leaf bit path of one is a prefix of a
    path of the other; and when the tree fits the code array, neither is
    the text [printHCodeForCharacter] writes for one a prefix of the text
    it writes for the other. *)
Theorem prefix_free {W : Type} {weight : Weight W}
    (items : list Z) (freqs : list W) (n : Z) (t : MinHNode W) (a b : Z) (pa pb : list Z) :
  buildHuffmanTree items freqs n = Done t ->
  a <> b -> path_of t a pa -> path_of t b pb ->
  ~ pa `prefix_of` pb /\
  (height t <= 128 ->
   exists ra rb,
     printHCodeForCharacter t a fresh_arr 0 0 = Done ra /\
     printHCodeForCharacter t b fresh_arr 0 0 = Done rb /\
     ~ snd ra `prefix_of` snd rb).
Proof.
  intros _ Hab Hpa Hpb. split.
  - destruct (paths_diverge pa t a b pb Hab Hpa Hpb) as (q & x & y & ra & rb & -> & -> & Hxy).
    intros [k Hk]. rewrite <- app_assoc in Hk. apply app_inv_head in Hk.
    inversion Hk. congruence.
  - intros Hh.
    destruct (printHCodeForCharacter_spec t a 0 [] fresh_arr) as (resta & Ea & _);
      [simpl; lia | unfold INT_MAX; simpl; lia |].
    destruct (printHCodeForCharacter_spec t b 0 [] fresh_arr) as (restb & Eb & _);
      [simpl; lia | unfold INT_MAX; simpl; lia |].
    change ((Some <$> []) ++ fresh_arr) with fresh_arr in Ea, Eb.
    change (Z.of_nat (length (@nil Z))) with 0 in Ea, Eb.
    eexists. eexists. split; [exact Ea|]. split; [exact Eb|].
    cbn [snd]. apply codes_diverge; [exact Hab | |].
    + intros E. apply path_of_paths_to in Hpa. rewrite E in Hpa. destruct Hpa.
    + intros E. apply path_of_paths_to in Hpb. rewrite E in Hpb. destruct Hpb.
Qed.

(** The codes of a and c in the tree of the sample alphabet. *)
Lemma prefix_free_witness :
  buildHuffmanTree sample_items sample_freqs 5 = Done sample_tree /\
  path_of sample_tree 97 [0] /\ path_of sample_tree 99 [1; 0] /\
  ~ [0] `prefix_of` [1; 0] /\
  exists ra rb,
    printHCodeForCharacter sample_tree 97 fresh_arr 0 0 = Done ra /\
    printHCodeForCharacter sample_tree 99 fresh_arr 0 0 = Done rb /\
    ~ snd ra `prefix_of` snd rb.
Proof.
  assert (Hb : buildHuffmanTree sample_items sample_freqs 5 = Done sample_tree)
    by (vm_compute; reflexivity).
  assert (Ha : path_of sample_tree 97 [0])
    by (eexists; split; [vm_compute; reflexivity | split; reflexivity]).
  assert (Hc : path_of sample_tree 99 [1; 0])
    by (eexists; split; [vm_compute; reflexivity | split; reflexivity]).
  split; [exact Hb|]. split; [exact Ha|]. split; [exact Hc|].
  destruct (prefix_free sample_items sample_freqs 5 sample_tree 97 99 [0] [1; 0]
              Hb ltac:(lia) Ha Hc) as [Hp Hcodes].
  split; [exact Hp|]. apply Hcodes. vm_compute. discriminate.
Defined.

(** C7 (as amended). The builder, given [n >= 1] symbols with their
    weights, returns a tree in which every node has two children or none,
    whose leaves are the input symbols with their weights, each once, and
    in which every node with children weighs the sum of its two children:
    the root weighs the leaf weights added bottom-up, in the order of the
    tree. That is the sum of the input weights where addition is
    associative and commutative; the addition of [double] is not, and
    there the root need not weigh what the input weights add up to. *)
Theorem tree_shape {W : Type} {weight : Weight W}
    (items : list Z) (freqs : list W) (n : Z) :
  1 <= n < 2 ^ 30 -> n <= Z.of_nat (length items) -> n <= Z.of_nat (length freqs) ->
  exists t,
    buildHuffmanTree items freqs n = Done t /\
    full t /\
    leaves t ≡ₚ zip (take (Z.to_nat n) items) (take (Z.to_nat n) freqs) /\
    sums t /\ freq t = bottom_up t /\
    ((forall x y : W, w_add x y = w_add y x) ->
     (forall x y z : W, w_add x (w_add y z) = w_add (w_add x y) z) ->
     forall z, w_add (freq t) z = fold_right w_add z (take (Z.to_nat n) freqs)).
Proof.
  intros Hn Hi Hf.
  destruct (buildHuffmanTree_spec items freqs n Hn Hi Hf) as (t & E & Hfull & Hsums & Hl).
  exists t. split; [exact E|]. split; [exact Hfull|]. split; [exact Hl|].
  split; [exact Hsums|]. split; [apply sums_bottom_up; assumption|].
  intros Hcomm Hassoc z. rewrite (sums_bottom_up t Hfull Hsums).
  rewrite (bottom_up_fold t Hassoc Hfull).
  assert (Hp : map snd (leaves t) ≡ₚ take (Z.to_nat n) freqs).
  { rewrite Hl. change (snd <$> zip (take (Z.to_nat n) items) (take (Z.to_nat n) freqs)
                        ≡ₚ take (Z.to_nat n) freqs).
    rewrite snd_zip; [reflexivity|]. rewrite !length_take. lia. }
  apply (foldr_permutation eq w_add z); [|exact Hp].
  intros j1 a1 j2 a2 c _ _ _. rewrite !Hassoc, (Hcomm a1 a2). reflexivity.
Qed.

(** The tree of the sample alphabet, on binary64; and the same symbols
    with integer weights, where the root weighs their sum, 16. *)
Lemma tree_shape_witness :
  (exists t,
     buildHuffmanTree sample_items sample_freqs 5 = Done t /\ full t /\
     leaves t ≡ₚ zip sample_items sample_freqs /\ sums t /\ freq t = bottom_up t) /\
  (exists t,
     buildHuffmanTree (weight := exact_weight) sample_items [8; 2; 4; 1; 1] 5 = Done t /\
     freq t + 0 = 16).
Proof.
  split.
  - destruct (tree_shape sample_items sample_freqs 5) as (t & E & Hf & Hl & Hs & Hb & _).
    + lia.
    + simpl. lia.
    + simpl. lia.
    + exists t. auto.
  - destruct (tree_shape (weight := exact_weight) sample_items [8; 2; 4; 1; 1] 5)
      as (t & E & _ & _ & _ & _ & Hsum).
    + lia.
    + simpl. lia.
    + simpl. lia.
    + exists t. split; [exact E|].
      apply (Hsum Z.add_comm Z.add_assoc 0).
Defined.

(** The claim as stated fails on [double]: the tree of three symbols that
    weigh 0.1, 1 and 0.7 has a root that weighs the leaf weights added
    bottom-up, (0.1 + 0.7) + 1, which is neither the input weights added
    from the left nor the input weights added from the right. *)
Lemma root_weight_not_input_sum :
  exists t,
    buildHuffmanTree uneven_items uneven_freqs 3 = Done t /\
    full t /\ sums t /\ freq t = bottom_up t /\
    freq t = PrimFloat.add (PrimFloat.add 0x1.999999999999ap-4 0x1.6666666666666p-1) 1 /\
    PrimFloat.eqb (freq t) (fold_left PrimFloat.add uneven_freqs 0%float) = false /\
    PrimFloat.eqb (freq t) (fold_right PrimFloat.add 0%float uneven_freqs) = false.
Proof.
  eexists. split; [vm_compute; reflexivity|].
  repeat split; vm_compute; reflexivity.
Qed.

(** C8. The decode loop tests for a leaf on every turn, whether or not the
    move was made; so when the root is itself a leaf, decoding writes the
    root's symbol once per input character, whatever the character. *)
Theorem decode_leaf_root {W : Type} {weight : Weight W} (root : MinHNode W) (input : list Z) :
  isLeaf root = true ->
  (forall bit, decode_step root root bit = (root, [to_uchar (item root)])) /\
  decode_loop root root input = map (fun _ => to_uchar (item root)) input.
Proof.
  intros Hroot.
  assert (Hstep : forall bit, decode_step root root bit = (root, [to_uchar (item root)])).
  { intros bit. unfold decode_step, decode_move.
    destruct root as [c f [l|] [r|]]; try discriminate. cbn [left right].
    destruct (bit =? 48), (bit =? 49); reflexivity. }
  split; [exact Hstep|].
  induction input as [|bit input IH]; [reflexivity|].
  cbn [decode_loop map]. rewrite Hstep. cbn [fst snd app]. rewrite IH. reflexivity.
Qed.

(** Three characters, one of them neither 0 nor 1, decoded against a
    one-leaf tree: three copies of its symbol. *)
Lemma decode_leaf_root_witness :
  decode_loop leaf_a leaf_a [120; 48; 49] = [97; 97; 97].
Proof. exact (proj2 (decode_leaf_root leaf_a [120; 48; 49] eq_refl)). Defined.

(** C9. For every 128-entry probability table the code listing is made of
    128 lines, one per symbol in ascending order: for each of the 95
    symbols 32..126 the bit path of that symbol, as characters 0 and 1,
    and for each of the other 33 the text No code. *)
Theorem code_listing {W : Type} {weight : Weight W} (P : list W) :
  length P = 128%nat ->
  exists t lines,
    buildHuffmanTree ascii_characters P ASCII_SIZE = Done t /\
    generateAndPrintHuffmanCodes P = Done (concat lines) /\
    length lines = 128%nat /\
    (forall c, 0 <= c < 128 ->
       exists line, lines !! Z.to_nat c = Some line /\
         if printable c
         then exists path, path_of t c path /\
                           Forall (fun b => b = 0 \/ b = 1) path /\
                           line = map (Z.add 48) path ++ [NEWLINE]
         else line = bytes_of "No code" ++ [NEWLINE]) /\
    length (List.filter printable ascii_characters) = 95%nat /\
    length (List.filter (fun c => negb (printable c)) ascii_characters) = 33%nat.
Proof.
  intros HP.
  destruct (ascii_tree P ltac:(lia)) as (t & E & Hf & Hs & Hl & Hitems & Hroot & Hh).
  exists t, (map (listing_line t) ascii_characters).
  split; [exact E|]. split; [|split; [|split; [|split; reflexivity]]].
  - unfold generateAndPrintHuffmanCodes, readProbabilitiesFromFile.
    change (Z.to_nat ASCII_SIZE) with 128%nat.
    rewrite readProbabilities_loop_Done by lia. cbn [bind].
    rewrite take_ge by lia. rewrite E. cbn [bind].
    exact (listing_loop_spec t ascii_characters 128 0 ltac:(lia) ltac:(simpl; lia)).
  - rewrite length_map. reflexivity.
  - intros c Hc.
    assert (Hc' : ascii_characters !! Z.to_nat c = Some c).
    { rewrite ascii_characters_eq. change (map Z.of_nat (seq 0 128)) with (Z.of_nat <$> seq 0 128).
      rewrite list_lookup_fmap, lookup_seq_lt by lia. simpl. f_equal. lia. }
    exists (listing_line t c). split.
    + change (map (listing_line t) ascii_characters) with (listing_line t <$> ascii_characters).
      rewrite list_lookup_fmap, Hc'. reflexivity.
    + unfold listing_line. destruct (printable c); [|reflexivity].
      assert (Hnd : NoDup (map fst (leaves t))).
      { rewrite Hitems. apply ascii_characters_NoDup. }
      assert (Hin : In c (map fst (leaves t))).
      { apply list_elem_of_In. rewrite Hitems. apply list_elem_of_In.
        apply ascii_characters_In. lia. }
      destruct (paths_to_unique t c Hnd Hin) as (path & Hp).
      assert (Hpath : path_of t c path)
        by (apply paths_to_path_of; rewrite Hp; left; reflexivity).
      assert (Hbits : Forall (fun b => b = 0 \/ b = 1) path).
      { destruct Hpath as (lf & Hw & _). apply (walk_bits path t lf Hw). }
      exists path. split; [exact Hpath|]. split; [exact Hbits|].
      rewrite Hp. cbn [map concat]. rewrite app_nil_r. unfold path_text.
      rewrite flat_map_fprintf_d by exact Hbits. reflexivity.
Qed.

(** The listing for the table of the text aaab. *)
Lemma code_listing_witness :
  exists lines,
    generateAndPrintHuffmanCodes aaab_table = Done (concat lines) /\
    length lines = 128%nat.
Proof.
  destruct (code_listing aaab_table eq_refl) as (t & lines & _ & E & Hl & _).
  exists lines. auto.
Defined.

(** C10. [getFreq] indexes the 128-entry table with each byte read. When
    every byte of the file lies in 0..127 no index falls outside the table,
    and the count is returned (the file holding fewer than 2^31 bytes); a
    byte of 128 or more after such bytes makes the index fall outside the
    table. *)
Theorem getFreq_index (f : list Z) (data : ProbabilityData) :
  length (frequencies data) = 128%nat ->
  Forall (fun b => 0 <= b <= 127) f ->
  (forall i, getFreq f data <> Undefined (OutOfBounds i)) /\
  (Z.of_nat (length f) <= INT_MAX ->
   (exists data', getFreq f data = Done (Z.of_nat (length f), data')) /\
   (forall b rest, 128 <= b ->
      getFreq (f ++ b :: rest) data = Undefined (OutOfBounds b))).
Proof.
  intros Hd Hf. unfold getFreq, initializeProb.
  pose proof (initializeProb_loop_spec 128 [] (frequencies data) Hd) as Ei.
  cbn [app length] in Ei. change (Z.of_nat 0) with 0 in Ei.
  change (Z.to_nat ASCII_SIZE) with 128%nat.
  rewrite Ei. cbn [bind frequencies].
  change (replicate 128 (Some 0)) with (Some <$> replicate 128 0).
  split; [|intros Hmax; split].
  - intros i.
    pose proof (getFreq_loop_in_range f (replicate 128 0) 0 eq_refl Hf i) as Hin.
    destruct (getFreq_loop f (Some <$> replicate 128 0) 0) as [r|flt|s];
      cbn [bind]; congruence.
  - destruct (getFreq_loop_spec f (replicate 128 0) 0) as (vs' & E & _);
      [reflexivity | exact Hf | lia | lia |].
    rewrite E. cbn [bind fst snd]. eexists. f_equal. f_equal.
    apply to_unsigned_small. unfold INT_MAX in Hmax. lia.
  - intros b rest Hb.
    rewrite (getFreq_loop_out_of_range f (replicate 128 0) 0 b rest); auto; lia.
Qed.

(** The text aaab is counted; followed by the byte 200 it makes the index
    leave the table. *)
Lemma getFreq_index_witness :
  (exists data', getFreq [97; 97; 97; 98] fresh_data = Done (4, data')) /\
  getFreq [97; 97; 97; 98; 200] fresh_data = Undefined (OutOfBounds 200).
Proof.
  destruct (getFreq_index [97; 97; 97; 98] fresh_data) as [_ H].
  - reflexivity.
  - repeat constructor; lia.
  - destruct H as [Hd Hu]; [vm_compute; discriminate|].
    split; [exact Hd|]. apply (Hu 200 []). lia.
Defined.

(** * Further properties of the code *)

(** ** The heap as a priority queue *)

Section HeapQueue.

Context {W : Type} {weight : Weight W} (w_le : W -> W -> bool) (ok : W -> Prop)
        {order : WeightOrder weight w_le ok}.

(** Emptying a heap in order by [extractMin] gives its nodes in
    nondecreasing order of weight. *)
Lemma extract_all_ascending n : forall ns h,
  length ns = n ->
  heap_cells h ns -> Forall (fun t => ok (freq t)) ns -> heap_ordered w_le h ->
  exists out, extract_all n h = Done out /\ out ≡ₚ ns /\ ascending w_le out.
Proof.
  induction n as [|n IH]; intros ns h Hn Hh Hok Hord.
  - destruct ns; [|discriminate]. exists []. split; [reflexivity|].
    split; [reflexivity|]. intros i j x y _ Hx. rewrite lookup_nil in Hx. discriminate.
  - pose proof (heap_cells_length h ns Hh) as Hs.
    destruct (extractMin_cells h ns Hh ltac:(lia)) as (x & h1 & ns1 & E1 & Hx & Hh1 & Hp1 & _).
    pose proof (extractMin_order w_le ok h ns (x, h1) Hh Hok ltac:(lia) Hord E1) as Hord1.
    cbn [snd] in Hord1.
    assert (Hok1 : Forall (fun t => ok (freq t)) (x :: ns1)) by (rewrite <- Hp1; exact Hok).
    inversion Hok1 as [|? ? Hokx Hok1']; subst.
    assert (Hn1 : length ns1 = n).
    { apply Permutation_length in Hp1. simpl in Hp1. lia. }
    destruct (IH ns1 h1 Hn1 Hh1 Hok1' Hord1) as (out & E & Hp & Hasc).
    exists (x :: out). cbn [extract_all]. rewrite E1. cbn [bind fst snd]. rewrite E.
    cbn [bind]. split; [reflexivity|]. split; [rewrite Hp1, Hp; reflexivity|].
    intros i j a b Hij Ha Hb. destruct i as [|i].
    + simpl in Ha. inversion Ha; subst a.
      apply (heap_root_min w_le ok h ns x Hh Hok Hord Hx).
      apply list_elem_of_In. rewrite Hp1, <- Hp. apply list_elem_of_lookup. eauto.
    + destruct j as [|j]; [lia|]. simpl in Ha, Hb.
      apply (Hasc i j a b); auto. lia.
Qed.

End HeapQueue.

(** X1. Heap sort: the heap [createAndBuildMinHeap] builds from [n]
    symbols and weights, emptied by [n] calls of [extractMin], gives the
    [n] nodes of the input, each once, in nondecreasing order of weight. *)
Theorem heap_sort {W : Type} {weight : Weight W}
    (w_le : W -> W -> bool) (ok : W -> Prop) {order : WeightOrder weight w_le ok}
    (items : list Z) (freqs : list W) (n : Z) :
  0 <= n < 2 ^ 30 ->
  n <= Z.of_nat (length items) -> n <= Z.of_nat (length freqs) ->
  Forall ok (take (Z.to_nat n) freqs) ->
  exists h out,
    createAndBuildMinHeap items freqs n = Done h /\
    extract_all (Z.to_nat n) h = Done out /\
    out ≡ₚ zip_with newNode (take (Z.to_nat n) items) (take (Z.to_nat n) freqs) /\
    ascending w_le out.
Proof.
  intros Hn Hi Hf Hok.
  destruct (createAndBuildMinHeap_unfold items freqs n Hn Hi Hf) as [Eu Hh0].
  assert (Hok0 : Forall (fun t => ok (freq t))
                   (zip_with newNode (take (Z.to_nat n) items) (take (Z.to_nat n) freqs)))
    by (apply (Forall_newNode_ok ok); exact Hok).
  destruct (buildMinHeap_cells _ _ Hh0) as (h & ns & E & Hh & Hp & _).
  pose proof (buildMinHeap_order w_le ok _ _ _ Hh0 Hok0 E) as Hord.
  assert (Hlen : length ns = Z.to_nat n).
  { rewrite (Permutation_length Hp), length_zip_with, !length_take. lia. }
  destruct (extract_all_ascending w_le ok (Z.to_nat n) ns h Hlen Hh
              ltac:(rewrite Hp; exact Hok0) Hord) as (out & Eo & Hpo & Hasc).
  exists h, out. rewrite Eu. split; [exact E|]. split; [exact Eo|].
  split; [rewrite Hpo; exact Hp | exact Hasc].
Qed.

(** The five symbols of the sample alphabet come out lightest first. *)
Lemma heap_sort_witness :
  exists h out,
    createAndBuildMinHeap sample_items sample_freqs 5 = Done h /\
    extract_all 5 h = Done out /\
    out ≡ₚ zip_with newNode sample_items sample_freqs /\
    ascending PrimFloat.leb out.
Proof.
  apply (heap_sort PrimFloat.leb float_ok sample_items sample_freqs 5).
  - lia.
  - simpl. lia.
  - simpl. lia.
  - exact sample_freqs_ok.
Defined.

(** X2. [insertMinHeap] has no capacity check: on a heap whose [size] has
    reached its [capacity] it writes [array[capacity]], the cell after the
    last one of the storage. *)
Theorem insertMinHeap_overflows {W : Type} {weight : Weight W}
    (h : MinHeap W) (ns : list (MinHNode W)) (node : MinHNode W) :
  heap_cells h ns -> size h = capacity h ->
  insertMinHeap h node = Undefined (OutOfBounds (capacity h)).
Proof.
  intros Hh Hs. pose proof (heap_cells_size h ns Hh) as Hsz.
  pose proof Hh as (_ & Hc & _).
  assert (Hwr : forall x, wr (array h) (size h) x = Undefined (OutOfBounds (size h))).
  { intros x. unfold wr. destruct (Z.ltb_spec (size h) (Z.of_nat (length (array h))));
      [lia|]. rewrite andb_false_r. reflexivity. }
  unfold insertMinHeap. rewrite to_unsigned_small by lia.
  replace (size h + 1 - 1) with (size h) by lia. rewrite to_int_small by lia.
  cbn [insert_loop]. destruct (Z.eqb_spec (size h) 0) as [E|E].
  - cbn [bind fst snd]. rewrite E in *. rewrite Hwr. cbn [bind]. rewrite <- Hs. reflexivity.
  - assert (Hpar : 0 <= Z.quot (size h - 1) 2 < size h).
    { pose proof (Z.quot_pos (size h - 1) 2 ltac:(lia) ltac:(lia)).
      pose proof (Z.quot_lt (size h - 1) 2). destruct (Z.eq_dec (size h) 1) as [E1|E1].
      - rewrite E1. change (Z.quot (1 - 1) 2) with 0. lia.
      - lia. }
    destruct (heap_cells_cell h ns _ Hh Hpar) as (p & Hp & _).
    apply rd_Done in Hp. rewrite Hp. cbn [bind].
    destruct (w_lt (freq node) (freq p)); rewrite ?Hwr; cbn [bind fst snd];
      rewrite ?Hwr; cbn [bind]; rewrite <- Hs; reflexivity.
Qed.

(** The sample heap holds five nodes in storage for five. *)
Lemma insertMinHeap_overflows_witness :
  insertMinHeap sample_heap (newNode 120 0.375%float) = Undefined (OutOfBounds 5).
Proof.
  apply (insertMinHeap_overflows sample_heap sample_nodes (newNode 120 0.375%float)).
  - exact sample_heap_cells.
  - reflexivity.
Defined.

(** X3. Priority queue: [insertMinHeap] on a heap in order with room left,
    followed by [extractMin], hands out a node that weighs no more than
    the new node and than any node the heap held; the new node and the
    nodes the heap held, less the node handed out, are the nodes it holds
    afterwards, its [size] and [capacity] are what they were and it is in
    order. *)
Theorem insert_then_extractMin {W : Type} {weight : Weight W}
    (w_le : W -> W -> bool) (ok : W -> Prop) {order : WeightOrder weight w_le ok}
    (h : MinHeap W) (ns : list (MinHNode W)) (node : MinHNode W) :
  heap_cells h ns -> Forall (fun t => ok (freq t)) ns -> ok (freq node) ->
  heap_ordered w_le h -> size h < capacity h ->
  exists h1 x h2 ns2,
    insertMinHeap h node = Done h1 /\ extractMin h1 = Done (x, h2) /\
    node :: ns ≡ₚ x :: ns2 /\ heap_cells h2 ns2 /\
    (forall y, In y (node :: ns) -> w_le (freq x) (freq y) = true) /\
    size h2 = size h /\ capacity h2 = capacity h /\ heap_ordered w_le h2.
Proof.
  intros Hh Hok Hnode Hord Hroom.
  destruct (insertMinHeap_cells h ns node Hh Hroom) as (h1 & ns1 & E1 & Hh1 & Hp1 & Hc1).
  pose proof (insertMinHeap_order w_le ok h ns node h1 Hh Hok Hnode Hroom Hord E1) as Hord1.
  assert (Hok1 : Forall (fun t => ok (freq t)) ns1) by (rewrite Hp1; constructor; auto).
  pose proof (heap_cells_length h ns Hh) as Hs.
  pose proof (heap_cells_length h1 ns1 Hh1) as Hs1.
  pose proof (Permutation_length Hp1) as Hl1. simpl in Hl1.
  destruct (extractMin_cells h1 ns1 Hh1 ltac:(lia)) as (x & h2 & ns2 & E2 & Hx & Hh2 & Hp2 & Hc2).
  pose proof (extractMin_order w_le ok h1 ns1 (x, h2) Hh1 Hok1 ltac:(lia) Hord1 E2) as Hord2.
  exists h1, x, h2, ns2. split; [exact E1|]. split; [exact E2|].
  split; [rewrite <- Hp1; exact Hp2|]. split; [exact Hh2|]. split; [|split; [|split]].
  - intros y Hy. apply (heap_root_min w_le ok h1 ns1 x Hh1 Hok1 Hord1 Hx).
    apply list_elem_of_In. rewrite Hp1. apply list_elem_of_In. exact Hy.
  - pose proof (heap_cells_length h2 ns2 Hh2) as Hs2.
    pose proof (Permutation_length Hp2) as Hl2. simpl in Hl2. lia.
  - congruence.
  - exact Hord2.
Qed.

(** The heap of the sample alphabet less its lightest node. *)
Lemma roomy_heap_cells : heap_cells roomy_heap roomy_nodes.
Proof.
  split; [reflexivity|]. split; [reflexivity|]. split; [reflexivity|].
  eexists. reflexivity.
Defined.

Lemma roomy_heap_ordered : heap_ordered PrimFloat.leb roomy_heap.
Proof.
  destruct (heap_start_inv PrimFloat.leb float_ok sample_heap sample_heap_start)
    as (ns & Hh & Hok & Hord).
  assert (E : exists x, extractMin sample_heap = Done (x, roomy_heap))
    by (eexists; vm_compute; reflexivity).
  destruct E as [x E].
  apply (extractMin_order PrimFloat.leb float_ok sample_heap ns (x, roomy_heap) Hh Hok
           ltac:(simpl; lia) Hord E).
Qed.

(** A node lighter than all four is inserted and comes out again. *)
Lemma insert_then_extractMin_witness :
  exists h1 x h2 ns2,
    insertMinHeap roomy_heap (newNode 120 0.03125%float) = Done h1 /\
    extractMin h1 = Done (x, h2) /\
    newNode 120 0.03125%float :: roomy_nodes ≡ₚ x :: ns2 /\ heap_cells h2 ns2 /\
    (forall y, In y (newNode 120 0.03125%float :: roomy_nodes) ->
               PrimFloat.leb (freq x) (freq y) = true) /\
    size h2 = 4 /\ capacity h2 = 5 /\ heap_ordered PrimFloat.leb h2.
Proof.
  apply (insert_then_extractMin PrimFloat.leb float_ok roomy_heap roomy_nodes
           (newNode 120 0.03125%float)).
  - exact roomy_heap_cells.
  - repeat constructor.
  - reflexivity.
  - exact roomy_heap_ordered.
  - simpl. lia.
Defined.

(** ** The code array of the traversals *)

Section TraverseProofs.

Context {W : Type} {weight : Weight W}.
Implicit Types (t : MinHNode W) (arr : list (option Z)) (acc path : list Z).

Lemma printHCodeForCharacter_traverse t : forall target pn arr top,
  printHCodeForCharacter t target arr top pn = traverse (act_character target pn) t arr top.
Proof.
  induction t as [c f l r IHl IHr] using tree_ind. intros target pn arr top.
  cbn [printHCodeForCharacter traverse].
  assert (El : match l with
               | Some l0 => arr' <- wr arr top 0 ;; t1 <- int_arith (top + 1) ;;
                            printHCodeForCharacter l0 target arr' t1 pn
               | None => Done (arr, [])
               end
             = match l with
               | Some l0 => arr' <- wr arr top 0 ;; t1 <- int_arith (top + 1) ;;
                            traverse (act_character target pn) l0 arr' t1
               | None => Done (arr, [])
               end).
  { destruct l as [l0|]; [|reflexivity].
    destruct (wr arr top 0); cbn [bind]; try reflexivity.
    destruct (int_arith (top + 1)); cbn [bind]; try reflexivity.
    apply (IHl l0 eq_refl). }
  rewrite El. clear El.
  destruct (match l with Some _ => _ | None => _ end) as [r1| |]; cbn [bind]; try reflexivity.
  assert (Er : match r with
               | Some r0 => arr' <- wr (fst r1) top 1 ;; t1 <- int_arith (top + 1) ;;
                            printHCodeForCharacter r0 target arr' t1 pn
               | None => Done (fst r1, [])
               end
             = match r with
               | Some r0 => arr' <- wr (fst r1) top 1 ;; t1 <- int_arith (top + 1) ;;
                            traverse (act_character target pn) r0 arr' t1
               | None => Done (fst r1, [])
               end).
  { destruct r as [r0|]; [|reflexivity].
    destruct (wr (fst r1) top 1); cbn [bind]; try reflexivity.
    destruct (int_arith (top + 1)); cbn [bind]; try reflexivity.
    apply (IHr r0 eq_refl). }
  rewrite Er. clear Er.
  destruct (match r with Some _ => _ | None => _ end) as [r2| |]; cbn [bind]; reflexivity.
Qed.

Lemma printHCodes_traverse t : forall arr top,
  printHCodes t arr top = traverse act_codes t arr top.
Proof.
  induction t as [c f l r IHl IHr] using tree_ind. intros arr top.
  cbn [printHCodes traverse].
  assert (El : match l with
               | Some l0 => arr' <- wr arr top 0 ;; t1 <- int_arith (top + 1) ;;
                            printHCodes l0 arr' t1
               | None => Done (arr, [])
               end
             = match l with
               | Some l0 => arr' <- wr arr top 0 ;; t1 <- int_arith (top + 1) ;;
                            traverse act_codes l0 arr' t1
               | None => Done (arr, [])
               end).
  { destruct l as [l0|]; [|reflexivity].
    destruct (wr arr top 0); cbn [bind]; try reflexivity.
    destruct (int_arith (top + 1)); cbn [bind]; try reflexivity.
    apply (IHl l0 eq_refl). }
  rewrite El. clear El.
  destruct (match l with Some _ => _ | None => _ end) as [r1| |]; cbn [bind]; try reflexivity.
  assert (Er : match r with
               | Some r0 => arr' <- wr (fst r1) top 1 ;; t1 <- int_arith (top + 1) ;;
                            printHCodes r0 arr' t1
               | None => Done (fst r1, [])
               end
             = match r with
               | Some r0 => arr' <- wr (fst r1) top 1 ;; t1 <- int_arith (top + 1) ;;
                            traverse act_codes r0 arr' t1
               | None => Done (fst r1, [])
               end).
  { destruct r as [r0|]; [|reflexivity].
    destruct (wr (fst r1) top 1); cbn [bind]; try reflexivity.
    destruct (int_arith (top + 1)); cbn [bind]; try reflexivity.
    apply (IHr r0 eq_refl). }
  rewrite Er. clear Er.
  destruct (match r with Some _ => _ | None => _ end) as [r2| |]; cbn [bind]; reflexivity.
Qed.

Section Generic.

Variable act : MinHNode W -> list (option Z) -> Z -> outcome (list Z).
Variable text : MinHNode W -> list Z -> list Z.
Hypothesis act_text : forall n acc rest,
  act n ((Some <$> acc) ++ rest) (Z.of_nat (length acc)) = Done (text n acc).

(** A walk that finds a cell of [arr] for every level of the tree returns. *)
Lemma traverse_fits t : forall acc rest,
  Z.of_nat (length acc) + height t <= Z.of_nat (length acc + length rest) ->
  Z.of_nat (length acc + length rest) <= INT_MAX ->
  exists rest',
    traverse act t ((Some <$> acc) ++ rest) (Z.of_nat (length acc))
    = Done ((Some <$> acc) ++ rest', visit text t acc) /\
    length rest' = length rest.
Proof.
  induction t as [c f l r IHl IHr] using tree_ind; intros acc rest Hh Hmax.
  assert (Hchild : forall (child : MinHNode W) (b : Z) rest0,
            (forall acc rest,
                Z.of_nat (length acc) + height child <= Z.of_nat (length acc + length rest) ->
                Z.of_nat (length acc + length rest) <= INT_MAX ->
                exists rest',
                  traverse act child ((Some <$> acc) ++ rest) (Z.of_nat (length acc))
                  = Done ((Some <$> acc) ++ rest', visit text child acc) /\
                  length rest' = length rest) ->
            Z.of_nat (length acc) + (1 + height child) <= Z.of_nat (length acc + length rest) ->
            length rest0 = length rest ->
            exists rest',
              (arr' <- wr ((Some <$> acc) ++ rest0) (Z.of_nat (length acc)) b ;;
               t1 <- int_arith (Z.of_nat (length acc) + 1) ;;
               traverse act child arr' t1)
              = Done ((Some <$> acc) ++ rest', visit text child (acc ++ [b])) /\
              length rest' = length rest).
  { intros child b rest0 IH Hc Hl0. pose proof (height_nonneg child).
    destruct rest0 as [|c0 rest1]; [simpl in Hl0; lia|].
    rewrite wr_in_bounds by (rewrite length_app, length_fmap; simpl; lia). cbn [bind].
    rewrite int_arith_Done by (unfold INT_MIN, INT_MAX in *; lia). cbn [bind].
    rewrite Nat2Z.id, insert_back.
    destruct (IH (acc ++ [b]) rest1) as (rest' & E & Hl');
      [rewrite length_app; simpl in *; lia | rewrite length_app; simpl in *; lia |].
    rewrite length_app in E. cbn [length] in E.
    replace (Z.of_nat (length acc) + 1) with (Z.of_nat (length acc + 1)) by lia.
    rewrite E. exists (Some b :: rest'). split; [|simpl in *; lia].
    f_equal. f_equal. rewrite fmap_app, <- app_assoc. reflexivity. }
  cbn [traverse visit].
  assert (Hl : exists rest1,
            match l with
            | Some l0 =>
                arr' <- wr ((Some <$> acc) ++ rest) (Z.of_nat (length acc)) 0 ;;
                t1 <- int_arith (Z.of_nat (length acc) + 1) ;;
                traverse act l0 arr' t1
            | None => Done ((Some <$> acc) ++ rest, [])
            end
            = Done ((Some <$> acc) ++ rest1,
                    match l with
                    | Some l' => visit text l' (acc ++ [0])
                    | None => []
                    end) /\ length rest1 = length rest).
  { destruct l as [l0|]; [|exists rest; auto].
    apply Hchild; auto. cbn [height] in Hh. lia. }
  destruct Hl as (rest1 & El & Hl1). rewrite El. cbn [bind fst snd].
  assert (Hr : exists rest2,
            match r with
            | Some r0 =>
                arr' <- wr ((Some <$> acc) ++ rest1) (Z.of_nat (length acc)) 1 ;;
                t1 <- int_arith (Z.of_nat (length acc) + 1) ;;
                traverse act r0 arr' t1
            | None => Done ((Some <$> acc) ++ rest1, [])
            end
            = Done ((Some <$> acc) ++ rest2,
                    match r with
                    | Some r' => visit text r' (acc ++ [1])
                    | None => []
                    end) /\ length rest2 = length rest).
  { destruct r as [r0|]; [|exists rest1; auto].
    apply Hchild; auto. cbn [height] in Hh. lia. }
  destruct Hr as (rest2 & Er & Hl2). rewrite Er. cbn [bind fst snd].
  exists rest2. split; [|exact Hl2].
  rewrite act_text. cbn [bind]. reflexivity.
Qed.

(** A walk over a tree with more levels than [arr] has cells writes the
    cell after the last one. *)
Lemma traverse_overflows t : forall acc rest,
  Z.of_nat (length acc + length rest) < Z.of_nat (length acc) + height t ->
  Z.of_nat (length acc + length rest) <= INT_MAX ->
  traverse act t ((Some <$> acc) ++ rest) (Z.of_nat (length acc))
  = Undefined (OutOfBounds (Z.of_nat (length acc + length rest))).
Proof.
  induction t as [c f l r IHl IHr] using tree_ind; intros acc rest Hh Hmax.
  assert (Hchild : forall (child : MinHNode W) (b : Z) rest0,
            (forall acc rest,
                Z.of_nat (length acc + length rest) < Z.of_nat (length acc) + height child ->
                Z.of_nat (length acc + length rest) <= INT_MAX ->
                traverse act child ((Some <$> acc) ++ rest) (Z.of_nat (length acc))
                = Undefined (OutOfBounds (Z.of_nat (length acc + length rest)))) ->
            Z.of_nat (length acc + length rest) < Z.of_nat (length acc) + (1 + height child) ->
            length rest0 = length rest ->
            (arr' <- wr ((Some <$> acc) ++ rest0) (Z.of_nat (length acc)) b ;;
             t1 <- int_arith (Z.of_nat (length acc) + 1) ;;
             traverse act child arr' t1)
            = Undefined (OutOfBounds (Z.of_nat (length acc + length rest)))).
  { intros child b rest0 IH Hc Hl0.
    destruct rest0 as [|c0 rest1].
    - rewrite app_nil_r. unfold wr. rewrite length_fmap.
      rewrite Z.ltb_irrefl, andb_false_r. cbn [bind]. simpl in Hl0.
      rewrite <- Hl0, Nat.add_0_r. reflexivity.
    - rewrite wr_in_bounds by (rewrite length_app, length_fmap; simpl; lia). cbn [bind].
      rewrite int_arith_Done by (unfold INT_MIN, INT_MAX in *; simpl in Hl0; lia).
      cbn [bind]. rewrite Nat2Z.id, insert_back.
      replace (Z.of_nat (length acc) + 1) with (Z.of_nat (length (acc ++ [b])))
        by (rewrite length_app; simpl; lia).
      rewrite IH.
      + rewrite length_app. simpl in *. do 2 f_equal. lia.
      + rewrite length_app. simpl in *. lia.
      + rewrite length_app. simpl in *. lia. }
  cbn [traverse]. cbn [height] in Hh.
  destruct l as [l0|].
  - destruct (Z.le_gt_cases (Z.of_nat (length acc) + (1 + height l0))
                            (Z.of_nat (length acc + length rest))) as [Hfit|Hdeep].
    + pose proof (height_nonneg l0).
      destruct rest as [|c0 rest1]; [simpl in Hfit; lia|].
      rewrite wr_in_bounds by (rewrite length_app, length_fmap; simpl; lia). cbn [bind].
      rewrite int_arith_Done by (unfold INT_MIN, INT_MAX in *; simpl in Hmax; lia).
      cbn [bind]. rewrite Nat2Z.id, insert_back.
      destruct (traverse_fits l0 (acc ++ [0]) rest1) as (rest' & E & Hl');
        [rewrite length_app; simpl in *; lia | rewrite length_app; simpl in *; lia |].
      rewrite length_app in E. cbn [length] in E.
      replace (Z.of_nat (length acc) + 1) with (Z.of_nat (length acc + 1)) by lia.
      rewrite E. cbn [bind fst snd].
      destruct r as [r0|]; [|cbn [length] in *; lia].
      rewrite fmap_app, <- app_assoc. cbn [fmap list_fmap app].
      replace (Z.of_nat (length acc + 1)) with (Z.of_nat (length acc) + 1) by lia.
      pose proof (Hchild r0 1 (Some 0 :: rest') (IHr r0 eq_refl)
                    ltac:(cbn [length] in *; lia) ltac:(cbn [length] in *; lia)) as Hr.
      rewrite int_arith_Done in Hr by (unfold INT_MIN, INT_MAX in *; cbn [length] in *; lia).
      destruct (wr ((Some <$> acc) ++ Some 0 :: rest') (Z.of_nat (length acc)) 1);
        cbn [bind] in Hr |- *; [rewrite Hr; reflexivity | congruence | discriminate].
    + rewrite (Hchild l0 0 rest (IHl l0 eq_refl)); [reflexivity | lia | reflexivity].
  - cbn [bind fst snd]. destruct r as [r0|]; [|lia].
    rewrite (Hchild r0 1 rest (IHr r0 eq_refl)); [reflexivity | lia | reflexivity].
Qed.

End Generic.

Lemma act_character_text target pn (n : MinHNode W) acc rest :
  act_character target pn n ((Some <$> acc) ++ rest) (Z.of_nat (length acc))
  = Done (if isLeaf n && (item n =? target) then path_text pn acc else []).
Proof.
  unfold act_character. destruct (isLeaf n && (item n =? target)); [|reflexivity].
  apply printArray_spec.
Qed.

Lemma act_codes_text (n : MinHNode W) acc rest :
  act_codes n ((Some <$> acc) ++ rest) (Z.of_nat (length acc))
  = Done (if isLeaf n then code_line (item n, acc) else []).
Proof.
  unfold act_codes, code_line, printable. cbn [fst snd].
  destruct (isLeaf n); [|reflexivity].
  destruct ((32 <=? item n) && (item n <=? 126)); [|reflexivity].
  apply printArray_spec.
Qed.

Lemma visit_leaf_codes t : forall acc,
  visit (fun n acc => if isLeaf n then code_line (item n, acc) else []) t acc
  = concat (map (fun cp => code_line (fst cp, acc ++ snd cp)) (leaf_codes t)).
Proof.
  induction t as [c f l r IHl IHr] using tree_ind. intros acc.
  cbn [visit leaf_codes]. rewrite !map_app, !concat_app. f_equal; [|f_equal].
  - destruct l as [l0|]; [|reflexivity]. rewrite (IHl l0 eq_refl).
    rewrite map_map. f_equal. apply map_ext. intros [c0 p]. cbn [fst snd].
    rewrite <- app_assoc. reflexivity.
  - destruct r as [r0|]; [|reflexivity]. rewrite (IHr r0 eq_refl).
    rewrite map_map. f_equal. apply map_ext. intros [c0 p]. cbn [fst snd].
    rewrite <- app_assoc. reflexivity.
  - destruct (isLeaf (mkNode c f l r)); cbn [map concat item fst snd];
      rewrite ?app_nil_r; reflexivity.
Qed.

Lemma leaf_codes_leaves t : map fst (leaf_codes t) = map fst (leaves t).
Proof.
  induction t as [c f l r IHl IHr] using tree_ind.
  destruct (isLeaf (mkNode c f l r)) eqn:Elf.
  - destruct l, r; simpl in Elf; try discriminate. reflexivity.
  - rewrite leaves_node by exact Elf. cbn [leaf_codes]. rewrite Elf, app_nil_r, !map_app.
    f_equal.
    + destruct l as [l0|]; [|reflexivity]. rewrite map_map. cbn [fst].
      apply (IHl l0 eq_refl).
    + destruct r as [r0|]; [|reflexivity]. rewrite map_map. cbn [fst].
      apply (IHr r0 eq_refl).
Qed.

Lemma leaf_codes_path_of t : forall c p, In (c, p) (leaf_codes t) -> path_of t c p.
Proof.
  induction t as [c0 f l r IHl IHr] using tree_ind. intros c p.
  cbn [leaf_codes]. rewrite !in_app_iff. intros [Hin|[Hin|Hin]].
  - destruct l as [l0|]; [|destruct Hin].
    apply in_map_iff in Hin as ([c1 p1] & E & Hp). cbn [fst snd] in E. inversion E; subst.
    destruct (IHl l0 eq_refl c p1 Hp) as (lf & Hw & Hlf).
    exists lf. split; [exact Hw | exact Hlf].
  - destruct r as [r0|]; [|destruct Hin].
    apply in_map_iff in Hin as ([c1 p1] & E & Hp). cbn [fst snd] in E. inversion E; subst.
    destruct (IHr r0 eq_refl c p1 Hp) as (lf & Hw & Hlf).
    exists lf. split; [exact Hw | exact Hlf].
  - destruct (isLeaf (mkNode c0 f l r)) eqn:Elf; [|destruct Hin].
    destruct Hin as [E|[]]. inversion E; subst.
    exists (mkNode c f l r). split; [reflexivity|]. split; [exact Elf | reflexivity].
Qed.

End TraverseProofs.

(** X4. The empty alphabet: with [size] 0 the builder calls [extractMin]
    on the empty heap it has made, which reads [array[0]] of storage of no
    cell; so do [buildHuffmanTree] and [HuffmanCodes], whatever the two
    arrays hold. *)
Theorem empty_alphabet {W : Type} {weight : Weight W} (items : list Z) (freqs : list W) :
  buildHuffmanTree items freqs 0 = Undefined (OutOfBounds 0) /\
  HuffmanCodes items freqs 0 = Undefined (OutOfBounds 0).
Proof. split; reflexivity. Qed.

(** X5. The code array of 128 cells: on a tree of height at most 128
    [printHCodeForCharacter] returns, having written the paths to the
    leaves that hold the target; on a higher tree it writes [arr[128]],
    the cell after the last one, whatever the target, and so does the loop
    of [encodeFile] at the first byte it reads. *)
Theorem code_array_bound {W : Type} {weight : Weight W}
    (t : MinHNode W) (target printNewline : Z) :
  (height t <= 128 ->
   exists arr,
     printHCodeForCharacter t target fresh_arr 0 printNewline
     = Done (arr, concat (map (path_text printNewline) (paths_to t target)))) /\
  (128 < height t ->
   printHCodeForCharacter t target fresh_arr 0 printNewline = Undefined (OutOfBounds 128) /\
   forall ch B, encode_loop t (ch :: B) = Undefined (OutOfBounds 128)).
Proof.
  split.
  - intros Hh.
    destruct (printHCodeForCharacter_spec t target printNewline [] fresh_arr)
      as (rest' & E & _); [simpl; lia | unfold INT_MAX; simpl; lia |].
    exists rest'. exact E.
  - intros Hh.
    assert (Hov : forall target pn,
              printHCodeForCharacter t target fresh_arr 0 pn = Undefined (OutOfBounds 128)).
    { intros tg pn. rewrite printHCodeForCharacter_traverse.
      apply (traverse_overflows (act_character tg pn) _ (act_character_text tg pn)
               t [] fresh_arr); [simpl; lia | unfold INT_MAX; simpl; lia]. }
    split; [apply Hov|]. intros ch B. cbn [encode_loop]. rewrite Hov. reflexivity.
Qed.

(** The tree of the 130 symbols has height 129. *)
Lemma code_array_bound_witness :
  printHCodeForCharacter deep_tree 97 fresh_arr 0 0 = Undefined (OutOfBounds 128) /\
  encode_loop deep_tree [97] = Undefined (OutOfBounds 128).
Proof.
  destruct (code_array_bound deep_tree 97 0) as [_ H].
  destruct H as [H1 H2]; [vm_compute; reflexivity|].
  split; [exact H1 | exact (H2 97 [])].
Defined.

(** X6. [HuffmanCodes] on 1 to 129 symbols returns, and writes one line
    for each leaf of the tree, from left to right: the bit path of the
    leaf when its symbol is one of 32..126, the text No code otherwise.
    The leaves hold the symbols of the input, each as often as the input
    does. *)
Theorem HuffmanCodes_listing {W : Type} {weight : Weight W}
    (items : list Z) (freqs : list W) (n : Z) :
  1 <= n <= 129 ->
  n <= Z.of_nat (length items) -> n <= Z.of_nat (length freqs) ->
  exists t,
    buildHuffmanTree items freqs n = Done t /\
    HuffmanCodes items freqs n = Done (concat (map code_line (leaf_codes t))) /\
    length (leaf_codes t) = Z.to_nat n /\
    map fst (leaf_codes t) ≡ₚ take (Z.to_nat n) items /\
    (forall c p, In (c, p) (leaf_codes t) -> path_of t c p).
Proof.
  intros Hn Hi Hf.
  destruct (buildHuffmanTree_spec items freqs n) as (t & E & Hfull & _ & Hl);
    [lia | lia | lia |].
  assert (Hitems : map fst (leaf_codes t) ≡ₚ take (Z.to_nat n) items).
  { rewrite leaf_codes_leaves, Hl.
    change (fst <$> zip (take (Z.to_nat n) items) (take (Z.to_nat n) freqs)
            ≡ₚ take (Z.to_nat n) items).
    rewrite fst_zip; [reflexivity|]. rewrite !length_take. lia. }
  assert (Hlen : length (leaf_codes t) = Z.to_nat n).
  { pose proof (Permutation_length Hitems) as Hp.
    rewrite length_map, length_take in Hp. lia. }
  assert (Hh : height t <= 128).
  { pose proof (height_leaves t Hfull) as Hhl.
    assert (length (leaves t) = length (leaf_codes t))
      by (rewrite <- (length_map fst (leaves t)), <- leaf_codes_leaves, length_map;
          reflexivity).
    lia. }
  exists t. split; [exact E|]. split; [|split; [exact Hlen|split; [exact Hitems|]]].
  - unfold HuffmanCodes. rewrite E. cbn [bind]. rewrite printHCodes_traverse.
    destruct (traverse_fits act_codes _ act_codes_text t [] fresh_arr)
      as (rest' & Et & _); [simpl; lia | unfold INT_MAX; simpl; lia |].
    change ((Some <$> []) ++ fresh_arr) with fresh_arr in Et.
    change (Z.of_nat (length (@nil Z))) with 0 in Et.
    rewrite Et. cbn [bind snd]. rewrite visit_leaf_codes. reflexivity.
  - apply leaf_codes_path_of.
Qed.

(** The listing of the sample alphabet. *)
Lemma HuffmanCodes_listing_witness :
  exists t,
    buildHuffmanTree sample_items sample_freqs 5 = Done t /\
    HuffmanCodes sample_items sample_freqs 5 = Done (concat (map code_line (leaf_codes t))) /\
    length (leaf_codes t) = 5%nat /\
    map fst (leaf_codes t) ≡ₚ sample_items /\
    (forall c p, In (c, p) (leaf_codes t) -> path_of t c p).
Proof.
  apply (HuffmanCodes_listing sample_items sample_freqs 5).
  - lia.
  - simpl. lia.
  - simpl. lia.
Defined.

(** X7. [HuffmanCodes] does not check the tree against its code array:
    when the tree of the alphabet is higher than 128 it writes [arr[128]],
    the cell after the last one. *)
Theorem HuffmanCodes_overflows {W : Type} {weight : Weight W}
    (items : list Z) (freqs : list W) (n : Z) (t : MinHNode W) :
  buildHuffmanTree items freqs n = Done t -> 128 < height t ->
  HuffmanCodes items freqs n = Undefined (OutOfBounds 128).
Proof.
  intros E Hh.
  unfold HuffmanCodes. rewrite E. cbn [bind]. rewrite printHCodes_traverse.
  pose proof (traverse_overflows act_codes _ act_codes_text t [] fresh_arr
                ltac:(simpl; lia) ltac:(unfold INT_MAX; simpl; lia)) as Ht.
  change ((Some <$> []) ++ fresh_arr) with fresh_arr in Ht.
  change (Z.of_nat (length (@nil Z))) with 0 in Ht.
  rewrite Ht. reflexivity.
Qed.

(** 130 symbols, each weighing twice the one before: the tree has height
    129. *)
Lemma HuffmanCodes_overflows_witness :
  HuffmanCodes deep_items deep_freqs 130 = Undefined (OutOfBounds 128).
Proof.
  apply (HuffmanCodes_overflows deep_items deep_freqs 130 deep_tree).
  - vm_compute. reflexivity.
  - vm_compute. reflexivity.
Defined.

(** ** The codes of the symbols and the decoder *)

Section Codes.

Context {W : Type} {weight : Weight W}.
Implicit Types (t root cur : MinHNode W) (path : list Z).

Lemma walk_app path : forall t q,
  walk t (path ++ q) = match walk t path with Some n => walk n q | None => None end.
Proof.
  induction path as [|b path IH]; intros t q; [reflexivity|].
  cbn [app walk].
  destruct (if b =? 0 then left t else if b =? 1 then right t else None); auto.
Qed.

Lemma walk_height path : forall t n,
  walk t path = Some n -> Z.of_nat (length path) <= height t.
Proof.
  induction path as [|b path IH]; intros t n Hw.
  - simpl. apply height_nonneg.
  - destruct t as [c f l r]. cbn [walk left right] in Hw. cbn [height length].
    destruct (b =? 0).
    + destruct l as [l0|]; [|discriminate]. specialize (IH l0 n Hw). lia.
    + destruct (b =? 1); [|discriminate].
      destruct r as [r0|]; [|discriminate]. specialize (IH r0 n Hw). lia.
Qed.

(** A leaf that a path leads to is one of the leaves of the tree. *)
Lemma walk_leaves t path lf :
  walk t path = Some lf -> isLeaf lf = true -> In (item lf) (map fst (leaves t)).
Proof.
  intros Hw Hlf.
  destruct (in_dec Z.eq_dec (item lf) (map fst (leaves t))) as [Hin|Hout]; [exact Hin|].
  pose proof (paths_to_absent t (item lf) Hout) as Hnone.
  assert (Hp : path_of t (item lf) path) by (exists lf; auto).
  apply path_of_paths_to in Hp. rewrite Hnone in Hp. destruct Hp.
Qed.

(** The node reached before the end of a path to a leaf has a child. *)
Lemma walk_take path t lf (k : nat) :
  walk t path = Some lf -> (k < length path)%nat ->
  exists n, walk t (take k path) = Some n /\ isLeaf n = false.
Proof.
  intros Hw Hk. rewrite <- (take_drop k path), walk_app in Hw.
  destruct (walk t (take k path)) as [n|]; [|discriminate].
  exists n. split; [reflexivity|].
  destruct (isLeaf n) eqn:Elf; [|reflexivity].
  destruct (walk_leaf n (drop k path) lf Elf Hw) as [Hnil _].
  apply (f_equal length) in Hnil. rewrite length_drop in Hnil. simpl in Hnil. lia.
Qed.

Lemma code_of_absent t c : ~ In c (map fst (leaves t)) -> code_of t c = [].
Proof. intros Hc. unfold code_of. rewrite paths_to_absent by exact Hc. reflexivity. Qed.

(** The code of a symbol that exactly one leaf holds is its bit path, as
    characters. *)
Lemma code_of_path t c :
  NoDup (map fst (leaves t)) -> In c (map fst (leaves t)) ->
  exists path lf,
    paths_to t c = [path] /\ walk t path = Some lf /\ isLeaf lf = true /\ item lf = c /\
    Forall (fun b => b = 0 \/ b = 1) path /\
    code_of t c = flat_map fprintf_d path /\ code_of t c = map (Z.add 48) path.
Proof.
  intros Hnd Hin. destruct (paths_to_unique t c Hnd Hin) as (path & Hp).
  destruct (paths_to_path_of t c path) as (lf & Hw & Hlf & Hitem);
    [rewrite Hp; left; reflexivity|].
  pose proof (walk_bits path t lf Hw) as Hbits.
  exists path, lf. repeat (split; [assumption|]).
  unfold code_of. rewrite Hp. cbn [map concat]. rewrite app_nil_r. unfold path_text.
  change (0 =? 0) with true. cbv iota. rewrite app_nil_r.
  split; [reflexivity|]. apply flat_map_fprintf_d. exact Hbits.
Qed.

Lemma encode_loop_codes t B :
  height t <= 128 -> encode_loop t B = Done (flat_map (fun ch => code_of t (to_char ch)) B).
Proof. apply encode_loop_spec. Qed.

(** Decoding resumes at the root after the codes of a text. *)
Lemma decode_codes_app t B rest :
  isLeaf t = false -> NoDup (map fst (leaves t)) ->
  (forall ch, In ch B -> In (to_char ch) (map fst (leaves t))) ->
  decode_loop t t (flat_map (fun ch => code_of t (to_char ch)) B ++ rest)
  = map (fun ch => to_uchar (to_char ch)) B ++ decode_loop t t rest.
Proof.
  intros Hroot Hnd HB. induction B as [|ch B IH]; [reflexivity|].
  cbn [flat_map map].
  destruct (code_of_path t (to_char ch) Hnd (HB ch (or_introl eq_refl)))
    as (p & lf & _ & Hw & Hlf & Hitem & _ & Hcode & _).
  rewrite Hcode, <- app_assoc.
  rewrite (decode_path t p t lf _ Hw Hlf Hroot), Hitem.
  rewrite IH; [reflexivity|]. intros c Hc. apply HB. right. exact Hc.
Qed.

(** The characters of a path that stops at a node with a child write
    nothing. *)
Lemma decode_partial root path : forall cur n,
  walk cur path = Some n -> isLeaf n = false ->
  decode_loop root cur (map (Z.add 48) path) = [].
Proof.
  induction path as [|b path IH]; intros cur n Hw Hn; [reflexivity|].
  cbn [walk] in Hw. cbn [map decode_loop].
  assert (Hstep : exists child,
            walk child path = Some n /\ decode_move cur (48 + b) = child).
  { unfold decode_move. destruct (Z.eqb_spec b 0) as [->|Hb0].
    - destruct (left cur) as [child|] eqn:El; [|discriminate].
      exists child. split; [exact Hw|]. change (48 + 0 =? 48) with true. cbv iota.
      reflexivity.
    - destruct (Z.eqb_spec b 1) as [->|Hb1]; [|discriminate].
      destruct (right cur) as [child|] eqn:Er; [|discriminate].
      exists child. split; [exact Hw|]. change (48 + 1 =? 48) with false.
      change (48 + 1 =? 49) with true. cbv iota. reflexivity. }
  destruct Hstep as (child & Hwc & Hmove).
  assert (Hchild : isLeaf child = false).
  { destruct (isLeaf child) eqn:Elf; [|reflexivity].
    destruct (walk_leaf child path n Elf Hwc) as [_ ->]. congruence. }
  unfold decode_step. rewrite Hmove, Hchild. cbn [fst snd app].
  apply (IH child n Hwc Hn).
Qed.

(** Where the root has a child, a character other than 0 and 1 changes
    nothing, wherever it stands in the input. *)
Lemma decode_loop_filter root (E : list Z) : forall cur,
  isLeaf root = false -> isLeaf cur = false ->
  decode_loop root cur (List.filter is_bit E) = decode_loop root cur E.
Proof.
  induction E as [|c E IH]; intros cur Hroot Hcur; [reflexivity|].
  cbn [List.filter decode_loop].
  assert (Hnext : isLeaf (fst (decode_step root cur c)) = false).
  { unfold decode_step. destruct (isLeaf (decode_move cur c)) eqn:Em; cbn [fst]; auto. }
  destruct (is_bit c) eqn:Eb.
  - cbn [decode_loop]. rewrite IH by auto. reflexivity.
  - assert (Hstay : decode_step root cur c = (cur, [])).
    { unfold is_bit in Eb. apply orb_false_elim in Eb as [E48 E49].
      unfold decode_step, decode_move. rewrite E48, E49, Hcur. reflexivity. }
    rewrite Hstay. cbn [fst snd app]. apply IH; auto.
Qed.

(** The decoder writes at most one byte for a character it reads, and
    every byte it writes is the symbol of a leaf. *)
Lemma decode_loop_output root (E : list Z) : forall cur,
  (exists path, walk root path = Some cur) ->
  (length (decode_loop root cur E) <= length E)%nat /\
  Forall (fun b => exists c, In c (map fst (leaves root)) /\ b = to_uchar c)
         (decode_loop root cur E).
Proof.
  induction E as [|c E IH]; intros cur [path Hpath]; [split; [reflexivity|constructor]|].
  cbn [decode_loop].
  assert (Hmove : exists path', walk root path' = Some (decode_move cur c)).
  { unfold decode_move.
    destruct (if c =? 48 then left cur else None) as [l0|] eqn:El.
    - destruct (c =? 48); [|discriminate]. exists (path ++ [0]).
      rewrite walk_app, Hpath. cbn [walk]. change (0 =? 0) with true. cbv iota.
      rewrite El. reflexivity.
    - destruct (if c =? 49 then right cur else None) as [r0|] eqn:Er.
      + destruct (c =? 49); [|discriminate]. exists (path ++ [1]).
        rewrite walk_app, Hpath. cbn [walk]. change (1 =? 0) with false.
        change (1 =? 1) with true. cbv iota. rewrite Er. reflexivity.
      + exists path. exact Hpath. }
  destruct Hmove as [path' Hpath'].
  unfold decode_step. destruct (isLeaf (decode_move cur c)) eqn:Elf; cbn [fst snd].
  - destruct (IH root (ex_intro _ [] eq_refl)) as [Hlen Hall].
    split; [simpl; lia|]. constructor; [|exact Hall].
    exists (item (decode_move cur c)). split; [|reflexivity].
    apply (walk_leaves root path' _ Hpath' Elf).
  - destruct (IH (decode_move cur c) (ex_intro _ path' Hpath')) as [Hlen Hall].
    split; [simpl; lia | exact Hall].
Qed.

(** The tree of the program and what the three commands come to on it. *)
Lemma program_tree (P : list W) :
  (128 <= length P)%nat ->
  exists t,
    full t /\ isLeaf t = false /\ height t <= 127 /\
    NoDup (map fst (leaves t)) /\
    (forall c, In c (map fst (leaves t)) <-> 0 <= c < 128) /\
    (forall B, encodeFile B P = Done (flat_map (fun ch => code_of t (to_char ch)) B)) /\
    (forall E, decodeFile E P = Done (decode_loop t t E)) /\
    generateAndPrintHuffmanCodes P = Done (concat (map (listing_line t) ascii_characters)).
Proof.
  intros HP.
  destruct (ascii_tree (take 128 P)) as (t & E & Hf & _ & _ & Hitems & Hroot & Hh);
    [rewrite length_take; lia|].
  assert (Hrd : readProbabilitiesFromFile P = Done (take 128 P))
    by (apply readProbabilities_loop_Done; exact HP).
  exists t. split; [exact Hf|]. split; [exact Hroot|]. split; [exact Hh|].
  split; [rewrite Hitems; apply ascii_characters_NoDup|].
  split; [|split; [|split]].
  - intros c. rewrite <- !list_elem_of_In, Hitems, list_elem_of_In.
    symmetry. apply ascii_characters_In.
  - intros B. unfold encodeFile. rewrite Hrd. cbn [bind]. rewrite E. cbn [bind].
    apply encode_loop_codes. lia.
  - intros E0. unfold decodeFile. rewrite Hrd. cbn [bind]. rewrite E. reflexivity.
  - unfold generateAndPrintHuffmanCodes. rewrite Hrd. cbn [bind]. rewrite E. cbn [bind].
    exact (listing_loop_spec t ascii_characters 128 0 ltac:(lia) ltac:(simpl; lia)).
Qed.

End Codes.

Lemma to_char_high ch : 128 <= ch <= 255 -> to_char ch = ch - 256.
Proof.
  intros Hc. unfold to_char. rewrite Z.mod_small by lia.
  destruct (Z.ltb_spec ch 128); [lia | reflexivity].
Qed.

(** X8. The round trip on any file: every byte of 0..127 comes back, a
    byte of 128..255 is left out by [encodeFile], which writes nothing for
    it and reports nothing. *)
Theorem roundtrip_drops_high_bytes {W : Type} {weight : Weight W}
    (P : list W) (B : list Z) :
  (128 <= length P)%nat ->
  Forall (fun b => 0 <= b <= 255) B ->
  exists E,
    encodeFile B P = Done E /\
    encodeFile (List.filter (fun b => b <? 128) B) P = Done E /\
    decodeFile E P = Done (List.filter (fun b => b <? 128) B).
Proof.
  intros HP HB.
  destruct (program_tree P HP) as (t & _ & Hroot & _ & Hnd & Hin & Henc & Hdec & _).
  assert (Hdrop : flat_map (fun ch => code_of t (to_char ch)) B
                  = flat_map (fun ch => code_of t (to_char ch))
                             (List.filter (fun b => b <? 128) B)).
  { induction HB as [|b B Hb HB IH]; [reflexivity|].
    cbn [flat_map List.filter]. destruct (Z.ltb_spec b 128).
    - cbn [flat_map]. rewrite IH. reflexivity.
    - rewrite code_of_absent; [exact IH|].
      rewrite Hin, to_char_high by lia. lia. }
  exists (flat_map (fun ch => code_of t (to_char ch)) B).
  split; [apply Henc|]. split; [rewrite Henc, Hdrop; reflexivity|].
  rewrite Hdec, Hdrop. f_equal.
  rewrite <- (app_nil_r (flat_map _ _)), decode_codes_app; [| exact Hroot | exact Hnd |].
  - cbn [decode_loop]. rewrite app_nil_r.
    rewrite <- (map_id (List.filter _ B)) at 2. apply map_ext_in.
    intros b Hb. apply filter_In in Hb as [Hb Hlt].
    rewrite Forall_forall in HB. apply list_elem_of_In in Hb. specialize (HB b Hb).
    apply Z.ltb_lt in Hlt. apply to_uchar_to_char. lia.
  - intros b Hb. apply filter_In in Hb as [Hb Hlt].
    rewrite Forall_forall in HB. apply list_elem_of_In in Hb. specialize (HB b Hb).
    apply Z.ltb_lt in Hlt. rewrite Hin, to_char_small by lia. lia.
Qed.

(** A file of four bytes, two of them above 127. *)
Lemma roundtrip_drops_high_bytes_witness :
  exists E,
    encodeFile [97; 200; 98; 255] aaab_table = Done E /\
    encodeFile [97; 98] aaab_table = Done E /\
    decodeFile E aaab_table = Done [97; 98].
Proof.
  apply (roundtrip_drops_high_bytes aaab_table [97; 200; 98; 255]).
  - simpl. lia.
  - repeat constructor; lia.
Defined.

(** X9. What [encodeFile] writes is made of the characters 0 and 1 only,
    and of 1 to 127 of them for each byte of 0..127 it reads: the encoded
    file is never shorter than the data file. *)
Theorem encoded_text {W : Type} {weight : Weight W} (P : list W) (B : list Z) :
  (128 <= length P)%nat ->
  Forall (fun b => 0 <= b <= 127) B ->
  exists E,
    encodeFile B P = Done E /\
    Forall (fun c => c = 48 \/ c = 49) E /\
    Z.of_nat (length B) <= Z.of_nat (length E) <= 127 * Z.of_nat (length B).
Proof.
  intros HP HB.
  destruct (program_tree P HP) as (t & _ & Hroot & Hh & Hnd & Hin & Henc & _).
  exists (flat_map (fun ch => code_of t (to_char ch)) B). split; [apply Henc|].
  induction HB as [|b B Hb HB IH]; [split; [constructor | simpl; lia]|].
  cbn [flat_map]. destruct IH as [IHbits IHlen].
  destruct (code_of_path t (to_char b) Hnd) as (p & lf & _ & Hw & Hlf & _ & Hbits & _ & Hcode).
  { rewrite Hin, to_char_small by lia. lia. }
  rewrite Hcode. split.
  - apply Forall_app. split; [|exact IHbits].
    apply Forall_forall. intros c Hc. apply list_elem_of_In, in_map_iff in Hc as (x & <- & Hx).
    rewrite Forall_forall in Hbits. apply list_elem_of_In in Hx.
    destruct (Hbits x Hx) as [-> | ->]; auto.
  - rewrite length_app, length_map. cbn [length].
    pose proof (walk_height p t lf Hw) as Hlen.
    assert (p <> []) by (intros ->; simpl in Hw; inversion Hw; congruence).
    destruct p; [congruence|]. cbn [length] in *. lia.
Qed.

(** The sample text under its own table. *)
Lemma encoded_text_witness :
  exists E,
    encodeFile [97; 97; 97; 98] aaab_table = Done E /\
    Forall (fun c => c = 48 \/ c = 49) E /\
    4 <= Z.of_nat (length E) <= 508.
Proof.
  apply (encoded_text aaab_table [97; 97; 97; 98]).
  - simpl. lia.
  - repeat constructor; lia.
Defined.

(** X10. [decodeFile] returns on every encoded file, whatever characters
    it holds: it writes at most one byte for each character it reads, and
    only bytes of 0..127. *)
Theorem decodeFile_total {W : Type} {weight : Weight W} (P : list W) (E : list Z) :
  (128 <= length P)%nat ->
  exists out,
    decodeFile E P = Done out /\
    (length out <= length E)%nat /\
    Forall (fun b => 0 <= b <= 127) out.
Proof.
  intros HP.
  destruct (program_tree P HP) as (t & _ & _ & _ & _ & Hin & _ & Hdec & _).
  exists (decode_loop t t E). split; [apply Hdec|].
  destruct (decode_loop_output t E t (ex_intro _ [] eq_refl)) as [Hlen Hall].
  split; [exact Hlen|].
  apply Forall_forall. intros b Hb. rewrite Forall_forall in Hall.
  destruct (Hall b Hb) as (c & Hc & ->). apply Hin in Hc.
  unfold to_uchar. rewrite Z.mod_small; lia.
Qed.

(** An encoded file that is no encoding: letters, a newline, and bits. *)
Lemma decodeFile_total_witness :
  exists out,
    decodeFile [104; 105; 10; 48; 49; 50; 49; 49; 48; 255] aaab_table = Done out /\
    (length out <= 10)%nat /\ Forall (fun b => 0 <= b <= 127) out.
Proof.
  apply (decodeFile_total aaab_table [104; 105; 10; 48; 49; 50; 49; 49; 48; 255]).
  simpl. lia.
Defined.

(** X11. [decodeFile] passes over every character of the encoded file
    other than 0 and 1, wherever it stands: the file decodes as the file
    with those characters taken out. *)
Theorem decodeFile_skips_other_characters {W : Type} {weight : Weight W}
    (P : list W) (E : list Z) :
  (128 <= length P)%nat ->
  exists out,
    decodeFile E P = Done out /\ decodeFile (List.filter is_bit E) P = Done out.
Proof.
  intros HP.
  destruct (program_tree P HP) as (t & _ & Hroot & _ & _ & _ & _ & Hdec & _).
  exists (decode_loop t t E). split; [apply Hdec|].
  rewrite Hdec, decode_loop_filter by exact Hroot. reflexivity.
Qed.

(** Bits broken into lines. *)
Lemma decodeFile_skips_other_characters_witness :
  exists out,
    decodeFile [49; 48; 10; 49; 32; 49; 10] aaab_table = Done out /\
    decodeFile [49; 48; 49; 49] aaab_table = Done out.
Proof.
  apply (decodeFile_skips_other_characters aaab_table [49; 48; 10; 49; 32; 49; 10]).
  simpl. lia.
Defined.

(** X12. The codec works symbol by symbol: the encoding of two texts one
    after the other is the encoding of the first followed by the encoding
    of the second, and what follows a complete encoding is decoded from the
    root, as if it stood alone. *)
Theorem codec_concatenation {W : Type} {weight : Weight W}
    (P : list W) (B1 : list Z) :
  (128 <= length P)%nat ->
  Forall (fun b => 0 <= b <= 127) B1 ->
  exists E1,
    encodeFile B1 P = Done E1 /\
    (forall B2, exists E2,
        encodeFile B2 P = Done E2 /\ encodeFile (B1 ++ B2) P = Done (E1 ++ E2)) /\
    (forall E2, exists out2,
        decodeFile E2 P = Done out2 /\ decodeFile (E1 ++ E2) P = Done (B1 ++ out2)).
Proof.
  intros HP HB.
  destruct (program_tree P HP) as (t & _ & Hroot & _ & Hnd & Hin & Henc & Hdec & _).
  exists (flat_map (fun ch => code_of t (to_char ch)) B1).
  split; [apply Henc|]. split.
  - intros B2. exists (flat_map (fun ch => code_of t (to_char ch)) B2).
    split; [apply Henc|]. rewrite Henc, flat_map_app. reflexivity.
  - intros E2. exists (decode_loop t t E2). split; [apply Hdec|].
    rewrite Hdec, decode_codes_app; [| exact Hroot | exact Hnd |].
    + f_equal. f_equal. rewrite <- (map_id B1) at 2. apply map_ext_in.
      intros b Hb. rewrite Forall_forall in HB. apply list_elem_of_In in Hb.
      specialize (HB b Hb). apply to_uchar_to_char. lia.
    + intros b Hb. rewrite Forall_forall in HB. apply list_elem_of_In in Hb.
      specialize (HB b Hb). rewrite Hin, to_char_small by lia. lia.
Qed.

(** The sample text as the first text. *)
Lemma codec_concatenation_witness :
  exists E1,
    encodeFile [97; 97; 97; 98] aaab_table = Done E1 /\
    (exists E2, encodeFile [98; 97] aaab_table = Done E2 /\
                encodeFile [97; 97; 97; 98; 98; 97] aaab_table = Done (E1 ++ E2)) /\
    (exists out2, decodeFile [49; 48; 120] aaab_table = Done out2 /\
                  decodeFile (E1 ++ [49; 48; 120]) aaab_table
                  = Done ([97; 97; 97; 98] ++ out2)).
Proof.
  destruct (codec_concatenation aaab_table [97; 97; 97; 98]) as (E1 & He & Henc & Hdec).
  - simpl. lia.
  - repeat constructor; lia.
  - exists E1. split; [exact He|]. split; [exact (Henc [98; 97]) | exact (Hdec [49; 48; 120])].
Defined.

(** X13. A truncated encoded file: when the encoding of a text is
    followed by the code of a symbol cut short, [decodeFile] writes the
    text and nothing for the part of a code, and reports nothing. *)
Theorem truncated_code_dropped {W : Type} {weight : Weight W}
    (P : list W) (B : list Z) (c : Z) :
  (128 <= length P)%nat ->
  Forall (fun b => 0 <= b <= 127) B -> 0 <= c <= 127 ->
  exists E code,
    encodeFile B P = Done E /\ encodeFile [c] P = Done code /\
    forall k, (k < length code)%nat -> decodeFile (E ++ take k code) P = Done B.
Proof.
  intros HP HB Hc.
  destruct (program_tree P HP) as (t & _ & Hroot & _ & Hnd & Hin & Henc & Hdec & _).
  destruct (code_of_path t (to_char c) Hnd) as (p & lf & _ & Hw & Hlf & _ & _ & _ & Hcode).
  { rewrite Hin, to_char_small by lia. lia. }
  exists (flat_map (fun ch => code_of t (to_char ch)) B), (map (Z.add 48) p).
  split; [apply Henc|]. split.
  - rewrite Henc. cbn [flat_map]. rewrite app_nil_r, Hcode. reflexivity.
  - intros k Hk. rewrite length_map in Hk.
    destruct (walk_take p t lf k Hw Hk) as (n & Hn & Hnl).
    rewrite Hdec, decode_codes_app; [| exact Hroot | exact Hnd |].
    + change (take k (map (Z.add 48) p)) with (take k (Z.add 48 <$> p)).
      rewrite <- fmap_take. change (Z.add 48 <$> take k p) with (map (Z.add 48) (take k p)).
      rewrite (decode_partial t (take k p) t n Hn Hnl), app_nil_r. f_equal.
      rewrite <- (map_id B) at 2. apply map_ext_in.
      intros b Hb. rewrite Forall_forall in HB. apply list_elem_of_In in Hb.
      specialize (HB b Hb). apply to_uchar_to_char. lia.
    + intros b Hb. rewrite Forall_forall in HB. apply list_elem_of_In in Hb.
      specialize (HB b Hb). rewrite Hin, to_char_small by lia. lia.
Qed.

(** The sample text followed by part of the code of the letter z. *)
Lemma truncated_code_dropped_witness :
  exists E code,
    encodeFile [97; 97; 97; 98] aaab_table = Done E /\
    encodeFile [122] aaab_table = Done code /\
    forall k, (k < length code)%nat ->
              decodeFile (E ++ take k code) aaab_table = Done [97; 97; 97; 98].
Proof.
  apply (truncated_code_dropped aaab_table [97; 97; 97; 98] 122).
  - simpl. lia.
  - repeat constructor; lia.
  - lia.
Defined.

(** X14. The code listing and the encoder agree: the line of the listing
    for a symbol of 32..126 is what [encodeFile] writes for a file made of
    that one symbol, followed by a newline. *)
Theorem listing_matches_encoder {W : Type} {weight : Weight W} (P : list W) :
  (128 <= length P)%nat ->
  exists code : Z -> list Z,
    (forall c, 0 <= c <= 127 -> encodeFile [c] P = Done (code c)) /\
    generateAndPrintHuffmanCodes P
    = Done (flat_map (fun c => if printable c then code c ++ [NEWLINE]
                               else bytes_of "No code" ++ [NEWLINE])
                     ascii_characters).
Proof.
  intros HP.
  destruct (program_tree P HP) as (t & _ & Hroot & _ & Hnd & Hin & Henc & _ & Hlist).
  exists (code_of t). split.
  - intros c Hc. rewrite Henc. cbn [flat_map]. rewrite app_nil_r, to_char_small by lia.
    reflexivity.
  - rewrite Hlist, flat_map_concat_map. f_equal. f_equal. apply map_ext_in.
    intros c Hc. unfold listing_line. destruct (printable c); [|reflexivity].
    apply ascii_characters_In in Hc.
    destruct (code_of_path t c Hnd) as (p & lf & Hp & _ & _ & _ & _ & Hcode & _);
      [apply Hin; lia|].
    rewrite Hcode, Hp. cbn [map concat]. rewrite app_nil_r. reflexivity.
Qed.

(** The listing for the table of the sample text. *)
Lemma listing_matches_encoder_witness :
  exists code : Z -> list Z,
    (forall c, 0 <= c <= 127 -> encodeFile [c] aaab_table = Done (code c)) /\
    generateAndPrintHuffmanCodes aaab_table
    = Done (flat_map (fun c => if printable c then code c ++ [NEWLINE]
                               else bytes_of "No code" ++ [NEWLINE])
                     ascii_characters).
Proof.
  apply (listing_matches_encoder aaab_table). simpl. lia.
Defined.

(** X15. A probability file that holds fewer than 128 numbers: the three
    commands that read it leave through [exit(EXIT_FAILURE)], before they
    have built a tree or written anything. *)
Theorem short_table_exits {W : Type} {weight : Weight W}
    (P : list W) (B E : list Z) :
  (length P < 128)%nat ->
  readProbabilitiesFromFile P = Exited EXIT_FAILURE /\
  generateAndPrintHuffmanCodes P = Exited EXIT_FAILURE /\
  encodeFile B P = Exited EXIT_FAILURE /\
  decodeFile E P = Exited EXIT_FAILURE.
Proof.
  intros HP.
  assert (Hrd : readProbabilitiesFromFile P = Exited EXIT_FAILURE)
    by (apply readProbabilities_loop_Exited; exact HP).
  unfold generateAndPrintHuffmanCodes, encodeFile, decodeFile. rewrite Hrd.
  repeat split; reflexivity.
Qed.

(** A table one number short. *)
Lemma short_table_exits_witness :
  encodeFile [97] (take 127 aaab_table) = Exited 1 /\
  decodeFile [48] (take 127 aaab_table) = Exited 1.
Proof.
  destruct (short_table_exits (take 127 aaab_table) [97] [48]) as (_ & _ & He & Hd).
  - simpl. lia.
  - split; [exact He | exact Hd].
Defined.

(** X16. A probability file that holds more than 128 numbers: the first
    128 are read and the others are never looked at. *)
Theorem long_table_truncated {W : Type} {weight : Weight W}
    (P more : list W) (B E : list Z) :
  length P = 128%nat ->
  readProbabilitiesFromFile (P ++ more) = Done P /\
  generateAndPrintHuffmanCodes (P ++ more) = generateAndPrintHuffmanCodes P /\
  encodeFile B (P ++ more) = encodeFile B P /\
  decodeFile E (P ++ more) = decodeFile E P.
Proof.
  intros HP.
  assert (Hrd : forall Q, readProbabilitiesFromFile (P ++ Q) = Done P).
  { intros Q. unfold readProbabilitiesFromFile. change (Z.to_nat ASCII_SIZE) with 128%nat.
    rewrite readProbabilities_loop_Done by (rewrite length_app; lia).
    rewrite <- HP, take_app_length. reflexivity. }
  pose proof (Hrd []) as Hrd0. rewrite app_nil_r in Hrd0.
  unfold generateAndPrintHuffmanCodes, encodeFile, decodeFile. rewrite Hrd, Hrd0.
  repeat split; reflexivity.
Qed.

(** The table of the sample text followed by two more numbers. *)
Lemma long_table_truncated_witness :
  encodeFile [97; 98] (aaab_table ++ [0.5%float; 0.5%float]) = encodeFile [97; 98] aaab_table.
Proof.
  destruct (long_table_truncated aaab_table [0.5%float; 0.5%float] [97; 98] [])
    as (_ & _ & He & _).
  - reflexivity.
  - exact He.
Defined.

Section Stall.

Context {W : Type} {weight : Weight W}.

Lemma full_walk path : forall (t n : MinHNode W),
  full t -> walk t path = Some n -> full n.
Proof.
  induction path as [|b path IH]; intros t n Hf Hw.
  - simpl in Hw. inversion Hw; subst. exact Hf.
  - destruct t as [c f [l|] [r|]]; simpl in Hf; try contradiction.
    + destruct Hf as [Hl Hr]. cbn [walk left right] in Hw.
      destruct (b =? 0); [exact (IH l n Hl Hw)|].
      destruct (b =? 1); [exact (IH r n Hr Hw) | discriminate].
    + cbn [walk left right] in Hw. destruct (b =? 0); [discriminate|].
      destruct (b =? 1); discriminate.
Qed.

Lemma full_children (n : MinHNode W) :
  full n -> isLeaf n = false -> exists l r, left n = Some l /\ right n = Some r.
Proof.
  destruct n as [c f [l|] [r|]]; simpl; intros Hf Hl; try contradiction; try discriminate.
  eauto.
Qed.

(** In a tree whose nodes have two children or none, every character 0
    or 1 is a move down: of as many of them in a row as the tree is high,
    one at least reaches a leaf. *)
Lemma decode_loop_progress (root : MinHNode W) (E : list Z) : forall cur path,
  full root -> isLeaf root = false ->
  walk root path = Some cur -> isLeaf cur = false ->
  Forall (fun c => c = 48 \/ c = 49) E ->
  Z.of_nat (length E) + Z.of_nat (length path)
  < height root * (Z.of_nat (length (decode_loop root cur E)) + 1).
Proof.
  induction E as [|c E IH]; intros cur path Hfull Hroot Hpath Hcur HE.
  - destruct (full_children cur (full_walk path root cur Hfull Hpath) Hcur)
      as (l & r & Hl & _).
    assert (Hw : walk root (path ++ [0]) = Some l).
    { rewrite walk_app, Hpath. cbn [walk]. change (0 =? 0) with true. cbv iota.
      rewrite Hl. reflexivity. }
    apply walk_height in Hw. rewrite length_app in Hw. simpl in *. lia.
  - inversion HE as [|? ? Hc HE']; subst.
    destruct (full_children cur (full_walk path root cur Hfull Hpath) Hcur)
      as (l & r & Hl & Hr).
    assert (Hmove : exists child b,
              decode_move cur c = child /\ walk root (path ++ [b]) = Some child).
    { destruct Hc as [-> | ->].
      - exists l, 0. unfold decode_move. change (48 =? 48) with true. cbv iota.
        rewrite Hl. split; [reflexivity|].
        rewrite walk_app, Hpath. cbn [walk]. change (0 =? 0) with true. cbv iota.
        rewrite Hl. reflexivity.
      - exists r, 1. unfold decode_move. change (49 =? 48) with false.
        change (49 =? 49) with true. cbv iota. rewrite Hr. split; [reflexivity|].
        rewrite walk_app, Hpath. cbn [walk]. change (1 =? 0) with false.
        change (1 =? 1) with true. cbv iota. rewrite Hr. reflexivity. }
    destruct Hmove as (child & b & Hmove & Hw).
    cbn [decode_loop]. unfold decode_step. rewrite Hmove.
    pose proof (walk_height _ _ _ Hw) as Hh. rewrite length_app in Hh.
    destruct (isLeaf child) eqn:Elf; cbn [fst snd app length].
    + specialize (IH root [] Hfull Hroot eq_refl Hroot HE'). simpl in *. lia.
    + specialize (IH child (path ++ [b]) Hfull Hroot Hw Elf HE').
      rewrite length_app in IH. simpl in *. lia.
Qed.

End Stall.

(** X17. [decodeFile] does not stall on bits: an encoded file made of
    [L] characters, each of them 0 or 1, decodes to more than
    [L / 127 - 1] bytes. *)
Theorem decodeFile_progress {W : Type} {weight : Weight W} (P : list W) (E : list Z) :
  (128 <= length P)%nat ->
  Forall (fun c => c = 48 \/ c = 49) E ->
  exists out,
    decodeFile E P = Done out /\
    Z.of_nat (length E) < 127 * (Z.of_nat (length out) + 1).
Proof.
  intros HP HE.
  destruct (program_tree P HP) as (t & Hfull & Hroot & Hh & _ & _ & _ & Hdec & _).
  exists (decode_loop t t E). split; [apply Hdec|].
  pose proof (decode_loop_progress t E t [] Hfull Hroot eq_refl Hroot HE) as Hp.
  simpl in Hp. nia.
Qed.

(** A run of 300 characters 1. *)
Lemma decodeFile_progress_witness :
  exists out,
    decodeFile (replicate 300 49) aaab_table = Done out /\ (2 <= length out)%nat.
Proof.
  destruct (decodeFile_progress aaab_table (replicate 300 49)) as (out & E & Hlen).
  - simpl. lia.
  - apply Forall_replicate. right. reflexivity.
  - exists out. split; [exact E|]. rewrite length_replicate in Hlen. lia.
Defined.

(** ** The frequency count and the probability table *)

Lemma occurrences_cons r f c :
  occurrences (r :: f) c = (if c =? r then 1 else 0) + occurrences f c.
Proof.
  unfold occurrences. cbn [List.filter]. destruct (c =? r); cbn [length]; lia.
Qed.

Lemma occurrences_bound f c : 0 <= occurrences f c <= Z.of_nat (length f).
Proof.
  unfold occurrences. pose proof (List.filter_length_le (Z.eqb c) f). lia.
Qed.

(** The loop of [getFreq] adds to each entry the number of times its index
    occurs in the file. *)
Lemma getFreq_loop_counts (f : list Z) : forall (vs : list Z) n,
  length vs = 128%nat -> Forall (fun b => 0 <= b <= 127) f ->
  0 <= n -> n + Z.of_nat (length f) <= INT_MAX ->
  Forall (fun v => 0 <= v /\ v + Z.of_nat (length f) < 2 ^ 32) vs ->
  exists vs',
    getFreq_loop f (Some <$> vs) n = Done (n + Z.of_nat (length f), Some <$> vs') /\
    length vs' = 128%nat /\
    forall (c : nat) v, vs !! c = Some v ->
                        vs' !! c = Some (v + occurrences f (Z.of_nat c)).
Proof.
  induction f as [|r f IH]; intros vs n Hvs Hf Hn Hmax Hsmall.
  - exists vs. rewrite Z.add_0_r. split; [reflexivity|]. split; [exact Hvs|].
    intros c v Hc. rewrite Hc. unfold occurrences. simpl. f_equal. lia.
  - inversion Hf as [|? ? Hr Hf']; subst. cbn [getFreq_loop length] in *.
    destruct (lookup_lt_is_Some_2 vs (Z.to_nat r)) as [v Hv]; [lia|].
    assert (Hcell : cell (Some <$> vs) r = Some v).
    { rewrite <- (app_nil_r (Some <$> vs)), cell_front by lia. exact Hv. }
    rewrite (proj2 (rd_Done _ _ _) Hcell). cbn [bind].
    rewrite wr_in_bounds by (rewrite length_fmap; lia). cbn [bind].
    rewrite int_arith_Done by (unfold INT_MIN, INT_MAX in *; lia). cbn [bind].
    rewrite <- list_fmap_insert.
    assert (Hv32 : 0 <= v /\ v + Z.of_nat (S (length f)) < 2 ^ 32).
    { rewrite Forall_lookup in Hsmall. apply (Hsmall _ _ Hv). }
    rewrite to_unsigned_small by lia.
    destruct (IH (<[Z.to_nat r := v + 1]> vs) (n + 1))
      as (vs' & E & Hl' & Hcount);
      [rewrite length_insert; exact Hvs | exact Hf' | lia | lia | |].
    { apply Forall_insert; [|lia].
      eapply Forall_impl; [exact Hsmall|]. cbn beta. intros x Hx. lia. }
    exists vs'. rewrite E. split; [do 2 f_equal; lia|]. split; [exact Hl'|].
    intros c w Hc. rewrite occurrences_cons.
    destruct (Nat.eq_dec c (Z.to_nat r)) as [->|Hne].
    + assert (w = v) by congruence. subst w.
      rewrite (Hcount (Z.to_nat r) (v + 1)).
      * rewrite Z2Nat.id by lia. rewrite Z.eqb_refl. f_equal. lia.
      * apply list_lookup_insert_eq. apply lookup_lt_Some in Hv. exact Hv.
    + rewrite (Hcount c w).
      * destruct (Z.eqb_spec (Z.of_nat c) r); [lia|]. f_equal.
      * rewrite list_lookup_insert_ne by auto. exact Hc.
Qed.

Lemma probabilities_loop_spec k : forall (vs : list Z) total (i : nat),
  (i + k <= length vs)%nat ->
  probabilities_loop k (Some <$> vs) total (Z.of_nat i)
  = Done (map (fun v => PrimFloat.div (double_of v) (double_of total)) (take k (drop i vs))).
Proof.
  induction k as [|k IH]; intros vs total i Hi; [reflexivity|].
  cbn [probabilities_loop].
  destruct (lookup_lt_is_Some_2 vs i) as [v Hv]; [lia|].
  assert (Hcell : cell (Some <$> vs) (Z.of_nat i) = Some v).
  { rewrite <- (app_nil_r (Some <$> vs)), cell_front by lia. rewrite Nat2Z.id. exact Hv. }
  rewrite (proj2 (rd_Done _ _ _) Hcell). cbn [bind].
  replace (Z.of_nat i + 1) with (Z.of_nat (S i)) by lia.
  rewrite IH by lia. cbn [bind].
  rewrite (drop_S vs v i Hv). reflexivity.
Qed.

(** The frequencies [getFreq] leaves for a file of bytes of 0..127. *)
Lemma getFreq_table (f : list Z) (data : ProbabilityData) :
  length (frequencies data) = 128%nat ->
  Forall (fun b => 0 <= b <= 127) f ->
  Z.of_nat (length f) <= INT_MAX ->
  getFreq f data
  = Done (Z.of_nat (length f),
          {| frequencies :=
               Some <$> map (fun c => occurrences f (Z.of_nat c)) (seq 0 128) |}).
Proof.
  intros Hd Hf Hmax. unfold getFreq, initializeProb.
  pose proof (initializeProb_loop_spec 128 [] (frequencies data) Hd) as Ei.
  cbn [app length] in Ei. change (Z.of_nat 0) with 0 in Ei.
  change (Z.to_nat ASCII_SIZE) with 128%nat.
  rewrite Ei. cbn [bind frequencies].
  change (replicate 128 (Some 0)) with (Some <$> replicate 128 0).
  destruct (getFreq_loop_counts f (replicate 128 0) 0) as (vs' & E & Hl & Hcount);
    [reflexivity | exact Hf | lia | lia | |].
  { apply Forall_replicate. unfold INT_MAX in Hmax. lia. }
  rewrite E. cbn [bind fst snd]. rewrite to_unsigned_small by (unfold INT_MAX in Hmax; lia).
  do 3 f_equal. apply list_eq. intros i.
  change (map (fun c => occurrences f (Z.of_nat c)) (seq 0 128))
    with ((fun c => occurrences f (Z.of_nat c)) <$> seq 0 128).
  rewrite !list_lookup_fmap.
  destruct (Nat.lt_ge_cases i 128) as [Hi|Hi].
  - rewrite lookup_seq_lt by exact Hi. cbn [fmap option_fmap option_map Nat.add].
    rewrite (Hcount i 0); [cbn; do 2 f_equal; lia|]. apply lookup_replicate_2. exact Hi.
  - rewrite lookup_seq_ge by exact Hi. rewrite (lookup_ge_None_2 vs') by lia. reflexivity.
Qed.

(** X18. [getFreq] counts: for a file of fewer than 2^31 bytes, all of
    0..127, it returns the number of bytes of the file and leaves in entry
    [c] of the table the number of times the byte [c] occurs in the file,
    whatever the table held before. *)
Theorem getFreq_counts (f : list Z) (data : ProbabilityData) :
  length (frequencies data) = 128%nat ->
  Forall (fun b => 0 <= b <= 127) f ->
  Z.of_nat (length f) <= INT_MAX ->
  exists data',
    getFreq f data = Done (Z.of_nat (length f), data') /\
    length (frequencies data') = 128%nat /\
    forall c, 0 <= c <= 127 -> cell (frequencies data') c = Some (occurrences f c).
Proof.
  intros Hd Hf Hmax. eexists. split; [apply getFreq_table; assumption|].
  cbn [frequencies]. split; [reflexivity|].
  intros c Hc. unfold cell. destruct (Z.leb_spec 0 c); [|lia].
  rewrite list_lookup_fmap.
  change (map (fun c => occurrences f (Z.of_nat c)) (seq 0 128))
    with ((fun c => occurrences f (Z.of_nat c)) <$> seq 0 128).
  rewrite list_lookup_fmap, lookup_seq_lt by lia. cbn. rewrite Z2Nat.id by lia.
  reflexivity.
Qed.

(** The sample text: three times the letter a, once the letter b. *)
Lemma getFreq_counts_witness :
  exists data',
    getFreq [97; 97; 97; 98] fresh_data = Done (4, data') /\
    cell (frequencies data') 97 = Some 3 /\ cell (frequencies data') 98 = Some 1 /\
    cell (frequencies data') 99 = Some 0.
Proof.
  destruct (getFreq_counts [97; 97; 97; 98] fresh_data) as (data' & E & _ & Hc).
  - reflexivity.
  - repeat constructor; lia.
  - vm_compute. discriminate.
  - exists data'. split; [exact E|].
    split; [exact (Hc 97 ltac:(lia))|]. split; [exact (Hc 98 ltac:(lia))|].
    exact (Hc 99 ltac:(lia)).
Defined.

(** X19. [calculateProbabilities]: on an empty file it leaves through
    [exit(EXIT_FAILURE)] and writes nothing; on a file of bytes of 0..127
    it writes 128 numbers, the one for the symbol [c] being the number of
    times [c] occurs in the file divided, as a [double], by the number of
    bytes of the file. *)
Theorem calculateProbabilities_table (input : list Z) :
  Forall (fun b => 0 <= b <= 127) input ->
  Z.of_nat (length input) <= INT_MAX ->
  calculateProbabilities input
  = match input with
    | [] => Exited EXIT_FAILURE
    | _ :: _ =>
        Done (map (fun c => PrimFloat.div (double_of (occurrences input (Z.of_nat c)))
                                          (double_of (Z.of_nat (length input))))
                  (seq 0 128))
    end.
Proof.
  intros Hf Hmax. unfold calculateProbabilities.
  rewrite getFreq_table; [| reflexivity | exact Hf | exact Hmax].
  cbn [bind fst snd frequencies].
  rewrite to_int_small by (unfold INT_MAX in Hmax; lia).
  destruct input as [|b input]; [reflexivity|].
  destruct (Z.eqb_spec (Z.of_nat (length (b :: input))) 0) as [E|_];
    [simpl in E; lia|].
  change (Z.to_nat ASCII_SIZE) with 128%nat.
  rewrite (probabilities_loop_spec 128 _ _ 0) by (rewrite length_map, length_seq; lia).
  rewrite drop_0, take_ge by (rewrite length_map, length_seq; lia).
  rewrite map_map. reflexivity.
Qed.

(** The table of the sample text, and the empty file. *)
Lemma calculateProbabilities_table_witness :
  calculateProbabilities [97; 97; 97; 98] = Done aaab_table /\
  calculateProbabilities [] = Exited 1.
Proof.
  split.
  - rewrite (calculateProbabilities_table [97; 97; 97; 98]).
    + vm_compute. reflexivity.
    + repeat constructor; lia.
    + vm_compute. discriminate.
  - apply (calculateProbabilities_table []).
    + constructor.
    + vm_compute. discriminate.
Defined.
